(** * r2d2-nodejs-logs: the Logger of [src/logger.ts]

    A shallow embedding of the logging library and the properties its
    specification states about it.

    The JavaScript heap is explicit: objects live at locations of a finite
    map, values refer to them by location, so aliasing and cyclic object
    graphs are ordinary inputs.  The sanitizer threads the heap and its
    [seen] set through a small state monad; everything it builds is
    allocated in that same heap. *)

From Stdlib Require Import Ascii String.
From stdpp Require Import base option list gmap sets strings pretty.

Local Open Scope string_scope.
Local Open Scope list_scope.
Local Open Scope nat_scope.
Local Open Scope stdpp_scope.

(** ** Values and objects *)

Definition loc := nat.

(** A JavaScript value: the primitives, or a reference to a heap object.
    The logger never inspects a number, a bigint or a symbol: their payload
    is carried along unchanged. *)
Inductive val :=
  | VUndef
  | VNull
  | VBool (b : bool)
  | VNum (n : Z)
  | VStr (s : string)
  | VBigInt (n : Z)
  | VSymbol (id : nat)
  | VRef (l : loc).

(** A property key is a string or a symbol. *)
Inductive key :=
  | KStr (s : string)
  | KSym (id : nat).

(** An own data property with its enumerable attribute. *)
Record prop := Prop_ { pkey : key; penum : bool; pval : val }.

(** The objects the sanitizer tells apart: callables ([typeof] is
    ['function'], with the text [toString] gives), instances of [Error]
    (with what [.name], [.message] and [.stack] read, typed as in the
    language's library: strings, [stack] optional), arrays, and every other
    object, of which only the own properties matter (listed in the order
    the engine enumerates them). *)
Inductive obj :=
  | OFun (src : string)
  | OErr (name message : string) (stack : option string)
  | OArr (elems : list val)
  | OObj (props : list prop).

#[global] Instance val_eq_dec : EqDecision val.
Proof. solve_decision. Defined.
#[global] Instance key_eq_dec : EqDecision key.
Proof. solve_decision. Defined.
#[global] Instance prop_eq_dec : EqDecision prop.
Proof. solve_decision. Defined.
#[global] Instance obj_eq_dec : EqDecision obj.
Proof. solve_decision. Defined.

Abbreviation heap := (gmap loc obj).

(** ** The sanitizer's state: the heap and the [seen] WeakSet *)

Record SanState := San { s_heap : heap; s_seen : gset loc }.

(** Computations over that state.  [None] stands for a run that did not
    finish within its fuel, or that followed a reference to nowhere;
    neither happens on a well-formed heap (see [sanitizeObject_total]). *)
Definition San_M (A : Type) : Type := SanState → option (A * SanState).

#[global] Instance San_ret : MRet San_M := λ A a st, Some (a, st).
#[global] Instance San_bind : MBind San_M := λ A B k m st,
  match m st with
  | Some (a, st') => k a st'
  | None => None
  end.
Definition fail {A} : San_M A := λ _, None.

Definition deref (l : loc) : San_M obj :=
  λ st, match s_heap st !! l with
        | Some o => Some (o, st)
        | None => None
        end.

(** [seen.has(value)] and [seen.add(value)]. *)
Definition seen_has (l : loc) : San_M bool :=
  λ st, Some (bool_decide (l ∈ s_seen st), st).
Definition seen_add (l : loc) : San_M unit :=
  λ st, Some (tt, San (s_heap st) ({[l]} ∪ s_seen st)).

(** A new object gets a location the heap does not use yet. *)
Definition alloc (o : obj) : San_M loc :=
  λ st, let l := fresh (dom (s_heap st)) in
        Some (l, San (<[l := o]> (s_heap st)) (s_seen st)).

(** [result[key] = v] on an ordinary object: an existing property keeps its
    place and attributes and takes the new value, a new one is appended,
    enumerable. *)
Fixpoint set_prop (k : key) (v : val) (ps : list prop) : list prop :=
  match ps with
  | [] => [Prop_ k true v]
  | p :: ps' =>
      if decide (pkey p = k) then Prop_ k (penum p) v :: ps'
      else p :: set_prop k v ps'
  end.

Definition assign_prop (r : loc) (k : key) (v : val) : San_M unit :=
  λ st, match s_heap st !! r with
        | Some (OObj ps) =>
            Some (tt, San (<[r := OObj (set_prop k v ps)]> (s_heap st)) (s_seen st))
        | _ => None
        end.

(** [Object.entries]: the own enumerable string-keyed properties, in
    order.  Symbol-keyed and non-enumerable properties are not listed. *)
Fixpoint Object_entries (ps : list prop) : list (string * val) :=
  match ps with
  | [] => []
  | p :: ps' =>
      match pkey p with
      | KStr s => if penum p then (s, pval p) :: Object_entries ps'
                  else Object_entries ps'
      | KSym _ => Object_entries ps'
      end
  end.

(** [Array.prototype.map] with an effectful callback, left to right. *)
Fixpoint Array_map {A B} (f : A → San_M B) (xs : list A) : San_M (list B) :=
  match xs with
  | [] => mret []
  | x :: xs' => y ← f x; ys ← Array_map f xs' ; mret (y :: ys)
  end.

(** The [for (const [key, val] of entries)] loop. *)
Fixpoint for_of {A} (f : A → San_M unit) (xs : list A) : San_M unit :=
  match xs with
  | [] => mret tt
  | x :: xs' => f x ;; for_of f xs'
  end.

Definition Circular : string := "[Circular]".

(** ** [sanitizeValue], the closure inside [sanitizeObject]

    The tests are in the order of the source: callable, [instanceof Error],
    then [typeof value === 'object' && value !== null] with the [seen]
    check, then everything else.  The recursion follows references, so it
    is not structural: it runs on fuel. *)
Fixpoint sanitizeValue (fuel : nat) (value : val) : San_M val :=
  match fuel with
  | 0 => fail
  | S fuel' =>
      match value with
      | VRef l =>
          o ← deref l;
          match o with
          | OFun src => mret (VStr src)
          | OErr name message stack =>
              r ← alloc (OObj [Prop_ (KStr "name") true (VStr name);
                               Prop_ (KStr "message") true (VStr message);
                               Prop_ (KStr "stack") true
                                 (from_option VStr VUndef stack)]);
              mret (VRef r)
          | OArr elems =>
              b ← seen_has l;
              if b : bool then mret (VStr Circular)
              else
                seen_add l ;;
                elems' ← Array_map (sanitizeValue fuel') elems;
                r ← alloc (OArr elems');
                mret (VRef r)
          | OObj props =>
              b ← seen_has l;
              if b : bool then mret (VStr Circular)
              else
                seen_add l ;;
                r ← alloc (OObj []);
                for_of (λ kv, v' ← sanitizeValue fuel' kv.2;
                             assign_prop r (KStr kv.1) v')
                      (Object_entries props) ;;
                mret (VRef r)
          end
      | _ => mret value
      end
  end.

(** [sanitizeObject]: a new, empty [seen] set for each top-level call.  No
    run on a well-formed heap needs more steps than the heap has objects. *)
Definition sanitizeObject (h : heap) (obj : val) : option (val * heap) :=
  match sanitizeValue (S (size (dom h))) obj (San h ∅) with
  | Some (v, st) => Some (v, s_heap st)
  | None => None
  end.

(** ** What a value stands for

    A value whose graph is finite and holds data only unfolds to a tree.
    Two values, in whatever heaps, are structurally equal when they unfold
    to the same tree. *)
#[warnings="-register-all"]
Inductive tree :=
  | TLeaf (v : val)
  | TArr (ts : list tree)
  | TObj (ps : list (key * bool * tree)).

Definition is_prim (v : val) : bool :=
  match v with VRef _ => false | _ => true end.

(** [repr h v t ls]: in heap [h] the value [v] unfolds to [t], and [ls]
    lists the locations met on the way, in order, once for every time they
    are met.  Callables and [Error] instances have no unfolding, and
    neither has a value that reaches a cycle. *)
Inductive repr (h : heap) : val → tree → list loc → Prop :=
  | repr_prim v :
      is_prim v = true → repr h v (TLeaf v) []
  | repr_arr l vs ts ls :
      h !! l = Some (OArr vs) → repr_list h vs ts ls →
      repr h (VRef l) (TArr ts) (l :: ls)
  | repr_obj l ps tps ls :
      h !! l = Some (OObj ps) → repr_props h ps tps ls →
      repr h (VRef l) (TObj tps) (l :: ls)
with repr_list (h : heap) : list val → list tree → list loc → Prop :=
  | repr_list_nil : repr_list h [] [] []
  | repr_list_cons v vs t ts ls1 ls2 :
      repr h v t ls1 → repr_list h vs ts ls2 →
      repr_list h (v :: vs) (t :: ts) (ls1 ++ ls2)
with repr_props (h : heap) : list prop → list (key * bool * tree) → list loc → Prop :=
  | repr_props_nil : repr_props h [] [] []
  | repr_props_cons p ps t tps ls1 ls2 :
      repr h (pval p) t ls1 → repr_props h ps tps ls2 →
      repr_props h (p :: ps) ((pkey p, penum p, t) :: tps) (ls1 ++ ls2).

Scheme repr_ind' := Induction for repr Sort Prop
  with repr_list_ind' := Induction for repr_list Sort Prop
  with repr_props_ind' := Induction for repr_props Sort Prop.
Combined Scheme repr_mutind from repr_ind', repr_list_ind', repr_props_ind'.


(** Every object of the tree has string keys only, all enumerable. *)
Definition is_str_key (k : key) : bool :=
  match k with KStr _ => true | KSym _ => false end.

Fixpoint plain (t : tree) : bool :=
  match t with
  | TLeaf _ => true
  | TArr ts => forallb plain ts
  | TObj ps => forallb (λ p, is_str_key p.1.1 && p.1.2 && plain p.2) ps
  end.

Definition plain_prop (p : key * bool * tree) : bool :=
  is_str_key p.1.1 && p.1.2 && plain p.2.

(** [set_prop] on the unfolding of an object. *)
Fixpoint set_tprop (k : key) (t : tree) (tps : list (key * bool * tree))
    : list (key * bool * tree) :=
  match tps with
  | [] => [(k, true, t)]
  | p :: tps' =>
      if decide (p.1.1 = k) then (k, p.1.2, t) :: tps'
      else p :: set_tprop k t tps'
  end.

(** The object graph, for stating the absence of cycles outright. *)
Definition val_loc (v : val) : option loc :=
  match v with VRef l => Some l | _ => None end.

Definition refs_of (o : obj) : list loc :=
  match o with
  | OArr vs => omap val_loc vs
  | OObj ps => omap (λ p, val_loc (pval p)) ps
  | _ => []
  end.

Definition points_to (h : heap) (l l' : loc) : Prop :=
  ∃ o, h !! l = Some o ∧ l' ∈ refs_of o.

Definition reachable (h : heap) (v : val) (l : loc) : Prop :=
  ∃ l0, v = VRef l0 ∧ rtc (points_to h) l0 l.


Definition is_container (o : obj) : bool :=
  match o with OArr _ | OObj _ => true | _ => false end.


(** ** Well-formed heaps: no reference leads nowhere, and an object has
    each of its keys once. *)
Definition val_closed (h : heap) (v : val) : Prop :=
  match v with VRef l => is_Some (h !! l) | _ => True end.

Definition obj_wf (h : heap) (o : obj) : Prop :=
  match o with
  | OArr vs => Forall (val_closed h) vs
  | OObj ps => Forall (λ p, val_closed h (pval p)) ps ∧ NoDup (pkey <$> ps)
  | _ => True
  end.

Definition heap_wf (h : heap) : Prop :=
  map_Forall (λ _ o, obj_wf h o) h.

#[global] Instance val_closed_dec h v : Decision (val_closed h v).
Proof. destruct v; simpl; apply _. Defined.
#[global] Instance obj_wf_dec h o : Decision (obj_wf h o).
Proof. destruct o; simpl; apply _. Defined.
#[global] Instance heap_wf_dec h : Decision (heap_wf h).
Proof. unfold heap_wf. apply _. Defined.

(** ** What a run of the sanitizer keeps

    These say how a state of the sanitizer relates to the heap [h0] the
    top-level call was given. *)

(** [frame st st']: the run from [st] to [st'] left every object that
    existed in [st] as it was. *)
Definition frame (st st' : SanState) : Prop :=
  ∀ l, l ∈ dom (s_heap st) → s_heap st' !! l = s_heap st !! l.

(** Objects of the input not visited yet: what the run still has to do. *)
Definition unvisited (h0 : heap) (st : SanState) : nat := size (dom h0 ∖ s_seen st).

(** The input objects are never written to, and only they are ever put in
    [seen]. *)
Definition inv (h0 : heap) (st : SanState) : Prop :=
  h0 ⊆ s_heap st ∧ s_seen st ⊆ dom h0.

(** After a run: the result unfolds to a tree of new objects. *)
Definition sanitize_post (h0 : heap) (st : SanState) (v' : val) (st' : SanState)
    : Prop :=
  inv h0 st' ∧ frame st st' ∧ s_seen st ⊆ s_seen st' ∧
  ∃ t ls, repr (s_heap st') v' t ls ∧
          Forall (λ l, l ∉ dom (s_heap st)) ls ∧ plain t = true.

(** After a run on data without sharing: the result unfolds to the tree of
    the argument, and exactly the objects of the argument joined [seen]. *)
Definition tree_post (h0 : heap) (st : SanState) (t : tree) (ls : list loc)
    (v' : val) (st' : SanState) : Prop :=
  inv h0 st' ∧ frame st st' ∧ s_seen st' = s_seen st ∪ list_to_set ls ∧
  ∃ ls', repr (s_heap st') v' t ls' ∧ Forall (λ l, l ∉ dom (s_heap st)) ls'.

(** Two runs ended in the same [seen] and with results that unfold to the
    same tree, each over objects new to its own run. *)
Definition same_result (st1 st2 : SanState)
    (v1 : val) (st1' : SanState) (v2 : val) (st2' : SanState) : Prop :=
  s_seen st1' = s_seen st2' ∧
  ∃ t ls1 ls2,
    repr (s_heap st1') v1 t ls1 ∧ repr (s_heap st2') v2 t ls2 ∧
    Forall (λ l, l ∉ dom (s_heap st1)) ls1 ∧
    Forall (λ l, l ∉ dom (s_heap st2)) ls2.

Definition wf_post (st : SanState) (st' : SanState) : Prop :=
  heap_wf (s_heap st') ∧ dom (s_heap st) ⊆ dom (s_heap st').

(** * The Logger *)

(** ** Strings as the code uses them *)

Definition newline : ascii := "010"%char.

(** [s.replace(/\n/g, ' ')] *)
Fixpoint replace_newlines (s : string) : string :=
  match s with
  | EmptyString => EmptyString
  | String c s' =>
      String (if Ascii.eqb c newline then " "%char else c) (replace_newlines s')
  end.

(** [toLowerCase] where it matters here: on the twenty-six capitals of
    ASCII.  A string with a character outside ASCII does not lower to
    [error], [warn], [info] or [debug], so comparing with these four names
    gives the same as in the language. *)
Definition lower_ascii (c : ascii) : ascii :=
  let n := nat_of_ascii c in
  if (65 <=? n) && (n <=? 90) then ascii_of_nat (n + 32) else c.

Fixpoint toLowerCase (s : string) : string :=
  match s with
  | EmptyString => EmptyString
  | String c s' => String (lower_ascii c) (toLowerCase s')
  end.

Fixpoint starts_with (p s : string) : bool :=
  match p, s with
  | EmptyString, _ => true
  | String a p', String b s' => Ascii.eqb a b && starts_with p' s'
  | String _ _, EmptyString => false
  end.

(** [hay.includes(needle)] *)
Fixpoint includes (needle hay : string) : bool :=
  starts_with needle hay ||
  match hay with
  | EmptyString => false
  | String _ hay' => includes needle hay'
  end.

(** [s.split('\n')] *)
Fixpoint split_lines (s : string) : list string :=
  match s with
  | EmptyString => [EmptyString]
  | String c s' =>
      if Ascii.eqb c newline then EmptyString :: split_lines s'
      else match split_lines s' with
           | l :: ls => String c l :: ls
           | [] => [String c EmptyString]
           end
  end.

(** The class [[\w.]] of the caller pattern. *)
Definition is_name_char (c : ascii) : bool :=
  let n := nat_of_ascii c in
  ((48 <=? n) && (n <=? 57)) || ((65 <=? n) && (n <=? 90)) ||
  ((97 <=? n) && (n <=? 122)) || (n =? 95) || (n =? 46).

Fixpoint take_name (s : string) : string :=
  match s with
  | String c s' => if is_name_char c then String c (take_name s') else EmptyString
  | EmptyString => EmptyString
  end.

Definition drop3 (s : string) : string :=
  match s with
  | String _ (String _ (String _ s')) => s'
  | _ => EmptyString
  end.

(** [caller.match(/at ([\w.]+)/)], the captured group: the leftmost place
    where [at ] is followed by a name, and the longest name there. *)
Fixpoint match_at (s : string) : option string :=
  match s with
  | EmptyString => None
  | String _ s' =>
      if starts_with "at " s then
        match take_name (drop3 s) with
        | EmptyString => match_at s'
        | name => Some name
        end
      else match_at s'
  end.

(** [parts[parts.length - 1]] of [fullName.split('.')]: what follows the
    last dot. *)
Fixpoint last_part_from (acc s : string) : string :=
  match s with
  | EmptyString => acc
  | String c s' =>
      if Ascii.eqb c "."%char then last_part_from EmptyString s'
      else last_part_from (acc +:+ String c EmptyString) s'
  end.
Definition last_part (s : string) : string := last_part_from EmptyString s.

(** ** Severity *)

Inductive LogLevel := ERROR | WARN | INFO | DEBUG.

#[global] Instance LogLevel_eq_dec : EqDecision LogLevel.
Proof. solve_decision. Defined.

(** The numeric value of the enum member. *)
Definition rank (l : LogLevel) : Z :=
  match l with ERROR => 0 | WARN => 1 | INFO => 2 | DEBUG => 3 end.

(** [LogLevel[level]], the reverse mapping of the enum. *)
Definition LogLevel_name (l : LogLevel) : string :=
  match l with
  | ERROR => "ERROR" | WARN => "WARN" | INFO => "INFO" | DEBUG => "DEBUG"
  end.

(** [a >= b] on enum members. *)
Definition level_ge (a b : LogLevel) : bool := (rank b <=? rank a)%Z.
Definition level_le (a b : LogLevel) : bool := (rank a <=? rank b)%Z.

Definition parseLogLevel (logLevel : option string) : LogLevel :=
  match toLowerCase <$> logLevel with
  | Some s =>
      if String.eqb s "error" then ERROR
      else if String.eqb s "warn" then WARN
      else if String.eqb s "info" then INFO
      else if String.eqb s "debug" then DEBUG
      else INFO
  | None => INFO
  end.

(** ** The world a logger runs in

    The heap, the two console streams (each call of [console.log] or
    [console.error] with its argument), the environment variable, and what
    the runtime hands to the call at hand: the clock reading as
    [toISOString] prints it, and the [stack] of a new [Error]. *)
Record World := mkWorld {
  w_heap : heap;
  w_stdout : list val;
  w_stderr : list val;
  w_LOG_LEVEL : option string;
  w_now : string;
  w_stack : option string
}.

Definition set_heap (h : heap) (w : World) : World :=
  mkWorld h (w_stdout w) (w_stderr w) (w_LOG_LEVEL w) (w_now w) (w_stack w).
Definition set_LOG_LEVEL (e : option string) (w : World) : World :=
  mkWorld (w_heap w) (w_stdout w) (w_stderr w) e (w_now w) (w_stack w).
Definition console_log (out : val) (w : World) : World :=
  mkWorld (w_heap w) (w_stdout w ++ [out]) (w_stderr w) (w_LOG_LEVEL w)
          (w_now w) (w_stack w).
Definition console_error (out : val) (w : World) : World :=
  mkWorld (w_heap w) (w_stdout w) (w_stderr w ++ [out]) (w_LOG_LEVEL w)
          (w_now w) (w_stack w).

(** A bound log method: what calling it with a message does to the world.
    [None] is an exception that reaches the caller. *)
Definition LogMethod : Type := val → World → option World.

(** [getCallerInfo]: the frames from index 4 on, the first that is not
    empty and matches. *)
Fixpoint first_caller (frames : list string) : string :=
  match frames with
  | [] => "unknown"
  | caller :: rest =>
      match caller with
      | EmptyString => first_caller rest
      | _ => match match_at caller with
             | Some fullName => last_part fullName
             | None => first_caller rest
             end
      end
  end.

Definition getCallerInfo (w : World) : string :=
  match w_stack w with
  | Some stack => first_caller (drop 4 (split_lines stack))
  | None => "unknown"
  end.

Definition get_prop (k : key) (ps : list prop) : option val :=
  pval <$> List.find (λ p, bool_decide (pkey p = k)) ps.

(** The own enumerable properties [Object.assign] copies from a source. *)
Definition own_enumerable (h : heap) (source : val) : list (key * val) :=
  match source with
  | VRef l =>
      match h !! l with
      | Some (OObj ps) => (λ p, (pkey p, pval p)) <$> filter (λ p, penum p = true) ps
      | Some (OArr vs) => imap (λ i v, (KStr (pretty i), v)) vs
      | _ => []
      end
  | VStr s =>
      imap (λ i c, (KStr (pretty i), VStr (String c EmptyString)))
           (list_ascii_of_string s)
  | _ => []
  end.

(** Each of them is assigned in turn, as by [target[key] = value]. *)
Definition assign_all (ps : list prop) (kvs : list (key * val)) : list prop :=
  foldl (λ acc kv, set_prop kv.1 kv.2 acc) ps kvs.

(** [Object.assign(target, source)] on an ordinary target object. *)
Definition Object_assign (h : heap) (target : loc) (source : val) : option heap :=
  match h !! target with
  | Some (OObj ps) =>
      Some (<[target := OObj (assign_all ps (own_enumerable h source))]> h)
  | _ => None
  end.

Definition heap_alloc (h : heap) (o : obj) : loc * heap :=
  let l := fresh (dom h) in (l, <[l := o]> h).

(** [JSON.stringify] is the runtime's.  It throws ([None]), or returns a
    string or, for what has no JSON text, [undefined]. *)
Class Runtime := { JSON_stringify : heap → val → option (option string) }.

Section logger.
Context `{Runtime}.

(** A string or [undefined], as a value. *)
Definition text_val (t : option string) : val := from_option VStr VUndef t.

(** The five fields every record starts with. *)
Definition envelope (microservice level : string) (message : val) (w : World)
    : list prop :=
  [Prop_ (KStr "timestamp") true (VStr (w_now w));
   Prop_ (KStr "level") true (VStr level);
   Prop_ (KStr "message") true message;
   Prop_ (KStr "microservice") true (VStr microservice);
   Prop_ (KStr "caller") true (VStr (getCallerInfo w))].

Definition formatMessage (microservice level : string) (message : val)
    (w : World) : option (loc * World) :=
  match message with
  | VStr _ =>
      let '(r, h1) := heap_alloc (w_heap w) (OObj (envelope microservice level message w)) in
      Some (r, set_heap h1 w)
  | _ =>
      '(sv, h1) ← sanitizeObject (w_heap w) message;
      text ← JSON_stringify h1 sv;
      let '(r, h2) :=
        heap_alloc h1 (OObj (envelope microservice level (text_val text) w)) in
      '(sv', h3) ← sanitizeObject h2 message;
      h4 ← Object_assign h3 r sv';
      Some (r, set_heap h4 w)
  end.

Definition createLogMethod (microservice : string) (level : LogLevel) : LogMethod :=
  λ message w,
    '(logMessage, w1) ← formatMessage microservice (LogLevel_name level) message w;
    output ← JSON_stringify (w_heap w1) (VRef logMessage);
    Some (if level_le level ERROR then console_error (text_val output) w1
          else console_log (text_val output) w1).

Definition noOp : LogMethod := λ _ w, Some w.

Record Logger := mkLogger {
  logLevel : LogLevel;
  microservice : string;
  error : LogMethod;
  warn : LogMethod;
  info : LogMethod;
  debug : LogMethod
}.

(** [new Logger(microservice)], reading [process.env.LOG_LEVEL]. *)
Definition constructor (microservice : string) (w : World) : Logger :=
  let logLevel := parseLogLevel (w_LOG_LEVEL w) in
  mkLogger logLevel microservice
    (if level_ge logLevel ERROR then createLogMethod microservice ERROR else noOp)
    (if level_ge logLevel WARN then createLogMethod microservice WARN else noOp)
    (if level_ge logLevel INFO then createLogMethod microservice INFO else noOp)
    (if level_ge logLevel DEBUG then createLogMethod microservice DEBUG else noOp).

(** The method of a logger for a severity. *)
Definition method_for (this : Logger) (S : LogLevel) : LogMethod :=
  match S with
  | ERROR => error this | WARN => warn this
  | INFO => info this | DEBUG => debug this
  end.

(** [JSON.stringify(this.sanitizeObject(error))], used as a string:
    [replace] on [undefined] throws. *)
Definition stringify_sanitized (error : val) (w : World)
    : option (string * World) :=
  '(sv, h1) ← sanitizeObject (w_heap w) error;
  text ← JSON_stringify h1 sv;
  match text with
  | Some s => Some (s, set_heap h1 w)
  | None => None
  end.

(** The string [logComplexError] starts from, before the newlines go. *)
Definition complexErrorText (error : val) (w : World) : option (string * World) :=
  match error with
  | VRef l =>
      match w_heap w !! l with
      | Some (OErr name message stack) =>
          Some (name +:+ ": " +:+ message +:+ String newline EmptyString
                     +:+ default "undefined" stack, w)
      | _ => stringify_sanitized error w
      end
  | _ => stringify_sanitized error w
  end.

Definition logComplexError (this : Logger) (error_ : val) (w : World)
    : option World :=
  if level_ge (logLevel this) ERROR then
    '(errorMessage, w1) ← complexErrorText error_ w;
    let errorMessage := replace_newlines errorMessage in
    let '(r, h2) := heap_alloc (w_heap w1)
                      (OObj [Prop_ (KStr "complexError") true (VStr errorMessage)]) in
    error this (VRef r) (set_heap h2 w1)
  else Some w.
End logger.

(** ** A serializer to run the logger with

    In the manner of [JSON.stringify] without indentation: properties
    whose value has no JSON text are left out, such array elements read
    [null], a bigint and a cycle throw.  The theorems below hold for any
    serializer; this one makes the examples run. *)
Definition dquote : ascii := "034"%char.
Definition backslash : ascii := "092"%char.

Definition hex_digit (n : nat) : ascii :=
  ascii_of_nat (if n <? 10 then 48 + n else 87 + n).

Definition json_escape_char (c : ascii) : string :=
  let n := nat_of_ascii c in
  if n =? 34 then String backslash (String dquote EmptyString)
  else if n =? 92 then String backslash (String backslash EmptyString)
  else if n =? 8 then String backslash "b"
  else if n =? 9 then String backslash "t"
  else if n =? 10 then String backslash "n"
  else if n =? 12 then String backslash "f"
  else if n =? 13 then String backslash "r"
  else if n <? 32 then
    String backslash
      ("u00" +:+ String (hex_digit (n / 16)) (String (hex_digit (n mod 16)) EmptyString))
  else String c EmptyString.

Fixpoint json_escape (s : string) : string :=
  match s with
  | EmptyString => EmptyString
  | String c s' => json_escape_char c +:+ json_escape s'
  end.

Definition json_quote (s : string) : string :=
  String dquote (json_escape s +:+ String dquote EmptyString).

Fixpoint json_elems (f : val → option (option string)) (vs : list val)
    : option (list string) :=
  match vs with
  | [] => Some []
  | v :: vs' =>
      t ← f v; ts ← json_elems f vs'; Some (default "null" t :: ts)
  end.

Fixpoint json_members (f : val → option (option string)) (ps : list prop)
    : option (list string) :=
  match ps with
  | [] => Some []
  | p :: ps' =>
      match pkey p, penum p with
      | KStr k, true =>
          t ← f (pval p); ms ← json_members f ps';
          Some (match t with
                | Some s => (json_quote k +:+ ":" +:+ s) :: ms
                | None => ms
                end)
      | _, _ => json_members f ps'
      end
  end.

Fixpoint json_text (fuel : nat) (h : heap) (v : val) : option (option string) :=
  match fuel with
  | 0 => None
  | S fuel' =>
      match v with
      | VUndef | VSymbol _ => Some None
      | VNull => Some (Some "null")
      | VBool b => Some (Some (if b then "true" else "false"))
      | VNum n => Some (Some (pretty n))
      | VStr s => Some (Some (json_quote s))
      | VBigInt _ => None
      | VRef l =>
          match h !! l with
          | Some (OFun _) => Some None
          | Some (OErr _ _ _) => Some (Some "{}")
          | Some (OArr vs) =>
              ts ← json_elems (json_text fuel' h) vs;
              Some (Some ("[" +:+ String.concat "," ts +:+ "]"))
          | Some (OObj ps) =>
              ms ← json_members (json_text fuel' h) ps;
              Some (Some ("{" +:+ String.concat "," ms +:+ "}"))
          | None => None
          end
      end
  end.

Definition json_stringify (h : heap) (v : val) : option (option string) :=
  json_text (S (size (dom h))) h v.

Definition reference_runtime : Runtime := {| JSON_stringify := json_stringify |}.

Definition w_example : World :=
  mkWorld {[ 1 := OObj [Prop_ (KStr "code") true (VNum 42)] ]} [] []
          (Some "info") "2024-01-01T00:00:00.000Z"
          (Some ("Error" +:+ String newline "    at getCallerInfo (logger.js:51:19)"
                 +:+ String newline "    at formatMessage (logger.js:74:20)"
                 +:+ String newline "    at Logger.error (logger.js:119:31)"
                 +:+ String newline "    at Object.handleRequest (app.js:10:5)"
                 +:+ String newline "    at main (app.js:20:1)")).

(** ** Auxiliary notions for the statements *)

(** A record whose properties are enumerable, string-keyed and hold
    primitives. *)
Definition flat (ps : list prop) : Prop :=
  Forall (λ p, is_prim (pval p) = true ∧ penum p = true
               ∧ is_str_key (pkey p) = true) ps.

Definition on_snd {A} (f : World → World) (p : A * World) : A * World :=
  (p.1, f p.2).

Definition w_empty : World := mkWorld ∅ [] [] None "" None.

(** ** Data for the examples *)

(** An object with a self-reference, a callable, an [Error], a symbol key,
    a non-enumerable property and an array that leads back to the object. *)
Definition h_mixed : heap :=
  {[ 1 := OObj [Prop_ (KStr "a") true (VNum 1);
                Prop_ (KStr "self") true (VRef 1);
                Prop_ (KStr "f") true (VRef 2);
                Prop_ (KStr "e") true (VRef 3);
                Prop_ (KSym 0) true (VStr "by symbol");
                Prop_ (KStr "hidden") false (VNum 7);
                Prop_ (KStr "list") true (VRef 4)];
     2 := OFun "() => 1";
     3 := OErr "Error" "boom" (Some "Error: boom at f (x.js:1:1)");
     4 := OArr [VRef 1; VNull] ]}.

(** [{a: s, b: s}] with [s = {}]: no cycle, one object reached twice. *)
Definition h_dag : heap :=
  {[ 1 := OObj [Prop_ (KStr "a") true (VRef 2); Prop_ (KStr "b") true (VRef 2)];
     2 := OObj [] ]}.


(** [{a: 1, self: <itself>}] *)
Definition h_self : heap :=
  {[ 5 := OObj [Prop_ (KStr "a") true (VNum 1); Prop_ (KStr "self") true (VRef 5)] ]}.



Definition h_err : heap :=
  {[ 3 := OErr "Error" "boom" (Some "Error: boom at f (x.js:1:1)") ]}.

Definition multiline_message : string := "line one" +:+ String newline "line two".

Definition w_multiline : World :=
  mkWorld {[ 1 := OErr "Error" multiline_message
                    (Some ("Error: " +:+ multiline_message
                           +:+ String newline "    at f (x.js:1:1)")) ]}
          [] [] None "2024-01-01T00:00:00.000Z" None.

(** * Notions for further properties *)

(** ** One level of a copy

    [copied h self h' v v']: what the sanitizer, at work on the array or
    object [self] of the heap [h], makes of the element or property value
    [v], with [h'] the heap when it is done.  A primitive is kept, a
    callable becomes its text, an [Error] becomes a record of its own, a
    reference back to [self] becomes ["[Circular]"], and any other array or
    object becomes a new object, or ["[Circular]"] when it was met
    before. *)
Definition copied (h : heap) (self : loc) (h' : heap) (v v' : val) : Prop :=
  match v with
  | VRef l =>
      match h !! l with
      | Some (OFun src) => v' = VStr src
      | Some (OErr name message stack) =>
          ∃ r, v' = VRef r ∧ (r ∉ dom h) ∧
               h' !! r = Some (OObj [Prop_ (KStr "name") true (VStr name);
                                     Prop_ (KStr "message") true (VStr message);
                                     Prop_ (KStr "stack") true
                                       (from_option VStr VUndef stack)])
      | Some (OArr _) | Some (OObj _) =>
          if decide (l = self) then v' = VStr Circular
          else v' = VStr Circular ∨ ∃ r, v' = VRef r ∧ (r ∉ dom h)
      | None => False
      end
  | _ => v' = v
  end.


(** ** The caller's name *)

(** The class [\w]: a character of a name that is not the dot. *)
Definition is_word_char (c : ascii) : bool :=
  is_name_char c && negb (Ascii.eqb c "."%char).

(** All characters of a string pass a test. *)
Definition all_chars (P : ascii → bool) (s : string) : bool :=
  forallb P (list_ascii_of_string s).



(** ** The record and the console *)

(** The keys of the envelope, in the order of the source. *)
Definition envelope_keys : list key :=
  [KStr "timestamp"; KStr "level"; KStr "message"; KStr "microservice";
   KStr "caller"].

(** A call left the environment and the clock alone and wrote one more
    argument at the end of one console stream, nothing to the other. *)
Definition same_env (w w' : World) : Prop :=
  w_LOG_LEVEL w' = w_LOG_LEVEL w ∧ w_now w' = w_now w ∧ w_stack w' = w_stack w.

Definition wrote_stdout (w w' : World) (out : val) : Prop :=
  same_env w w' ∧ w_stdout w' = w_stdout w ++ [out] ∧ w_stderr w' = w_stderr w.

Definition wrote_stderr (w w' : World) (out : val) : Prop :=
  same_env w w' ∧ w_stdout w' = w_stdout w ∧ w_stderr w' = w_stderr w ++ [out].

(** ** More data for examples *)

(** A stack of two lines, as seen from a call with no frame above the
    logger's own. *)
Definition w_short_stack : World :=
  mkWorld ∅ [] [] None "2024-01-01T00:00:00.000Z"
          (Some ("Error" +:+ String newline "    at getCallerInfo (logger.js:51:19)")).


(** * Properties of the unfolding *)

Lemma repr_mut_dom h :
  (∀ v t ls, repr h v t ls → Forall (λ l, l ∈ dom h) ls) ∧
  (∀ vs ts ls, repr_list h vs ts ls → Forall (λ l, l ∈ dom h) ls) ∧
  (∀ ps tps ls, repr_props h ps tps ls → Forall (λ l, l ∈ dom h) ls).
Proof.
  apply repr_mutind; intros; try constructor; try done;
    try (apply elem_of_dom; eauto); by apply Forall_app.
Qed.

Lemma repr_dom h v t ls : repr h v t ls → Forall (λ l, l ∈ dom h) ls.
Proof. apply repr_mut_dom. Qed.
Lemma repr_list_dom h vs ts ls : repr_list h vs ts ls → Forall (λ l, l ∈ dom h) ls.
Proof. apply repr_mut_dom. Qed.
Lemma repr_props_dom h ps tps ls : repr_props h ps tps ls → Forall (λ l, l ∈ dom h) ls.
Proof. apply repr_mut_dom. Qed.

(** An unfolding only reads the locations it lists. *)
Lemma repr_mut_frame h h' :
  (∀ v t ls, repr h v t ls →
     Forall (λ l, h' !! l = h !! l) ls → repr h' v t ls) ∧
  (∀ vs ts ls, repr_list h vs ts ls →
     Forall (λ l, h' !! l = h !! l) ls → repr_list h' vs ts ls) ∧
  (∀ ps tps ls, repr_props h ps tps ls →
     Forall (λ l, h' !! l = h !! l) ls → repr_props h' ps tps ls).
Proof.
  apply repr_mutind; intros.
  - by constructor.
  - inversion H0; subst. eapply repr_arr; [by etrans|]. auto.
  - inversion H0; subst. eapply repr_obj; [by etrans|]. auto.
  - constructor.
  - apply Forall_app in H1 as [??]. constructor; auto.
  - constructor.
  - apply Forall_app in H1 as [??]. constructor; auto.
Qed.

Lemma repr_frame h h' v t ls :
  repr h v t ls → Forall (λ l, h' !! l = h !! l) ls → repr h' v t ls.
Proof. apply repr_mut_frame. Qed.
Lemma repr_list_frame h h' vs ts ls :
  repr_list h vs ts ls → Forall (λ l, h' !! l = h !! l) ls → repr_list h' vs ts ls.
Proof. apply repr_mut_frame. Qed.
Lemma repr_props_frame h h' ps tps ls :
  repr_props h ps tps ls → Forall (λ l, h' !! l = h !! l) ls → repr_props h' ps tps ls.
Proof. apply repr_mut_frame. Qed.

(** An object whose properties all hold primitives unfolds to itself. *)
Lemma repr_props_prims h ps :
  Forall (λ p, is_prim (pval p) = true) ps →
  repr_props h ps ((λ p, (pkey p, penum p, TLeaf (pval p))) <$> ps) [].
Proof.
  induction 1 as [|p ps Hp _ IH]; [constructor|].
  apply (repr_props_cons h p ps (TLeaf (pval p)) _ [] []); [by constructor|done].
Qed.

(** Writing one property into an object that unfolds gives an object that
    unfolds, over locations that were there before. *)
Lemma repr_props_set_prop h ps tps ls k v t lv :
  repr_props h ps tps ls → repr h v t lv →
  ∃ tps' ls', repr_props h (set_prop k v ps) tps' ls' ∧
    Forall (λ l, l ∈ ls ∨ l ∈ lv) ls' ∧
    (forallb plain_prop tps = true → is_str_key k = true → plain t = true →
     forallb plain_prop tps' = true).
Proof.
  intros Hps Hv. induction Hps as [|p ps t0 tps ls1 ls2 Hp Hps IH]; simpl.
  - exists [(k, true, t)], (lv ++ []). split_and!.
    + apply (repr_props_cons h (Prop_ k true v) [] t [] lv []); [done|constructor].
    + rewrite app_nil_r. apply Forall_forall. auto.
    + intros _ Hk Ht. simpl. unfold plain_prop; simpl. by rewrite Hk, Ht.
  - destruct (decide (pkey p = k)) as [<-|Hne].
    + exists ((pkey p, penum p, t) :: tps), (lv ++ ls2). split_and!.
      * by apply (repr_props_cons h (Prop_ (pkey p) (penum p) v) ps t tps lv ls2).
      * apply Forall_forall. intros l [?|?]%elem_of_app; [by right|].
        left. apply elem_of_app. by right.
      * simpl. unfold plain_prop at 1 3; simpl.
        intros [[[Hk He]%andb_prop _]%andb_prop Hrest]%andb_prop _ Ht.
        by rewrite Hk, He, Ht, Hrest.
    + destruct IH as (tps' & ls' & Hr' & Hls' & Hpl').
      exists ((pkey p, penum p, t0) :: tps'), (ls1 ++ ls'). split_and!.
      * by constructor.
      * apply Forall_app. split.
        -- apply Forall_forall. intros l Hl. left. apply elem_of_app. by left.
        -- eapply Forall_impl; [done|]. intros l [Hl|Hl]; [left|by right].
           apply elem_of_app. by right.
      * simpl. intros [H1 H2]%andb_prop Hk Ht. rewrite H1. simpl. by apply Hpl'.
Qed.

(** * The sanitizer on a well-formed heap *)

Lemma San_bind_Some {A B} (m : San_M A) (k : A → San_M B) st a st' :
  m st = Some (a, st') → (m ≫= k) st = k a st'.
Proof. intros H. unfold mbind, San_bind. by rewrite H. Qed.

Lemma San_bind_inv {A B} (m : San_M A) (k : A → San_M B) st r :
  (m ≫= k) st = Some r → ∃ a st', m st = Some (a, st') ∧ k a st' = Some r.
Proof.
  unfold mbind, San_bind. destruct (m st) as [[a st']|]; [|done]. eauto.
Qed.

Lemma frame_refl st : frame st st.
Proof. by intros l _. Qed.

Lemma frame_dom st st' : frame st st' → dom (s_heap st) ⊆ dom (s_heap st').
Proof.
  intros Hf l Hl. apply elem_of_dom. rewrite (Hf l Hl). by apply elem_of_dom.
Qed.

Lemma frame_trans st1 st2 st3 : frame st1 st2 → frame st2 st3 → frame st1 st3.
Proof.
  intros H12 H23 l Hl. rewrite H23; [by apply H12|]. by apply (frame_dom _ _ H12).
Qed.

Lemma fresh_not_in_dom (h : heap) : h !! fresh (dom h) = None.
Proof. apply not_elem_of_dom, is_fresh. Qed.

Lemma frame_alloc h s o :
  frame (San h s) (San (<[fresh (dom h) := o]> h) s).
Proof.
  intros l Hl. simpl in *. apply lookup_insert_ne. intros <-.
  by apply is_fresh in Hl.
Qed.

Section sanitize_spec.
Variable h0 : heap.

Lemma unvisited_mono st st' : s_seen st ⊆ s_seen st' → unvisited h0 st' ≤ unvisited h0 st.
Proof. intros H. unfold unvisited. apply subseteq_size. set_solver. Qed.

Lemma unvisited_visit h s l :
  l ∈ dom h0 → l ∉ s → unvisited h0 (San h ({[l]} ∪ s)) < unvisited h0 (San h s).
Proof.
  intros Hl Hs. unfold unvisited; simpl. apply subset_size.
  apply strict_spec_alt. split; [set_solver|].
  intros Heq. assert (l ∈ dom h0 ∖ s) as Hin by set_solver.
  rewrite <- Heq in Hin. set_solver.
Qed.

Lemma inv_frame st st' :
  inv h0 st → frame st st' → s_seen st' ⊆ dom h0 → inv h0 st'.
Proof.
  intros [Hsub Hs] Hf Hs'. split; [|done].
  apply map_subseteq_spec. intros l o Hl.
  rewrite Hf; [by eapply lookup_weaken|].
  apply elem_of_dom. exists o. by eapply lookup_weaken.
Qed.

Lemma sanitize_post_prim st v :
  inv h0 st → is_prim v = true → sanitize_post h0 st v st.
Proof.
  intros Hinv Hp. split_and!; [done|apply frame_refl|done|].
  exists (TLeaf v), []. split_and!; [by constructor|constructor|done].
Qed.

Hypothesis Hwf : heap_wf h0.

Section with_fuel.
Variable fuel : nat.
Hypothesis IH : ∀ v st,
  inv h0 st → val_closed h0 v → unvisited h0 st < fuel →
  ∃ v' st', sanitizeValue fuel v st = Some (v', st') ∧ sanitize_post h0 st v' st'.

Lemma Array_map_spec vs : ∀ st,
  inv h0 st → Forall (val_closed h0) vs → unvisited h0 st < fuel →
  ∃ vs' st', Array_map (sanitizeValue fuel) vs st = Some (vs', st') ∧
    inv h0 st' ∧ frame st st' ∧ s_seen st ⊆ s_seen st' ∧
    ∃ ts ls, repr_list (s_heap st') vs' ts ls ∧
             Forall (λ l, l ∉ dom (s_heap st)) ls ∧ forallb plain ts = true.
Proof.
  induction vs as [|v vs IHvs]; intros st Hinv Hcl Hfuel.
  - exists [], st. split_and!; [done|done|apply frame_refl|done|].
    exists [], []. split_and!; [constructor|constructor|done].
  - inversion Hcl as [|?? Hv Hvs]; subst.
    destruct (IH v st Hinv Hv Hfuel) as (v' & st1 & Hrun & Hinv1 & Hf1 & Hs1 & t & ls1 & Hr1 & Hfr1 & Hp1).
    destruct (IHvs st1 Hinv1 Hvs) as (vs' & st2 & Hrun2 & Hinv2 & Hf2 & Hs2 & ts & ls2 & Hr2 & Hfr2 & Hp2).
    { pose proof (unvisited_mono _ _ Hs1). lia. }
    exists (v' :: vs'), st2. split_and!.
    + simpl. rewrite (San_bind_Some _ _ _ _ _ Hrun).
      by rewrite (San_bind_Some _ _ _ _ _ Hrun2).
    + done.
    + by eapply frame_trans.
    + set_solver.
    + exists (t :: ts), (ls1 ++ ls2). split_and!.
      * constructor; [|done]. eapply repr_frame; [done|].
        eapply Forall_impl; [by eapply repr_dom|]. intros l Hl. by apply Hf2.
      * apply Forall_app. split; [done|].
        eapply Forall_impl; [done|]. intros l Hl Hin. apply Hl.
        by apply (frame_dom _ _ Hf1).
      * simpl. by rewrite Hp1, Hp2.
Qed.

Lemma entries_spec r es : ∀ st ps tps ls,
  inv h0 st → Forall (λ kv : string * val, val_closed h0 kv.2) es →
  unvisited h0 st < fuel → r ∉ dom h0 →
  s_heap st !! r = Some (OObj ps) →
  repr_props (s_heap st) ps tps ls → r ∉ ls →
  forallb plain_prop tps = true →
  ∃ st' ps' tps' ls',
    for_of (λ kv, v' ← sanitizeValue fuel kv.2; assign_prop r (KStr kv.1) v')
          es st = Some (tt, st') ∧
    inv h0 st' ∧
    (∀ l, l ∈ dom (s_heap st) → l ≠ r → s_heap st' !! l = s_heap st !! l) ∧
    s_seen st ⊆ s_seen st' ∧
    s_heap st' !! r = Some (OObj ps') ∧
    repr_props (s_heap st') ps' tps' ls' ∧
    Forall (λ l, l ∈ ls ∨ l ∉ dom (s_heap st)) ls' ∧
    forallb plain_prop tps' = true.
Proof.
  induction es as [|[k v] es IHes];
    intros st ps tps ls Hinv Hcl Hfuel Hr0 Hr Hps Hrls Hpl.
  - exists st, ps, tps, ls. split_and!; try done.
    apply Forall_forall. auto.
  - inversion Hcl as [|?? Hv Hes]; subst. simpl in Hv.
    destruct (IH v st Hinv Hv Hfuel)
      as (v' & st1 & Hrun & Hinv1 & Hf1 & Hs1 & t & lv & Hrv & Hfrv & Hpv).
    assert (r ∈ dom (s_heap st)) as Hrdom by (apply elem_of_dom; eauto).
    assert (s_heap st1 !! r = Some (OObj ps)) as Hr1 by (by rewrite Hf1).
    assert (repr_props (s_heap st1) ps tps ls) as Hps1.
    { eapply repr_props_frame; [done|].
      eapply Forall_impl; [by eapply repr_props_dom|]. intros l Hl. by apply Hf1. }
    destruct (repr_props_set_prop _ _ _ _ (KStr k) _ _ _ Hps1 Hrv)
      as (tps2 & ls2 & Hps2 & Hls2 & Hpl2).
    assert (r ∉ ls2) as Hrls2.
    { intros Hin. rewrite Forall_forall in Hls2.
      destruct (Hls2 _ Hin) as [?|Hin']; [done|].
      rewrite Forall_forall in Hfrv. by apply (Hfrv _ Hin'). }
    set (st2 := San (<[r := OObj (set_prop (KStr k) v' ps)]> (s_heap st1))
                    (s_seen st1)).
    assert (inv h0 st2) as Hinv2.
    { destruct Hinv1 as [Hsub Hseen]. split; [|done]. simpl.
      apply insert_subseteq_r; [by apply not_elem_of_dom|done]. }
    destruct (IHes st2 (set_prop (KStr k) v' ps) tps2 ls2)
      as (st' & ps' & tps' & ls' & Hrun' & Hinv' & Hf' & Hs' & Hr' & Hps' & Hls' & Hpl');
      try done.
    { pose proof (unvisited_mono _ _ Hs1). unfold unvisited in *. simpl. lia. }
    { simpl. apply lookup_insert_eq. }
    { simpl. eapply repr_props_frame; [done|].
      apply Forall_forall. intros l Hl. apply lookup_insert_ne. by intros <-. }
    { by apply Hpl2. }
    exists st', ps', tps', ls'. split_and!; try done.
    + simpl. rewrite (San_bind_Some _ _ st tt st2); [done|].
      rewrite (San_bind_Some _ _ _ _ _ Hrun). unfold assign_prop. by rewrite Hr1.
    + intros l Hl Hne. rewrite Hf'; [| |done].
      * simpl. rewrite lookup_insert_ne by done. by apply Hf1.
      * simpl. apply elem_of_dom. rewrite lookup_insert_ne by done.
        rewrite Hf1 by done. by apply elem_of_dom.
    + simpl in Hs'. set_solver.
    + eapply Forall_impl; [done|]. simpl. intros l [Hl|Hl].
      * rewrite Forall_forall in Hls2. destruct (Hls2 _ Hl) as [?|Hl']; [by left|].
        right. rewrite Forall_forall in Hfrv. by apply Hfrv.
      * right. intros Hin. apply Hl. apply elem_of_dom.
        destruct (decide (r = l)) as [<-|Hne]; [by rewrite lookup_insert_eq|].
        rewrite lookup_insert_ne by done. rewrite Hf1 by done. by apply elem_of_dom.
Qed.
End with_fuel.

(** The run of [sanitizeValue] from any state the sanitizer can be in:
    it ends once the fuel exceeds the number of input objects not yet
    visited, and its result unfolds to a tree built from new objects. *)
Lemma sanitizeValue_spec fuel : ∀ v st,
  inv h0 st → val_closed h0 v → unvisited h0 st < fuel →
  ∃ v' st', sanitizeValue fuel v st = Some (v', st') ∧ sanitize_post h0 st v' st'.
Proof.
  induction fuel as [|fuel IH]; intros v st Hinv Hv Hfuel; [lia|].
  destruct v as [| |b|n|s|n|id|l];
    try (eexists _, st; split; [reflexivity|by apply sanitize_post_prim]).
  destruct Hv as [o Ho]. destruct st as [h s].
  assert (h !! l = Some o) as Hl by (eapply lookup_weaken; [done|apply Hinv]).
  assert (l ∈ dom h0) as Hldom by (apply elem_of_dom; eauto).
  pose proof (Hwf l o Ho) as Hwfo.
  simpl. unfold mbind at 1, San_bind at 1, deref. simpl. rewrite Hl.
  destruct o as [src|name message stack|elems|props].
  - (* a callable *)
    eexists _, _. split; [reflexivity|]. by apply sanitize_post_prim.
  - (* an Error instance *)
    eexists _, _. split; [reflexivity|]. simpl.
    pose proof (fresh_not_in_dom h) as Hfresh.
    split_and!.
    + eapply inv_frame; [done|apply frame_alloc|apply Hinv].
    + apply frame_alloc.
    + done.
    + eexists _, [fresh (dom h)]. split_and!.
      * eapply repr_obj; [apply lookup_insert_eq|].
        apply repr_props_prims. repeat constructor. by destruct stack.
      * constructor; [|constructor]. simpl. apply is_fresh.
      * reflexivity.
  - (* an array *)
    unfold mbind at 1, San_bind at 1, seen_has. simpl.
    case_bool_decide as Hseen.
    { eexists _, _. split; [reflexivity|]. by apply sanitize_post_prim. }
    unfold mbind at 1, San_bind at 1, seen_add. simpl.
    set (st1 := San h ({[l]} ∪ s)).
    assert (inv h0 st1) as Hinv1.
    { destruct Hinv as [? Hs]. split; [done|]. simpl in *. set_solver. }
    destruct (Array_map_spec fuel IH elems st1)
      as (vs' & st2 & Hrun & Hinv2 & Hf2 & Hs2 & ts & ls & Hr & Hfr & Hp);
      [done|done| |].
    { pose proof (unvisited_visit h s l Hldom Hseen). fold st1 in H. lia. }
    rewrite (San_bind_Some _ _ _ _ _ Hrun).
    eexists _, _. split; [reflexivity|]. simpl.
    destruct st2 as [h2 s2]. simpl in *.
    split_and!.
    + eapply inv_frame; [done|apply frame_alloc|apply Hinv2].
    + eapply (frame_trans (San h s) (San h2 s2)); [apply Hf2|apply frame_alloc].
    + set_solver.
    + exists (TArr ts), (fresh (dom h2) :: ls). split_and!.
      * eapply repr_arr; [apply lookup_insert_eq|].
        eapply repr_list_frame; [done|].
        eapply Forall_impl; [by eapply repr_list_dom|]. simpl.
        intros l' Hl'. apply lookup_insert_ne. intros <-. by apply is_fresh in Hl'.
      * constructor; [|done]. intros Hin.
        apply (is_fresh (dom h2)). by apply (frame_dom _ _ Hf2).
      * done.
  - (* any other object *)
    destruct Hwfo as [Hcl Hnd].
    unfold mbind at 1, San_bind at 1, seen_has. simpl.
    case_bool_decide as Hseen.
    { eexists _, _. split; [reflexivity|]. by apply sanitize_post_prim. }
    unfold mbind at 1, San_bind at 1, seen_add. simpl.
    unfold mbind at 1, San_bind at 1, alloc. simpl.
    set (r := fresh (dom h)).
    set (st1 := San (<[r := OObj []]> h) ({[l]} ∪ s)).
    assert (r ∉ dom h) as Hrh by apply is_fresh.
    assert (r ∉ dom h0) as Hr0.
    { intros Hin. apply Hrh. eapply subseteq_dom; [apply Hinv|done]. }
    assert (inv h0 st1) as Hinv1.
    { destruct Hinv as [? Hs]. split; simpl in *; [|set_solver].
      apply insert_subseteq_r; [by apply not_elem_of_dom|done]. }
    destruct (entries_spec fuel IH r (Object_entries props) st1 [] [] [])
      as (st2 & ps' & tps' & ls' & Hrun & Hinv2 & Hf2 & Hs2 & Hr2 & Hps2 & Hls2 & Hpl2);
      try done.
    { clear -Hcl. induction props as [|p props IHp]; simpl; [constructor|].
      inversion Hcl; subst. destruct (pkey p); [|by auto].
      destruct (penum p); [|by auto]. constructor; auto. }
    { pose proof (unvisited_visit (<[r := OObj []]> h) s l Hldom Hseen).
      unfold unvisited in *. simpl in *. lia. }
    { simpl. apply lookup_insert_eq. }
    { constructor. }
    { set_solver. }
    rewrite (San_bind_Some _ _ _ _ _ Hrun).
    eexists _, _. split; [reflexivity|].
    assert (∀ l', l' ∈ dom h → s_heap st2 !! l' = h !! l') as Hfr.
    { intros l' Hl'. rewrite Hf2.
      - simpl. apply lookup_insert_ne. by intros <-.
      - simpl. apply elem_of_dom. rewrite lookup_insert_ne by (by intros <-).
        by apply elem_of_dom.
      - by intros ->. }
    split_and!.
    + done.
    + intros l' Hl'. simpl in *. by apply Hfr.
    + simpl in *. set_solver.
    + exists (TObj tps'), (r :: ls'). split_and!.
      * by eapply repr_obj.
      * constructor; [done|]. eapply Forall_impl; [done|]. simpl.
        intros l' [Hl'|Hl']; [by apply elem_of_nil in Hl'|].
        intros Hin. apply Hl'. apply elem_of_dom.
        rewrite lookup_insert_ne by (by intros <-). by apply elem_of_dom.
      * done.
Qed.
End sanitize_spec.

(** * What an unfolding says about the object graph *)



Lemma val_loc_Some v l : val_loc v = Some l → v = VRef l.
Proof. destruct v; simpl; congruence. Qed.







(** On a well-formed heap [sanitizeObject] returns, whatever it is given. *)
Lemma sanitizeObject_total h v :
  heap_wf h → val_closed h v →
  ∃ v' h', sanitizeObject h v = Some (v', h') ∧
    (∀ l, l ∈ dom h → h' !! l = h !! l) ∧
    ∃ t ls, repr h' v' t ls ∧ Forall (λ l, l ∉ dom h) ls ∧ plain t = true.
Proof.
  intros Hwf Hv.
  destruct (sanitizeValue_spec h Hwf (S (size (dom h))) v (San h ∅))
    as (v' & st' & Hrun & _ & Hf & _ & Hrepr); [|done| |].
  - split; [done|]. simpl. set_solver.
  - unfold unvisited. simpl. rewrite difference_empty_L. lia.
  - exists v', (s_heap st'). unfold sanitizeObject. rewrite Hrun. split_and!; done.
Qed.

(** * The sanitizer on data without sharing

    When no object of the input is met twice and every property is an
    enumerable string-keyed one, the result unfolds to the tree of the
    input. *)

Lemma set_prop_new k v ps :
  k ∉ pkey <$> ps → set_prop k v ps = ps ++ [Prop_ k true v].
Proof.
  induction ps as [|p ps IH]; simpl; [done|]. intros Hnin.
  apply not_elem_of_cons in Hnin as [Hne Hnin].
  destruct (decide (pkey p = k)); [congruence|]. by rewrite IH.
Qed.

Lemma repr_props_snoc h ps tps ls p t lv :
  repr_props h ps tps ls → repr h (pval p) t lv →
  repr_props h (ps ++ [p]) (tps ++ [(pkey p, penum p, t)]) (ls ++ lv).
Proof.
  intros Hps Hv. induction Hps as [|p0 ps t0 tps ls1 ls2 Hp0 _ IH]; simpl.
  - rewrite <- (app_nil_r lv). by repeat constructor.
  - rewrite <- app_assoc. by constructor.
Qed.

Section sanitize_tree.
Variable h0 : heap.

Section with_fuel.
Variable fuel : nat.
Hypothesis IH : ∀ v st t ls,
  inv h0 st → unvisited h0 st < fuel →
  repr h0 v t ls → NoDup ls → plain t = true →
  Forall (λ l, l ∉ s_seen st) ls →
  ∃ v' st', sanitizeValue fuel v st = Some (v', st') ∧ tree_post h0 st t ls v' st'.

Lemma Array_map_tree vs : ∀ st ts ls,
  inv h0 st → unvisited h0 st < fuel →
  repr_list h0 vs ts ls → NoDup ls → forallb plain ts = true →
  Forall (λ l, l ∉ s_seen st) ls →
  ∃ vs' st', Array_map (sanitizeValue fuel) vs st = Some (vs', st') ∧
    inv h0 st' ∧ frame st st' ∧ s_seen st' = s_seen st ∪ list_to_set ls ∧
    ∃ ls', repr_list (s_heap st') vs' ts ls' ∧
           Forall (λ l, l ∉ dom (s_heap st)) ls'.
Proof.
  induction vs as [|v vs IHvs]; intros st ts ls Hinv Hfuel Hr Hnd Hpl Hns;
    inversion Hr as [|?? t ts' ls1 ls2 Hv Hvs]; subst.
  - exists [], st. split_and!; [done|done|apply frame_refl|set_solver|].
    exists []. split; constructor.
  - apply NoDup_app in Hnd as (Hnd1 & Hdisj & Hnd2).
    apply Forall_app in Hns as [Hns1 Hns2].
    simpl in Hpl. apply andb_prop in Hpl as [Hpl1 Hpl2].
    destruct (IH v st t ls1) as (v' & st1 & Hrun & Hinv1 & Hf1 & Hs1 & l1' & Hr1 & Hfr1);
      try done.
    destruct (IHvs st1 ts' ls2)
      as (vs' & st2 & Hrun2 & Hinv2 & Hf2 & Hs2 & l2' & Hr2 & Hfr2); try done.
    { assert (unvisited h0 st1 ≤ unvisited h0 st); [|lia].
      apply unvisited_mono. rewrite Hs1. set_solver. }
    { rewrite Hs1. rewrite Forall_forall in Hns2 |- *. intros l Hl.
      specialize (Hns2 l Hl). specialize (Hdisj l). set_solver. }
    exists (v' :: vs'), st2. split_and!.
    + simpl. rewrite (San_bind_Some _ _ _ _ _ Hrun).
      by rewrite (San_bind_Some _ _ _ _ _ Hrun2).
    + done.
    + by eapply frame_trans.
    + rewrite Hs2, Hs1. set_solver.
    + exists (l1' ++ l2'). split.
      * constructor; [|done]. eapply repr_frame; [done|].
        eapply Forall_impl; [by eapply repr_dom|]. intros l Hl. by apply Hf2.
      * apply Forall_app. split; [done|].
        eapply Forall_impl; [done|]. intros l Hl Hin. apply Hl.
        by apply (frame_dom _ _ Hf1).
Qed.

Lemma entries_tree r ps : ∀ st tps ls acc tacc lacc,
  inv h0 st → unvisited h0 st < fuel → r ∉ dom h0 →
  repr_props h0 ps tps ls → NoDup ls → forallb plain_prop tps = true →
  Forall (λ l, l ∉ s_seen st) ls →
  NoDup (pkey <$> ps) → Forall (λ p, pkey p ∉ pkey <$> acc) ps →
  s_heap st !! r = Some (OObj acc) →
  repr_props (s_heap st) acc tacc lacc → r ∉ lacc →
  ∃ st' acc' lacc',
    for_of (λ kv, v' ← sanitizeValue fuel kv.2; assign_prop r (KStr kv.1) v')
          (Object_entries ps) st = Some (tt, st') ∧
    inv h0 st' ∧
    (∀ l, l ∈ dom (s_heap st) → l ≠ r → s_heap st' !! l = s_heap st !! l) ∧
    s_seen st' = s_seen st ∪ list_to_set ls ∧
    s_heap st' !! r = Some (OObj acc') ∧
    repr_props (s_heap st') acc' (tacc ++ tps) lacc' ∧
    Forall (λ l, l ∈ lacc ∨ l ∉ dom (s_heap st)) lacc'.
Proof.
  induction ps as [|p ps IHps];
    intros st tps ls acc tacc lacc Hinv Hfuel Hr0 Hr Hnd Hpl Hns Hkeys Hnew
           Hacc Hracc Hrl;
    inversion Hr as [|?? t tps' ls1 ls2 Hv Hps]; subst.
  - exists st, acc, lacc. rewrite app_nil_r.
    split_and!; try done; [set_solver|]. apply Forall_forall. auto.
  - apply NoDup_app in Hnd as (Hnd1 & Hdisj & Hnd2).
    apply Forall_app in Hns as [Hns1 Hns2].
    simpl in Hpl. apply andb_prop in Hpl as [Hpl1 Hpl2].
    unfold plain_prop in Hpl1; simpl in Hpl1.
    apply andb_prop in Hpl1 as [[Hk He]%andb_prop Hplt].
    simpl in Hkeys. apply NoDup_cons in Hkeys as [Hkp Hkeys].
    inversion Hnew as [|?? Hpnew Hnew']; subst.
    destruct p as [[s|id] e v]; simpl in *; [|done]. subst e.
    destruct (IH v st t ls1) as (v' & st1 & Hrun & Hinv1 & Hf1 & Hs1 & lv & Hrv & Hfrv);
      try done.
    assert (r ∈ dom (s_heap st)) as Hrdom by (apply elem_of_dom; eauto).
    assert (s_heap st1 !! r = Some (OObj acc)) as Hr1 by (by rewrite Hf1).
    assert (repr_props (s_heap st1) acc tacc lacc) as Hacc1.
    { eapply repr_props_frame; [done|].
      eapply Forall_impl; [by eapply repr_props_dom|]. intros l Hl. by apply Hf1. }
    pose proof (repr_props_snoc _ _ _ _ (Prop_ (KStr s) true v') _ _ Hacc1 Hrv)
      as Hsnoc. simpl in Hsnoc.
    assert (r ∉ lacc ++ lv) as Hrl2.
    { intros [?|Hin]%elem_of_app; [done|].
      rewrite Forall_forall in Hfrv. by apply (Hfrv _ Hin). }
    set (acc2 := acc ++ [Prop_ (KStr s) true v']).
    set (st2 := San (<[r := OObj acc2]> (s_heap st1)) (s_seen st1)).
    assert (inv h0 st2) as Hinv2.
    { destruct Hinv1 as [Hsub Hseen]. split; [|done]. simpl.
      apply insert_subseteq_r; [by apply not_elem_of_dom|done]. }
    destruct (IHps st2 tps' ls2 acc2 (tacc ++ [(KStr s, true, t)]) (lacc ++ lv))
      as (st' & acc' & lacc' & Hrun' & Hinv' & Hf' & Hs' & Hr' & Hps' & Hls');
      try done.
    { assert (unvisited h0 st1 ≤ unvisited h0 st).
      { apply unvisited_mono. rewrite Hs1. set_solver. }
      unfold unvisited in *. simpl. lia. }
    { simpl. rewrite Hs1. rewrite Forall_forall in Hns2 |- *. intros l Hl.
      specialize (Hns2 l Hl). specialize (Hdisj l). set_solver. }
    { unfold acc2. rewrite Forall_forall in Hnew' |- *. intros q Hq.
      rewrite fmap_app. simpl. intros [Hin|Hin]%elem_of_app.
      - by apply (Hnew' q Hq).
      - apply list_elem_of_singleton in Hin. apply Hkp. rewrite <- Hin.
        by apply list_elem_of_fmap_2. }
    { simpl. apply lookup_insert_eq. }
    { simpl. eapply repr_props_frame; [done|].
      apply Forall_forall. intros l Hl. apply lookup_insert_ne. by intros <-. }
    exists st', acc', lacc'. split_and!; try done.
    + simpl. rewrite (San_bind_Some _ _ st tt st2); [done|].
      rewrite (San_bind_Some _ _ _ _ _ Hrun). unfold assign_prop. rewrite Hr1.
      by rewrite set_prop_new.
    + intros l Hl Hne. rewrite Hf'; [| |done].
      * simpl. rewrite lookup_insert_ne by done. by apply Hf1.
      * simpl. apply elem_of_dom. rewrite lookup_insert_ne by done.
        rewrite Hf1 by done. by apply elem_of_dom.
    + rewrite Hs'. simpl. rewrite Hs1. set_solver.
    + by rewrite <- app_assoc in Hps'.
    + eapply Forall_impl; [done|]. simpl. intros l [Hl|Hl].
      * apply elem_of_app in Hl as [?|Hl]; [by left|].
        right. rewrite Forall_forall in Hfrv. by apply Hfrv.
      * right. intros Hin. apply Hl. apply elem_of_dom.
        destruct (decide (r = l)) as [<-|Hne]; [by rewrite lookup_insert_eq|].
        rewrite lookup_insert_ne by done. rewrite Hf1 by done. by apply elem_of_dom.
Qed.
End with_fuel.

Hypothesis Hwf : heap_wf h0.

Lemma sanitizeValue_tree fuel : ∀ v st t ls,
  inv h0 st → unvisited h0 st < fuel →
  repr h0 v t ls → NoDup ls → plain t = true →
  Forall (λ l, l ∉ s_seen st) ls →
  ∃ v' st', sanitizeValue fuel v st = Some (v', st') ∧ tree_post h0 st t ls v' st'.
Proof.
  induction fuel as [|fuel IH]; intros v st t ls Hinv Hfuel Hr Hnd Hpl Hns; [lia|].
  inversion Hr as [v0 Hprim|l vs ts ls' Hl Hvs|l ps tps ls' Hl Hps]; subst.
  - exists v, st. split; [by destruct v|].
    split_and!; [done|apply frame_refl|set_solver|].
    exists []. split; [by constructor|constructor].
  - destruct st as [h s].
    assert (h !! l = Some (OArr vs)) as Hhl by (eapply lookup_weaken; [done|apply Hinv]).
    assert (l ∈ dom h0) as Hldom by (apply elem_of_dom; eauto).
    apply NoDup_cons in Hnd as [Hlls Hnd].
    inversion Hns as [|?? Hseen Hns']; subst. simpl in Hseen.
    simpl. unfold mbind at 1, San_bind at 1, deref. simpl. rewrite Hhl.
    unfold mbind at 1, San_bind at 1, seen_has. simpl.
    rewrite bool_decide_eq_false_2 by done.
    unfold mbind at 1, San_bind at 1, seen_add. simpl.
    set (st1 := San h ({[l]} ∪ s)).
    assert (inv h0 st1) as Hinv1.
    { destruct Hinv as [? Hs]. split; [done|]. simpl in *. set_solver. }
    destruct (Array_map_tree fuel IH vs st1 ts ls')
      as (vs' & st2 & Hrun & Hinv2 & Hf2 & Hs2 & l2' & Hr2 & Hfr2); try done.
    { pose proof (unvisited_visit h0 h s l Hldom Hseen). fold st1 in H. lia. }
    { simpl. rewrite Forall_forall in Hns' |- *. intros l' Hl'.
      specialize (Hns' l' Hl'). simpl in Hns'. set_solver. }
    rewrite (San_bind_Some _ _ _ _ _ Hrun).
    eexists _, _. split; [reflexivity|]. simpl.
    destruct st2 as [h2 s2]. simpl in *.
    split_and!.
    + eapply inv_frame; [done|apply frame_alloc|apply Hinv2].
    + eapply (frame_trans (San h s) (San h2 s2)); [apply Hf2|apply frame_alloc].
    + simpl. rewrite Hs2. set_solver.
    + exists (fresh (dom h2) :: l2'). split.
      * eapply repr_arr; [apply lookup_insert_eq|].
        eapply repr_list_frame; [done|].
        eapply Forall_impl; [by eapply repr_list_dom|]. simpl.
        intros l' Hl'. apply lookup_insert_ne. intros <-. by apply is_fresh in Hl'.
      * constructor; [|done]. intros Hin.
        apply (is_fresh (dom h2)). by apply (frame_dom _ _ Hf2).
  - destruct st as [h s].
    assert (h !! l = Some (OObj ps)) as Hhl by (eapply lookup_weaken; [done|apply Hinv]).
    assert (l ∈ dom h0) as Hldom by (apply elem_of_dom; eauto).
    destruct (Hwf l _ Hl) as [_ Hkeys].
    apply NoDup_cons in Hnd as [Hlls Hnd].
    inversion Hns as [|?? Hseen Hns']; subst. simpl in Hseen.
    simpl. unfold mbind at 1, San_bind at 1, deref. simpl. rewrite Hhl.
    unfold mbind at 1, San_bind at 1, seen_has. simpl.
    rewrite bool_decide_eq_false_2 by done.
    unfold mbind at 1, San_bind at 1, seen_add. simpl.
    unfold mbind at 1, San_bind at 1, alloc. simpl.
    set (r := fresh (dom h)).
    set (st1 := San (<[r := OObj []]> h) ({[l]} ∪ s)).
    assert (r ∉ dom h) as Hrh by apply is_fresh.
    assert (r ∉ dom h0) as Hr0.
    { intros Hin. apply Hrh. eapply subseteq_dom; [apply Hinv|done]. }
    assert (inv h0 st1) as Hinv1.
    { destruct Hinv as [? Hs]. split; simpl in *; [|set_solver].
      apply insert_subseteq_r; [by apply not_elem_of_dom|done]. }
    destruct (entries_tree fuel IH r ps st1 tps ls' [] [] [])
      as (st2 & acc' & lacc' & Hrun & Hinv2 & Hf2 & Hs2 & Hr2 & Hps2 & Hls2);
      try done.
    { pose proof (unvisited_visit h0 (<[r := OObj []]> h) s l Hldom Hseen).
      unfold unvisited in *. simpl in *. lia. }
    { simpl. rewrite Forall_forall in Hns' |- *. intros l' Hl'.
      specialize (Hns' l' Hl'). simpl in Hns'. set_solver. }
    { apply Forall_forall. intros p _. simpl. apply not_elem_of_nil. }
    { simpl. apply lookup_insert_eq. }
    { constructor. }
    { apply not_elem_of_nil. }
    rewrite (San_bind_Some _ _ _ _ _ Hrun).
    eexists _, _. split; [reflexivity|].
    assert (∀ l', l' ∈ dom h → s_heap st2 !! l' = h !! l') as Hfr.
    { intros l' Hl'. rewrite Hf2.
      - simpl. apply lookup_insert_ne. by intros <-.
      - simpl. apply elem_of_dom. rewrite lookup_insert_ne by (by intros <-).
        by apply elem_of_dom.
      - by intros ->. }
    split_and!.
    + done.
    + intros l' Hl'. simpl in *. by apply Hfr.
    + rewrite Hs2. simpl. set_solver.
    + exists (r :: lacc'). split.
      * by eapply repr_obj.
      * constructor; [done|]. eapply Forall_impl; [done|]. simpl.
        intros l' [Hl'|Hl']; [by apply elem_of_nil in Hl'|].
        intros Hin. apply Hl'. apply elem_of_dom.
        rewrite lookup_insert_ne by (by intros <-). by apply elem_of_dom.
Qed.
End sanitize_tree.

(** * The [seen] set only grows *)

Lemma Array_map_seen_mono {A B} (f : A → San_M B) xs :
  (∀ x st y st', f x st = Some (y, st') → s_seen st ⊆ s_seen st') →
  ∀ st ys st', Array_map f xs st = Some (ys, st') → s_seen st ⊆ s_seen st'.
Proof.
  intros Hf. induction xs as [|x xs IH]; intros st ys st' Hrun; simpl in Hrun.
  - by inversion Hrun.
  - apply San_bind_inv in Hrun as (y & st1 & H1 & Hrun).
    apply San_bind_inv in Hrun as (ys' & st2 & H2 & Hrun).
    inversion Hrun; subst. etrans; [by eapply Hf|by eapply IH].
Qed.

Lemma for_of_seen_mono {A} (f : A → San_M unit) xs :
  (∀ x st y st', f x st = Some (y, st') → s_seen st ⊆ s_seen st') →
  ∀ st u st', for_of f xs st = Some (u, st') → s_seen st ⊆ s_seen st'.
Proof.
  intros Hf. induction xs as [|x xs IH]; intros st u st' Hrun; simpl in Hrun.
  - by inversion Hrun.
  - apply San_bind_inv in Hrun as (y & st1 & H1 & Hrun).
    etrans; [by eapply Hf|by eapply IH].
Qed.

Lemma assign_prop_seen r k v st u st' :
  assign_prop r k v st = Some (u, st') → s_seen st' = s_seen st.
Proof.
  unfold assign_prop. destruct (s_heap st !! r) as [[| | |ps]|]; try done.
  by intros [= _ <-].
Qed.

Lemma sanitizeValue_seen_mono fuel : ∀ v st v' st',
  sanitizeValue fuel v st = Some (v', st') → s_seen st ⊆ s_seen st'.
Proof.
  induction fuel as [|fuel IH]; intros v st v' st' Hrun; [done|].
  destruct v as [| |b|n|s|n|id|l]; simpl in Hrun;
    try (by inversion Hrun).
  apply San_bind_inv in Hrun as (o & st1 & Hd & Hrun).
  unfold deref in Hd. destruct (s_heap st !! l); [|done]. inversion Hd; subst.
  destruct o as [src|name message stack|elems|props].
  - by inversion Hrun.
  - by inversion Hrun.
  - apply San_bind_inv in Hrun as (b & sa & Hb & Hrun). inversion Hb; subst.
    case_bool_decide; [by inversion Hrun|].
    apply San_bind_inv in Hrun as (u & sb & Ha & Hrun). inversion Ha; subst.
    apply San_bind_inv in Hrun as (vs' & sc & Hm & Hrun).
    apply San_bind_inv in Hrun as (r & sd & Hal & Hrun).
    inversion Hal; subst. inversion Hrun; subst. simpl.
    apply (Array_map_seen_mono _ _ (λ x, IH x)) in Hm. simpl in Hm. set_solver.
  - apply San_bind_inv in Hrun as (b & sa & Hb & Hrun). inversion Hb; subst.
    case_bool_decide; [by inversion Hrun|].
    apply San_bind_inv in Hrun as (u & sb & Ha & Hrun). inversion Ha; subst.
    apply San_bind_inv in Hrun as (r & sc & Hal & Hrun). inversion Hal; subst.
    apply San_bind_inv in Hrun as (u' & sd & Hm & Hrun). inversion Hrun; subst.
    apply for_of_seen_mono in Hm; [simpl in Hm; set_solver|].
    intros kv sta y stb Hstep.
    apply San_bind_inv in Hstep as (w & stc & Hw & Hstep).
    apply assign_prop_seen in Hstep. rewrite Hstep. by eapply IH.
Qed.

(** An object or array met for the first time comes back as a new object,
    and is in [seen] from then on. *)
Lemma sanitizeValue_first_visit fuel l o st v' st' :
  s_heap st !! l = Some o → is_container o = true → l ∉ s_seen st →
  sanitizeValue fuel (VRef l) st = Some (v', st') →
  l ∈ s_seen st' ∧ ∃ r, v' = VRef r.
Proof.
  intros Hl Hc Hns Hrun. destruct fuel as [|fuel]; [done|]. simpl in Hrun.
  apply San_bind_inv in Hrun as (o' & st1 & Hd & Hrun).
  unfold deref in Hd. rewrite Hl in Hd. inversion Hd; subst.
  destruct o' as [src|name message stack|elems|props]; try done.
  - apply San_bind_inv in Hrun as (b & sa & Hb & Hrun). inversion Hb; subst.
    rewrite bool_decide_eq_false_2 in Hrun by done.
    apply San_bind_inv in Hrun as (u & sb & Ha & Hrun). inversion Ha; subst.
    apply San_bind_inv in Hrun as (vs' & sc & Hm & Hrun).
    apply San_bind_inv in Hrun as (r & sd & Hal & Hrun).
    inversion Hal; subst. inversion Hrun; subst. simpl.
    pose proof (Array_map_seen_mono _ _ (λ x, sanitizeValue_seen_mono fuel x) _ _ _ Hm) as Hs.
    simpl in Hs. split; [set_solver|]. by eexists.
  - apply San_bind_inv in Hrun as (b & sa & Hb & Hrun). inversion Hb; subst.
    rewrite bool_decide_eq_false_2 in Hrun by done.
    apply San_bind_inv in Hrun as (u & sb & Ha & Hrun). inversion Ha; subst.
    apply San_bind_inv in Hrun as (r & sc & Hal & Hrun). inversion Hal; subst.
    apply San_bind_inv in Hrun as (u' & sd & Hm & Hrun). inversion Hrun; subst.
    split; [|by eexists].
    apply for_of_seen_mono in Hm; [simpl in Hm; set_solver|].
    intros kv sta y stb Hstep.
    apply San_bind_inv in Hstep as (w & stc & Hw & Hstep).
    apply assign_prop_seen in Hstep. rewrite Hstep. by eapply sanitizeValue_seen_mono.
Qed.

(** An object or array already in [seen] is not entered again. *)
Lemma sanitizeValue_seen fuel l o st :
  s_heap st !! l = Some o → is_container o = true → l ∈ s_seen st →
  sanitizeValue (S fuel) (VRef l) st = Some (VStr Circular, st).
Proof.
  intros Hl Hc Hs. simpl. unfold mbind at 1, San_bind at 1, deref. rewrite Hl.
  destruct o; try done;
    unfold mbind at 1, San_bind at 1, seen_has; simpl;
    by rewrite bool_decide_eq_true_2.
Qed.

(** Entering an object that is not in [seen] yet: it is put in [seen], an
    empty object is allocated, and the entries are copied into it. *)
Lemma sanitizeValue_enter_object fuel l props h s :
  h !! l = Some (OObj props) → l ∉ s →
  sanitizeValue (S fuel) (VRef l) (San h s) =
  match for_of (λ kv, v' ← sanitizeValue fuel kv.2;
                     assign_prop (fresh (dom h)) (KStr kv.1) v')
              (Object_entries props)
              (San (<[fresh (dom h) := OObj []]> h) ({[l]} ∪ s)) with
  | Some (_, st') => Some (VRef (fresh (dom h)), st')
  | None => None
  end.
Proof.
  intros Hl Hs. simpl. unfold mbind at 1, San_bind at 1, deref. simpl. rewrite Hl.
  unfold mbind at 1, San_bind at 1, seen_has. simpl.
  rewrite bool_decide_eq_false_2 by done.
  unfold mbind at 1, San_bind at 1, seen_add. simpl.
  unfold mbind at 1, San_bind at 1, alloc. simpl.
  unfold mbind at 1, San_bind at 1.
  by destruct (for_of _ _ _) as [[[] st']|].
Qed.

(** * Fuel is not observable: a run that ends gives the same with more *)

Lemma Array_map_mono {A B} (f g : A → San_M B) xs :
  (∀ x st r, f x st = Some r → g x st = Some r) →
  ∀ st r, Array_map f xs st = Some r → Array_map g xs st = Some r.
Proof.
  intros Hfg. induction xs as [|x xs IH]; intros st r Hrun; simpl in *; [done|].
  apply San_bind_inv in Hrun as (y & st1 & H1 & Hrun).
  apply San_bind_inv in Hrun as (ys & st2 & H2 & Hrun).
  rewrite (San_bind_Some _ _ _ _ _ (Hfg _ _ _ H1)).
  by rewrite (San_bind_Some _ _ _ _ _ (IH _ _ H2)).
Qed.

Lemma for_of_mono {A} (f g : A → San_M unit) xs :
  (∀ x st r, f x st = Some r → g x st = Some r) →
  ∀ st r, for_of f xs st = Some r → for_of g xs st = Some r.
Proof.
  intros Hfg. induction xs as [|x xs IH]; intros st r Hrun; simpl in *; [done|].
  apply San_bind_inv in Hrun as (y & st1 & H1 & Hrun).
  rewrite (San_bind_Some _ _ _ _ _ (Hfg _ _ _ H1)). by apply IH.
Qed.

Lemma sanitizeValue_fuel_mono fuel : ∀ fuel' v st r,
  fuel ≤ fuel' → sanitizeValue fuel v st = Some r → sanitizeValue fuel' v st = Some r.
Proof.
  induction fuel as [|fuel IH]; intros fuel' v st r Hle Hrun; [done|].
  destruct fuel' as [|fuel']; [lia|].
  assert (fuel ≤ fuel') as Hle' by lia.
  destruct v as [| |b|n|s|n|id|l]; try done. simpl in *.
  apply San_bind_inv in Hrun as (o & st1 & Hd & Hrun).
  rewrite (San_bind_Some _ _ _ _ _ Hd).
  destruct o as [src|name message stack|elems|props]; try done.
  - apply San_bind_inv in Hrun as (b & sa & Hb & Hrun).
    rewrite (San_bind_Some _ _ _ _ _ Hb). destruct b; [done|].
    apply San_bind_inv in Hrun as (u & sb & Ha & Hrun).
    rewrite (San_bind_Some _ _ _ _ _ Ha).
    apply San_bind_inv in Hrun as (vs' & sc & Hm & Hrun).
    apply (Array_map_mono _ (sanitizeValue fuel')) in Hm;
      [|intros x sx rx; by apply IH].
    by rewrite (San_bind_Some _ _ _ _ _ Hm).
  - apply San_bind_inv in Hrun as (b & sa & Hb & Hrun).
    rewrite (San_bind_Some _ _ _ _ _ Hb). destruct b; [done|].
    apply San_bind_inv in Hrun as (u & sb & Ha & Hrun).
    rewrite (San_bind_Some _ _ _ _ _ Ha).
    apply San_bind_inv in Hrun as (r' & sc & Hal & Hrun).
    rewrite (San_bind_Some _ _ _ _ _ Hal).
    apply San_bind_inv in Hrun as (u' & sd & Hm & Hrun).
    eapply (for_of_mono _ (λ kv, v' ← sanitizeValue fuel' kv.2;
                                 assign_prop r' (KStr kv.1) v')) in Hm.
    + by rewrite (San_bind_Some _ _ _ _ _ Hm).
    + intros kv sx rx Hstep. apply San_bind_inv in Hstep as (w & sy & Hw & Hstep).
      by rewrite (San_bind_Some _ _ _ _ _ (IH _ _ _ _ Hle' Hw)).
Qed.

(** * Two runs on one input give structurally equal results

    The heaps of the two runs may differ in what was allocated since the
    input was built; the input itself is the same in both. *)

Lemma repr_props_set_tprop h ps tps ls k v t lv :
  repr_props h ps tps ls → repr h v t lv →
  ∃ ls', repr_props h (set_prop k v ps) (set_tprop k t tps) ls' ∧
         Forall (λ l, l ∈ ls ∨ l ∈ lv) ls'.
Proof.
  intros Hps Hv. induction Hps as [|p ps t0 tps ls1 ls2 Hp Hps IH]; simpl.
  - exists (lv ++ []). split.
    + apply (repr_props_cons h (Prop_ k true v) [] t [] lv []); [done|constructor].
    + rewrite app_nil_r. apply Forall_forall. auto.
  - destruct (decide (pkey p = k)) as [<-|Hne].
    + exists (lv ++ ls2). split.
      * by apply (repr_props_cons h (Prop_ (pkey p) (penum p) v) ps t tps lv ls2).
      * apply Forall_forall. intros l [?|?]%elem_of_app; [by right|].
        left. apply elem_of_app. by right.
    + destruct IH as (ls' & Hr' & Hls').
      exists (ls1 ++ ls'). split; [by constructor|].
      apply Forall_app. split.
      * apply Forall_forall. intros l Hl. left. apply elem_of_app. by left.
      * eapply Forall_impl; [done|]. intros l [Hl|Hl]; [left|by right].
        apply elem_of_app. by right.
Qed.

Section same_tree.
Variable h0 : heap.
Hypothesis Hwf : heap_wf h0.

Lemma sanitizeValue_run_post fuel v st v' st' :
  inv h0 st → val_closed h0 v → unvisited h0 st < fuel →
  sanitizeValue fuel v st = Some (v', st') → sanitize_post h0 st v' st'.
Proof.
  intros Hinv Hcl Hfuel Hrun.
  destruct (sanitizeValue_spec h0 Hwf fuel v st Hinv Hcl Hfuel) as (w & sw & Hrun' & Hpost).
  rewrite Hrun in Hrun'. by inversion Hrun'; subst.
Qed.

Lemma unvisited_eq st1 st2 : s_seen st1 = s_seen st2 → unvisited h0 st1 = unvisited h0 st2.
Proof. unfold unvisited. by intros ->. Qed.

Lemma fresh_weaken (st st' : SanState) ls :
  frame st st' → Forall (λ l, l ∉ dom (s_heap st')) ls →
  Forall (λ l, l ∉ dom (s_heap st)) ls.
Proof.
  intros Hf Hls. eapply Forall_impl; [exact Hls|]. intros l Hl Hin. apply Hl.
  by apply (frame_dom _ _ Hf).
Qed.

Section with_fuel.
Variable fuel : nat.
Hypothesis IH : ∀ v st1 st2 v1 st1' v2 st2',
  inv h0 st1 → inv h0 st2 → s_seen st1 = s_seen st2 →
  val_closed h0 v → unvisited h0 st1 < fuel →
  sanitizeValue fuel v st1 = Some (v1, st1') →
  sanitizeValue fuel v st2 = Some (v2, st2') →
  same_result st1 st2 v1 st1' v2 st2'.

Lemma Array_map_same vs : ∀ st1 st2 vs1 st1' vs2 st2',
  inv h0 st1 → inv h0 st2 → s_seen st1 = s_seen st2 →
  Forall (val_closed h0) vs → unvisited h0 st1 < fuel →
  Array_map (sanitizeValue fuel) vs st1 = Some (vs1, st1') →
  Array_map (sanitizeValue fuel) vs st2 = Some (vs2, st2') →
  inv h0 st1' ∧ inv h0 st2' ∧ frame st1 st1' ∧ frame st2 st2' ∧
  s_seen st1 ⊆ s_seen st1' ∧ s_seen st1' = s_seen st2' ∧
  ∃ ts ls1 ls2,
    repr_list (s_heap st1') vs1 ts ls1 ∧ repr_list (s_heap st2') vs2 ts ls2 ∧
    Forall (λ l, l ∉ dom (s_heap st1)) ls1 ∧
    Forall (λ l, l ∉ dom (s_heap st2)) ls2.
Proof.
  induction vs as [|v vs IHvs];
    intros st1 st2 vs1 st1' vs2 st2' Hinv1 Hinv2 Hseen Hcl Hfuel Hrun1 Hrun2;
    simpl in Hrun1, Hrun2.
  - inversion Hrun1; inversion Hrun2; subst.
    split_and!; try done; try apply frame_refl.
    exists [], [], []. split_and!; constructor.
  - inversion Hcl as [|?? Hv Hvs]; subst.
    apply San_bind_inv in Hrun1 as (y1 & sa1 & Hy1 & Hrun1).
    apply San_bind_inv in Hrun1 as (ys1 & sb1 & Hys1 & Hrun1).
    apply San_bind_inv in Hrun2 as (y2 & sa2 & Hy2 & Hrun2).
    apply San_bind_inv in Hrun2 as (ys2 & sb2 & Hys2 & Hrun2).
    inversion Hrun1; inversion Hrun2; subst.
    assert (unvisited h0 st2 < fuel) as Hfuel2 by (by rewrite <- (unvisited_eq _ _ Hseen)).
    destruct (sanitizeValue_run_post _ _ _ _ _ Hinv1 Hv Hfuel Hy1)
      as (Hia1 & Hfa1 & Hsa1 & _).
    destruct (sanitizeValue_run_post _ _ _ _ _ Hinv2 Hv Hfuel2 Hy2)
      as (Hia2 & Hfa2 & Hsa2 & _).
    destruct (IH _ _ _ _ _ _ _ Hinv1 Hinv2 Hseen Hv Hfuel Hy1 Hy2)
      as (Hseen_a & t & l1 & l2 & Hr1 & Hr2 & Hfr1 & Hfr2).
    assert (unvisited h0 sa1 < fuel) as Hfuel_a.
    { pose proof (unvisited_mono h0 _ _ Hsa1). lia. }
    destruct (IHvs _ _ _ _ _ _ Hia1 Hia2 Hseen_a Hvs Hfuel_a Hys1 Hys2)
      as (Hib1 & Hib2 & Hfb1 & Hfb2 & Hsb1 & Hseen_b
          & ts & ls1 & ls2 & Hrs1 & Hrs2 & Hfrs1 & Hfrs2).
    split_and!; try done.
    + by eapply frame_trans.
    + by eapply frame_trans.
    + set_solver.
    + exists (t :: ts), (l1 ++ ls1), (l2 ++ ls2). split_and!.
      * constructor; [|done]. eapply repr_frame; [done|].
        eapply Forall_impl; [by eapply repr_dom|]. intros l Hl. by apply Hfb1.
      * constructor; [|done]. eapply repr_frame; [done|].
        eapply Forall_impl; [by eapply repr_dom|]. intros l Hl. by apply Hfb2.
      * apply Forall_app. split; [done|]. by eapply fresh_weaken.
      * apply Forall_app. split; [done|]. by eapply fresh_weaken.
Qed.

(** One step of the loop over the entries, on one side. *)
Lemma entries_step r k st y sa u sb acc tps la t lv :
  inv h0 st → r ∉ dom h0 →
  s_heap st !! r = Some (OObj acc) → repr_props (s_heap st) acc tps la → r ∉ la →
  sanitize_post h0 st y sa →
  repr (s_heap sa) y t lv → Forall (λ l, l ∉ dom (s_heap st)) lv →
  assign_prop r k y sa = Some (u, sb) →
  inv h0 sb ∧ s_seen sb = s_seen sa ∧
  (∀ l, l ∈ dom (s_heap st) → l ≠ r → s_heap sb !! l = s_heap st !! l) ∧
  dom (s_heap st) ⊆ dom (s_heap sb) ∧
  ∃ la', s_heap sb !! r = Some (OObj (set_prop k y acc)) ∧
         repr_props (s_heap sb) (set_prop k y acc) (set_tprop k t tps) la' ∧
         (r ∉ la') ∧ Forall (λ l, l ∈ la ∨ l ∉ dom (s_heap st)) la'.
Proof.
  intros Hinv Hr0 Hacc Hrep Hrl (Hia & Hfa & Hsa & _) Hrv Hfrv Hassign.
  assert (r ∈ dom (s_heap st)) as Hrdom by (apply elem_of_dom; eauto).
  assert (s_heap sa !! r = Some (OObj acc)) as Hra by (by rewrite Hfa).
  unfold assign_prop in Hassign. rewrite Hra in Hassign.
  inversion Hassign; subst. simpl.
  assert (repr_props (s_heap sa) acc tps la) as Hrepa.
  { eapply repr_props_frame; [done|].
    eapply Forall_impl; [by eapply repr_props_dom|]. intros l Hl. by apply Hfa. }
  destruct (repr_props_set_tprop _ _ _ _ k _ _ _ Hrepa Hrv) as (la' & Hrep' & Hla').
  assert (r ∉ la') as Hrl'.
  { intros Hin. rewrite Forall_forall in Hla'.
    destruct (Hla' _ Hin) as [?|Hin']; [done|].
    rewrite Forall_forall in Hfrv. by apply (Hfrv _ Hin'). }
  split_and!.
  - destruct Hia as [Hsub Hs]. split; [|done]. simpl.
    apply insert_subseteq_r; [by apply not_elem_of_dom|done].
  - done.
  - intros l Hl Hne. rewrite lookup_insert_ne by done. by apply Hfa.
  - intros l Hl. apply elem_of_dom.
    destruct (decide (r = l)) as [<-|Hne]; [by rewrite lookup_insert_eq|].
    rewrite lookup_insert_ne by done. rewrite Hfa by done. by apply elem_of_dom.
  - exists la'. split_and!.
    + apply lookup_insert_eq.
    + eapply repr_props_frame; [done|].
      apply Forall_forall. intros l Hl. apply lookup_insert_ne. by intros <-.
    + done.
    + eapply Forall_impl; [done|]. simpl. intros l [Hl|Hl]; [by left|].
      right. rewrite Forall_forall in Hfrv. by apply Hfrv.
Qed.

Lemma entries_same r1 r2 es : ∀ st1 st2 st1' st2' acc1 acc2 tps la1 la2,
  inv h0 st1 → inv h0 st2 → s_seen st1 = s_seen st2 →
  Forall (λ kv : string * val, val_closed h0 kv.2) es → unvisited h0 st1 < fuel →
  r1 ∉ dom h0 → r2 ∉ dom h0 →
  s_heap st1 !! r1 = Some (OObj acc1) → repr_props (s_heap st1) acc1 tps la1 →
  r1 ∉ la1 →
  s_heap st2 !! r2 = Some (OObj acc2) → repr_props (s_heap st2) acc2 tps la2 →
  r2 ∉ la2 →
  for_of (λ kv, v' ← sanitizeValue fuel kv.2; assign_prop r1 (KStr kv.1) v') es st1
    = Some (tt, st1') →
  for_of (λ kv, v' ← sanitizeValue fuel kv.2; assign_prop r2 (KStr kv.1) v') es st2
    = Some (tt, st2') →
  inv h0 st1' ∧ inv h0 st2' ∧
  s_seen st1 ⊆ s_seen st1' ∧ s_seen st1' = s_seen st2' ∧
  dom (s_heap st1) ⊆ dom (s_heap st1') ∧ dom (s_heap st2) ⊆ dom (s_heap st2') ∧
  ∃ acc1' acc2' tps' l1 l2,
    s_heap st1' !! r1 = Some (OObj acc1') ∧ repr_props (s_heap st1') acc1' tps' l1 ∧
    s_heap st2' !! r2 = Some (OObj acc2') ∧ repr_props (s_heap st2') acc2' tps' l2 ∧
    Forall (λ l, l ∈ la1 ∨ l ∉ dom (s_heap st1)) l1 ∧
    Forall (λ l, l ∈ la2 ∨ l ∉ dom (s_heap st2)) l2.
Proof.
  induction es as [|[k v] es IHes];
    intros st1 st2 st1' st2' acc1 acc2 tps la1 la2 Hinv1 Hinv2 Hseen Hcl Hfuel
           Hr10 Hr20 Hacc1 Hrep1 Hrl1 Hacc2 Hrep2 Hrl2 Hrun1 Hrun2;
    simpl in Hrun1, Hrun2.
  - inversion Hrun1; inversion Hrun2; subst. split_and!; try done.
    exists acc1, acc2, tps, la1, la2. split_and!; try done;
      apply Forall_forall; auto.
  - inversion Hcl as [|?? Hv Hes]; subst. simpl in Hv.
    apply San_bind_inv in Hrun1 as (u1 & sb1 & Hstep1 & Hrun1).
    apply San_bind_inv in Hstep1 as (y1 & sa1 & Hy1 & Hassign1).
    apply San_bind_inv in Hrun2 as (u2 & sb2 & Hstep2 & Hrun2).
    apply San_bind_inv in Hstep2 as (y2 & sa2 & Hy2 & Hassign2).
    simpl in *.
    assert (unvisited h0 st2 < fuel) as Hfuel2 by (by rewrite <- (unvisited_eq _ _ Hseen)).
    pose proof (sanitizeValue_run_post _ _ _ _ _ Hinv1 Hv Hfuel Hy1) as Hpost1.
    pose proof (sanitizeValue_run_post _ _ _ _ _ Hinv2 Hv Hfuel2 Hy2) as Hpost2.
    destruct (IH _ _ _ _ _ _ _ Hinv1 Hinv2 Hseen Hv Hfuel Hy1 Hy2)
      as (Hseen_a & t & l1 & l2 & Hrv1 & Hrv2 & Hfr1 & Hfr2).
    destruct (entries_step _ _ _ _ _ _ _ _ _ _ _ _ Hinv1 Hr10 Hacc1 Hrep1 Hrl1
                Hpost1 Hrv1 Hfr1 Hassign1)
      as (Hib1 & Hsb1 & Hfb1 & Hdb1 & la1' & Hacc1' & Hrep1' & Hrl1' & Hla1').
    destruct (entries_step _ _ _ _ _ _ _ _ _ _ _ _ Hinv2 Hr20 Hacc2 Hrep2 Hrl2
                Hpost2 Hrv2 Hfr2 Hassign2)
      as (Hib2 & Hsb2 & Hfb2 & Hdb2 & la2' & Hacc2' & Hrep2' & Hrl2' & Hla2').
    destruct Hpost1 as (_ & _ & Hsa1 & _).
    assert (s_seen sb1 = s_seen sb2) as Hseen_b by congruence.
    assert (unvisited h0 sb1 < fuel) as Hfuel_b.
    { rewrite (unvisited_eq sb1 sa1 Hsb1). pose proof (unvisited_mono h0 _ _ Hsa1). lia. }
    destruct (IHes _ _ _ _ _ _ _ _ _ Hib1 Hib2 Hseen_b Hes Hfuel_b Hr10 Hr20
                Hacc1' Hrep1' Hrl1' Hacc2' Hrep2' Hrl2' Hrun1 Hrun2)
      as (Hi1 & Hi2 & Hs1 & Hs12 & Hd1 & Hd2
          & acc1'' & acc2'' & tps'' & m1 & m2 & Ha1 & Hp1 & Ha2 & Hp2 & Hm1 & Hm2).
    split_and!; try done.
    + rewrite Hsb1 in Hs1. set_solver.
    + set_solver.
    + set_solver.
    + exists acc1'', acc2'', tps'', m1, m2. split_and!; try done.
      * eapply Forall_impl; [exact Hm1|]. simpl. intros l [Hl|Hl].
        -- rewrite Forall_forall in Hla1'. by apply Hla1'.
        -- right. intros Hin. apply Hl. by apply Hdb1.
      * eapply Forall_impl; [exact Hm2|]. simpl. intros l [Hl|Hl].
        -- rewrite Forall_forall in Hla2'. by apply Hla2'.
        -- right. intros Hin. apply Hl. by apply Hdb2.
Qed.
End with_fuel.

Lemma same_result_prim st1 st2 v :
  s_seen st1 = s_seen st2 → is_prim v = true → same_result st1 st2 v st1 v st2.
Proof.
  intros Hseen Hp. split; [done|]. exists (TLeaf v), [], [].
  split_and!; by constructor.
Qed.

Lemma sanitizeValue_same fuel : ∀ v st1 st2 v1 st1' v2 st2',
  inv h0 st1 → inv h0 st2 → s_seen st1 = s_seen st2 →
  val_closed h0 v → unvisited h0 st1 < fuel →
  sanitizeValue fuel v st1 = Some (v1, st1') →
  sanitizeValue fuel v st2 = Some (v2, st2') →
  same_result st1 st2 v1 st1' v2 st2'.
Proof.
  induction fuel as [|fuel IH];
    intros v st1 st2 v1 st1' v2 st2' Hinv1 Hinv2 Hseen Hcl Hfuel Hrun1 Hrun2; [done|].
  destruct v as [| |b|n|s|n|id|l];
    try (inversion Hrun1; inversion Hrun2; subst; by apply same_result_prim).
  destruct Hcl as [o Ho].
  destruct st1 as [h1 s1], st2 as [h2 s2]. simpl in Hseen. subst s2.
  assert (h1 !! l = Some o) as Hl1 by (apply (lookup_weaken h0 h1 l o Ho), Hinv1).
  assert (h2 !! l = Some o) as Hl2 by (apply (lookup_weaken h0 h2 l o Ho), Hinv2).
  assert (l ∈ dom h0) as Hldom by (apply elem_of_dom; eauto).
  pose proof (Hwf l o Ho) as Hwfo.
  simpl in Hrun1, Hrun2.
  unfold mbind at 1, San_bind at 1, deref in Hrun1. simpl in Hrun1. rewrite Hl1 in Hrun1.
  unfold mbind at 1, San_bind at 1, deref in Hrun2. simpl in Hrun2. rewrite Hl2 in Hrun2.
  destruct o as [src|name message stack|elems|props].
  - inversion Hrun1; inversion Hrun2; subst. by apply same_result_prim.
  - inversion Hrun1; inversion Hrun2; subst. split; [done|]. simpl.
    eexists _, [fresh (dom h1)], [fresh (dom h2)]. split_and!.
    + eapply repr_obj; [apply lookup_insert_eq|].
      apply repr_props_prims. repeat constructor. by destruct stack.
    + eapply repr_obj; [apply lookup_insert_eq|].
      apply repr_props_prims. repeat constructor. by destruct stack.
    + repeat constructor. apply is_fresh.
    + repeat constructor. apply is_fresh.
  - unfold mbind at 1, San_bind at 1, seen_has in Hrun1. simpl in Hrun1.
    unfold mbind at 1, San_bind at 1, seen_has in Hrun2. simpl in Hrun2.
    case_bool_decide as Hseen.
    { inversion Hrun1; inversion Hrun2; subst. by apply same_result_prim. }
    unfold mbind at 1, San_bind at 1, seen_add in Hrun1. simpl in Hrun1.
    unfold mbind at 1, San_bind at 1, seen_add in Hrun2. simpl in Hrun2.
    apply San_bind_inv in Hrun1 as (vs1 & [ha1 sa1] & Hm1 & Hrun1).
    apply San_bind_inv in Hrun2 as (vs2 & [ha2 sa2] & Hm2 & Hrun2).
    inversion Hrun1; inversion Hrun2; subst. clear Hrun1 Hrun2.
    assert (inv h0 (San h1 ({[l]} ∪ s1))) as Hi1.
    { destruct Hinv1 as [? Hs]. split; [done|]. simpl in *. set_solver. }
    assert (inv h0 (San h2 ({[l]} ∪ s1))) as Hi2.
    { destruct Hinv2 as [? Hs]. split; [done|]. simpl in *. set_solver. }
    assert (unvisited h0 (San h1 ({[l]} ∪ s1)) < fuel) as Hfuel'.
    { pose proof (unvisited_visit h0 h1 s1 l Hldom Hseen). lia. }
    destruct (Array_map_same fuel IH elems _ _ _ _ _ _ Hi1 Hi2 eq_refl Hwfo Hfuel' Hm1 Hm2)
      as (_ & _ & Hf1 & Hf2 & _ & Hs12 & ts & ls1 & ls2 & Hr1 & Hr2 & Hfr1 & Hfr2).
    simpl in *. split; [done|]. simpl.
    exists (TArr ts), (fresh (dom ha1) :: ls1), (fresh (dom ha2) :: ls2). split_and!.
    + eapply repr_arr; [apply lookup_insert_eq|].
      eapply repr_list_frame; [done|].
      eapply Forall_impl; [by eapply repr_list_dom|]. simpl.
      intros l' Hl'. apply lookup_insert_ne. intros <-. by apply is_fresh in Hl'.
    + eapply repr_arr; [apply lookup_insert_eq|].
      eapply repr_list_frame; [done|].
      eapply Forall_impl; [by eapply repr_list_dom|]. simpl.
      intros l' Hl'. apply lookup_insert_ne. intros <-. by apply is_fresh in Hl'.
    + constructor; [|done]. intros Hin.
      apply (is_fresh (dom ha1)). by apply (frame_dom _ _ Hf1).
    + constructor; [|done]. intros Hin.
      apply (is_fresh (dom ha2)). by apply (frame_dom _ _ Hf2).
  - destruct Hwfo as [Hclp Hnd].
    unfold mbind at 1, San_bind at 1, seen_has in Hrun1. simpl in Hrun1.
    unfold mbind at 1, San_bind at 1, seen_has in Hrun2. simpl in Hrun2.
    case_bool_decide as Hseen.
    { inversion Hrun1; inversion Hrun2; subst. by apply same_result_prim. }
    unfold mbind at 1, San_bind at 1, seen_add in Hrun1. simpl in Hrun1.
    unfold mbind at 1, San_bind at 1, seen_add in Hrun2. simpl in Hrun2.
    unfold mbind at 1, San_bind at 1, alloc in Hrun1. simpl in Hrun1.
    unfold mbind at 1, San_bind at 1, alloc in Hrun2. simpl in Hrun2.
    set (r1 := fresh (dom h1)) in *. set (r2 := fresh (dom h2)) in *.
    apply San_bind_inv in Hrun1 as ([] & sb1 & Hm1 & Hrun1).
    apply San_bind_inv in Hrun2 as ([] & sb2 & Hm2 & Hrun2).
    inversion Hrun1; inversion Hrun2; subst. clear Hrun1 Hrun2.
    assert (r1 ∉ dom h1) as Hr1 by apply is_fresh.
    assert (r2 ∉ dom h2) as Hr2 by apply is_fresh.
    assert (r1 ∉ dom h0) as Hr10.
    { intros Hin. apply Hr1. eapply subseteq_dom; [apply Hinv1|done]. }
    assert (r2 ∉ dom h0) as Hr20.
    { intros Hin. apply Hr2. eapply subseteq_dom; [apply Hinv2|done]. }
    set (sa1 := San (<[r1 := OObj []]> h1) ({[l]} ∪ s1)) in *.
    set (sa2 := San (<[r2 := OObj []]> h2) ({[l]} ∪ s1)) in *.
    assert (inv h0 sa1) as Hi1.
    { destruct Hinv1 as [? Hs]. split; simpl in *; [|set_solver].
      apply insert_subseteq_r; [by apply not_elem_of_dom|done]. }
    assert (inv h0 sa2) as Hi2.
    { destruct Hinv2 as [? Hs]. split; simpl in *; [|set_solver].
      apply insert_subseteq_r; [by apply not_elem_of_dom|done]. }
    assert (unvisited h0 sa1 < fuel) as Hfuel'.
    { pose proof (unvisited_visit h0 (<[r1 := OObj []]> h1) s1 l Hldom Hseen).
      unfold unvisited in *. simpl in *. lia. }
    assert (Forall (λ kv : string * val, val_closed h0 kv.2) (Object_entries props))
      as Hes.
    { clear -Hclp. induction props as [|p props IHp]; simpl; [constructor|].
      inversion Hclp; subst. destruct (pkey p); [|by auto].
      destruct (penum p); [|by auto]. constructor; auto. }
    assert (s_heap sa1 !! r1 = Some (OObj [])) as Hb1 by (simpl; apply lookup_insert_eq).
    assert (s_heap sa2 !! r2 = Some (OObj [])) as Hb2 by (simpl; apply lookup_insert_eq).
    destruct (entries_same fuel IH r1 r2 (Object_entries props) sa1 sa2 _ _ [] [] [] [] []
                Hi1 Hi2 eq_refl Hes Hfuel' Hr10 Hr20
                Hb1 (repr_props_nil _) (not_elem_of_nil _)
                Hb2 (repr_props_nil _) (not_elem_of_nil _) Hm1 Hm2)
      as (_ & _ & _ & Hs12 & Hd1 & Hd2
          & acc1 & acc2 & tps & m1 & m2 & Ha1 & Hp1 & Ha2 & Hp2 & Hm1' & Hm2').
    split; [done|].
    exists (TObj tps), (r1 :: m1), (r2 :: m2). split_and!.
    + by eapply repr_obj.
    + by eapply repr_obj.
    + constructor; [done|]. eapply Forall_impl; [exact Hm1'|]. simpl.
      intros l' [Hl'|Hl']; [by apply elem_of_nil in Hl'|].
      intros Hin. apply Hl'. rewrite dom_insert_L. set_solver.
    + constructor; [done|]. eapply Forall_impl; [exact Hm2'|]. simpl.
      intros l' [Hl'|Hl']; [by apply elem_of_nil in Hl'|].
      intros Hin. apply Hl'. rewrite dom_insert_L. set_solver.
Qed.
End same_tree.

(** The copies made of one value in a heap and in a heap that has grown
    since are structurally equal. *)
Lemma sanitizeObject_same (h h2 : heap) v v1 h1' v2 h2' :
  heap_wf h → val_closed h v → h ⊆ h2 →
  sanitizeObject h v = Some (v1, h1') → sanitizeObject h2 v = Some (v2, h2') →
  ∃ t ls1 ls2, repr h1' v1 t ls1 ∧ repr h2' v2 t ls2.
Proof.
  intros Hwf Hcl Hsub Hrun1 Hrun2. unfold sanitizeObject in *.
  destruct (sanitizeValue _ v (San h ∅)) as [[w1 st1]|] eqn:H1; [|done].
  destruct (sanitizeValue _ v (San h2 ∅)) as [[w2 st2]|] eqn:H2; [|done].
  injection Hrun1 as -> <-. injection Hrun2 as -> <-.
  assert (size (dom h) ≤ size (dom h2)) as Hsize.
  { apply subseteq_size. by apply subseteq_dom. }
  apply (sanitizeValue_fuel_mono _ (S (size (dom h2)))) in H1; [|lia].
  assert (inv h (San h ∅)) as Hi1 by (split; [done|simpl; set_solver]).
  assert (inv h (San h2 ∅)) as Hi2 by (split; [done|simpl; set_solver]).
  assert (unvisited h (San h ∅) < S (size (dom h2))) as Hfuel.
  { unfold unvisited. simpl. rewrite difference_empty_L. lia. }
  destruct (sanitizeValue_same h Hwf _ _ _ _ _ _ _ _ Hi1 Hi2 eq_refl Hcl Hfuel H1 H2)
    as (_ & t & ls1 & ls2 & Hr1 & Hr2 & _).
  by exists t, ls1, ls2.
Qed.

(** * The sanitizer keeps the heap well-formed *)

Lemma val_closed_mono h h' v :
  dom h ⊆ dom h' → val_closed h v → val_closed h' v.
Proof.
  intros Hsub. destruct v; simpl; try done.
  intros Hl. apply elem_of_dom, Hsub. by apply elem_of_dom.
Qed.

Lemma obj_wf_mono h h' o : dom h ⊆ dom h' → obj_wf h o → obj_wf h' o.
Proof.
  intros Hsub. destruct o as [| |vs|ps]; simpl; try done.
  - intros Hcl. eapply Forall_impl; [done|]. intros v. by apply val_closed_mono.
  - intros [Hcl Hnd]. split; [|done].
    eapply Forall_impl; [done|]. intros p. by apply val_closed_mono.
Qed.

Lemma heap_wf_insert h l o :
  heap_wf h → obj_wf h o → heap_wf (<[l := o]> h).
Proof.
  intros Hwf Ho.
  assert (dom h ⊆ dom (<[l := o]> h)) as Hsub by (rewrite dom_insert_L; set_solver).
  apply map_Forall_insert_2.
  - by eapply obj_wf_mono.
  - intros l' o' Hl'. eapply obj_wf_mono; [done|]. by eapply Hwf.
Qed.

Lemma set_prop_keys k v ps x :
  x ∈ pkey <$> set_prop k v ps → x = k ∨ x ∈ pkey <$> ps.
Proof.
  induction ps as [|p ps IH]; simpl.
  - intros ->%list_elem_of_singleton. by left.
  - destruct (decide (pkey p = k)) as [<-|Hne]; simpl.
    + intros [->|Hin]%elem_of_cons; [by left|]. right. by apply elem_of_cons; right.
    + intros [->|Hin]%elem_of_cons; [right; by apply elem_of_cons; left|].
      destruct (IH Hin) as [->|Hin']; [by left|]. right. by apply elem_of_cons; right.
Qed.

Lemma set_prop_NoDup k v ps :
  NoDup (pkey <$> ps) → NoDup (pkey <$> set_prop k v ps).
Proof.
  induction ps as [|p ps IH]; simpl.
  - intros _. apply NoDup_singleton.
  - intros [Hnin Hnd]%NoDup_cons.
    destruct (decide (pkey p = k)) as [<-|Hne]; simpl.
    + by apply NoDup_cons.
    + apply NoDup_cons. split; [|by apply IH].
      intros [?|?]%set_prop_keys; [congruence|done].
Qed.

Lemma set_prop_Forall (P : val → Prop) k v ps :
  Forall (λ p, P (pval p)) ps → P v → Forall (λ p, P (pval p)) (set_prop k v ps).
Proof.
  intros Hps Hv. induction Hps as [|p ps Hp Hps IH]; simpl.
  - by repeat constructor.
  - destruct (decide (pkey p = k)); constructor; done.
Qed.

Lemma Array_map_wf (f : val → San_M val) vs :
  (∀ v st v' st', heap_wf (s_heap st) → val_closed (s_heap st) v →
     f v st = Some (v', st') → wf_post st st' ∧ val_closed (s_heap st') v') →
  ∀ st vs' st', heap_wf (s_heap st) → Forall (val_closed (s_heap st)) vs →
    Array_map f vs st = Some (vs', st') →
    wf_post st st' ∧ Forall (val_closed (s_heap st')) vs'.
Proof.
  intros Hf. induction vs as [|v vs IH]; intros st vs' st' Hwf Hcl Hrun; simpl in Hrun.
  - inversion Hrun; subst. by repeat split.
  - inversion Hcl as [|?? Hv Hvs]; subst.
    apply San_bind_inv in Hrun as (y & st1 & H1 & Hrun).
    apply San_bind_inv in Hrun as (ys & st2 & H2 & Hrun).
    inversion Hrun; subst.
    destruct (Hf _ _ _ _ Hwf Hv H1) as [[Hwf1 Hd1] Hy].
    assert (Forall (val_closed (s_heap st1)) vs) as Hvs1.
    { eapply Forall_impl; [done|]. intros x. by apply val_closed_mono. }
    destruct (IH _ _ _ Hwf1 Hvs1 H2) as [[Hwf2 Hd2] Hys].
    split; [split; [done|set_solver]|].
    constructor; [|done]. by eapply val_closed_mono.
Qed.

Lemma for_of_wf {A} (f : A → San_M unit) (P : SanState → A → Prop) xs :
  (∀ x st u st', heap_wf (s_heap st) → P st x → f x st = Some (u, st') → wf_post st st') →
  (∀ x st st', dom (s_heap st) ⊆ dom (s_heap st') → P st x → P st' x) →
  ∀ st u st', heap_wf (s_heap st) → Forall (P st) xs →
    for_of f xs st = Some (u, st') → wf_post st st'.
Proof.
  intros Hf HP. induction xs as [|x xs IH]; intros st u st' Hwf Hxs Hrun; simpl in Hrun.
  - inversion Hrun; subst. by split.
  - inversion Hxs as [|?? Hx Hxs']; subst.
    apply San_bind_inv in Hrun as (y & st1 & H1 & Hrun).
    destruct (Hf _ _ _ _ Hwf Hx H1) as [Hwf1 Hd1].
    assert (Forall (P st1) xs) as Hxs1.
    { eapply Forall_impl; [done|]. intros a. by apply HP. }
    destruct (IH _ _ _ Hwf1 Hxs1 Hrun) as [Hwf2 Hd2].
    split; [done|set_solver].
Qed.

Lemma sanitizeValue_wf fuel : ∀ v st v' st',
  heap_wf (s_heap st) → val_closed (s_heap st) v →
  sanitizeValue fuel v st = Some (v', st') →
  wf_post st st' ∧ val_closed (s_heap st') v'.
Proof.
  induction fuel as [|fuel IH]; intros v st v' st' Hwf Hv Hrun; [done|].
  destruct v as [| |b|n|s|n|id|l]; simpl in Hrun;
    try (inversion Hrun; subst; by repeat split).
  apply San_bind_inv in Hrun as (o & st1 & Hd & Hrun).
  unfold deref in Hd. destruct (s_heap st !! l) as [o'|] eqn:Hl; [|done].
  inversion Hd; subst. pose proof (Hwf _ _ Hl) as Ho.
  destruct st1 as [h s]. simpl in *.
  assert (∀ o2, dom h ⊆ dom (<[fresh (dom h) := o2]> h)) as Hdom.
  { intros o2. rewrite dom_insert_L. set_solver. }
  destruct o as [src|name message stack|elems|props].
  - inversion Hrun; subst. by repeat split.
  - inversion Hrun; subst. unfold wf_post. simpl. split; [split|].
    + apply heap_wf_insert; [done|]. simpl. split.
      * repeat constructor. by destruct stack.
      * apply (bool_decide_unpack _). by vm_compute.
    + apply Hdom.
    + by rewrite lookup_insert_eq.
  - apply San_bind_inv in Hrun as (b & sa & Hb & Hrun). inversion Hb; subst.
    case_bool_decide; [inversion Hrun; subst; by repeat split|].
    apply San_bind_inv in Hrun as (u & sb & Ha & Hrun). inversion Ha; subst.
    apply San_bind_inv in Hrun as (vs' & sc & Hm & Hrun).
    apply San_bind_inv in Hrun as (r & sd & Hal & Hrun).
    inversion Hal; subst. inversion Hrun; subst. simpl.
    apply (Array_map_wf _ _ IH) in Hm as [[Hwf' Hd'] Hcl']; [|done|done].
    unfold wf_post. simpl in *. split; [split|].
    + by apply heap_wf_insert.
    + etrans; [done|]. rewrite dom_insert_L. set_solver.
    + by rewrite lookup_insert_eq.
  - destruct Ho as [Hcl Hnd].
    apply San_bind_inv in Hrun as (b & sa & Hb & Hrun). inversion Hb; subst.
    case_bool_decide; [inversion Hrun; subst; by repeat split|].
    apply San_bind_inv in Hrun as (u & sb & Ha & Hrun). inversion Ha; subst.
    apply San_bind_inv in Hrun as (r & sc & Hal & Hrun). inversion Hal; subst.
    apply San_bind_inv in Hrun as (u' & sd & Hm & Hrun). inversion Hrun; subst.
    set (r := fresh (dom h)) in *.
    apply (for_of_wf _ (λ st kv, val_closed (s_heap st) kv.2 ∧ r ∈ dom (s_heap st)))
      in Hm as [Hwf' Hd'].
    + unfold wf_post. simpl in *. split; [split; [done|]|].
      * etrans; [apply (Hdom (OObj []))|done].
      * simpl. apply elem_of_dom, Hd'. simpl. rewrite dom_insert_L. set_solver.
    + intros [k v] sta ub stb Hwfa [Hva Hra] Hstep. simpl in *.
      apply San_bind_inv in Hstep as (w & stc & Hw & Hstep).
      destruct (IH _ _ _ _ Hwfa Hva Hw) as [[Hwfc Hdc] Hwc].
      unfold assign_prop in Hstep.
      destruct (s_heap stc !! r) as [[| | |ps]|] eqn:Hr; try done.
      inversion Hstep; subst. unfold wf_post. simpl.
      destruct (Hwfc _ _ Hr) as [Hpcl Hpnd].
      split.
      * apply heap_wf_insert; [done|]. split.
        -- by apply (set_prop_Forall (val_closed (s_heap stc))).
        -- by apply set_prop_NoDup.
      * etrans; [done|]. rewrite dom_insert_L. set_solver.
    + intros [k v] sta stb Hsub [Hva Hra]. split; [by eapply val_closed_mono|set_solver].
    + simpl. apply heap_wf_insert; [done|]. split; constructor.
    + simpl. clear -Hcl. induction props as [|p props IHp]; simpl; [constructor|].
      inversion Hcl; subst.
      assert (∀ v, val_closed h v →
                val_closed (<[r := OObj []]> h) v ∧ r ∈ dom (<[r := OObj []]> h)) as Hok.
      { intros v Hv. split; [|rewrite dom_insert_L; set_solver].
        eapply val_closed_mono; [|done]. rewrite dom_insert_L. set_solver. }
      destruct (pkey p); [|by auto]. destruct (penum p); [|by auto].
      constructor; auto.
Qed.

Lemma sanitizeObject_wf h v v' h' :
  heap_wf h → val_closed h v → sanitizeObject h v = Some (v', h') →
  heap_wf h' ∧ dom h ⊆ dom h' ∧ val_closed h' v'.
Proof.
  intros Hwf Hv. unfold sanitizeObject.
  destruct (sanitizeValue _ _ _) as [[v0 st]|] eqn:Hrun; [|done].
  intros [= <- <-].
  by destruct (sanitizeValue_wf _ _ (San h ∅) _ _ Hwf Hv Hrun) as [[? ?] ?].
Qed.

(** * Strings *)

Lemma starts_with_app p s : starts_with p (p +:+ s) = true.
Proof.
  induction p as [|c p IH]; simpl; [done|].
  by rewrite Ascii.eqb_refl, IH.
Qed.

Lemma starts_with_app_l p a b :
  starts_with p a = true → starts_with p (a +:+ b) = true.
Proof.
  revert a. induction p as [|c p IH]; intros a; simpl; [done|].
  destruct a as [|d a]; simpl; [done|].
  intros [-> Hp]%andb_prop. simpl. by apply IH.
Qed.

Lemma includes_app_l n a b : includes n a = true → includes n (a +:+ b) = true.
Proof.
  induction a as [|c a IH].
  - simpl. rewrite orb_false_r. intros Hs. destruct n; [|done]. by destruct b.
  - simpl. intros [Hs|Hi]%orb_prop.
    + change (String c (a +:+ b)) with (String c a +:+ b).
      by rewrite (starts_with_app_l _ _ _ Hs).
    + rewrite (IH Hi). apply orb_true_r.
Qed.

Lemma includes_app_r n a b : includes n b = true → includes n (a +:+ b) = true.
Proof.
  intros Hb. induction a as [|c a IH]; simpl; [done|].
  rewrite IH. apply orb_true_r.
Qed.

Lemma includes_refl_app n b : includes n (n +:+ b) = true.
Proof.
  destruct (n +:+ b) eqn:E; simpl; rewrite <- E, starts_with_app; done.
Qed.

Lemma replace_newlines_app a b :
  replace_newlines (a +:+ b) = replace_newlines a +:+ replace_newlines b.
Proof. induction a as [|c a IH]; simpl; [done|]. by rewrite IH. Qed.

Lemma replace_newlines_no_newline s :
  newline ∉ list_ascii_of_string (replace_newlines s).
Proof.
  induction s as [|c s IH]; simpl; [apply not_elem_of_nil|].
  apply not_elem_of_cons. split; [|done].
  destruct (Ascii.eqb c newline) eqn:E; [done|].
  apply Ascii.eqb_neq in E. congruence.
Qed.

Lemma replace_newlines_id s :
  newline ∉ list_ascii_of_string s → replace_newlines s = s.
Proof.
  induction s as [|c s IH]; simpl; [done|].
  intros [Hc Hs]%not_elem_of_cons.
  rewrite IH by done. destruct (Ascii.eqb c newline) eqn:E; [|done].
  apply Ascii.eqb_eq in E. congruence.
Qed.

Lemma starts_with_replace p s :
  starts_with p s = true →
  starts_with (replace_newlines p) (replace_newlines s) = true.
Proof.
  revert s. induction p as [|c p IH]; intros s; simpl; [done|].
  destruct s as [|d s]; simpl; [done|].
  intros [->%Ascii.eqb_eq Hp]%andb_prop. by rewrite Ascii.eqb_refl, IH.
Qed.

Lemma includes_replace n s :
  includes n s = true → includes (replace_newlines n) (replace_newlines s) = true.
Proof.
  induction s as [|c s IH].
  - simpl. rewrite !orb_false_r. apply (starts_with_replace n EmptyString).
  - intros [Hs|Hi]%orb_prop.
    + apply (starts_with_replace n (String c s)) in Hs.
      simpl in *. by rewrite Hs.
    + simpl. rewrite (IH Hi). apply orb_true_r.
Qed.

(** * Properties assigned by [Object.assign] *)

Lemma get_prop_set_prop_eq k v ps : get_prop k (set_prop k v ps) = Some v.
Proof.
  unfold get_prop. induction ps as [|p ps IH]; simpl.
  - by rewrite bool_decide_eq_true_2.
  - destruct (decide (pkey p = k)) as [Heq|Hne]; simpl.
    + by rewrite bool_decide_eq_true_2.
    + by rewrite bool_decide_eq_false_2.
Qed.

Lemma get_prop_set_prop_ne k k' v ps :
  k ≠ k' → get_prop k' (set_prop k v ps) = get_prop k' ps.
Proof.
  intros Hne. unfold get_prop. induction ps as [|p ps IH]; simpl.
  - by rewrite bool_decide_eq_false_2.
  - destruct (decide (pkey p = k)) as [Heq|Hne']; simpl.
    + rewrite !bool_decide_eq_false_2; [done|congruence|congruence].
    + case_bool_decide; [done|]. apply IH.
Qed.

Lemma get_prop_assign_all_None k kvs : ∀ ps,
  k ∉ kvs.*1 → get_prop k (assign_all ps kvs) = get_prop k ps.
Proof.
  induction kvs as [|[k0 v0] kvs IH]; intros ps Hnin; simpl; [done|].
  simpl in Hnin. apply not_elem_of_cons in Hnin as [Hne Hnin].
  rewrite IH by done. by apply get_prop_set_prop_ne.
Qed.

Lemma get_prop_assign_all_Some k v kvs : ∀ ps,
  NoDup kvs.*1 → (k, v) ∈ kvs → get_prop k (assign_all ps kvs) = Some v.
Proof.
  induction kvs as [|[k0 v0] kvs IH]; intros ps Hnd Hin; simpl.
  - by apply elem_of_nil in Hin.
  - simpl in Hnd. apply NoDup_cons in Hnd as [Hk0 Hnd].
    apply elem_of_cons in Hin as [[= -> ->]|Hin].
    + rewrite get_prop_assign_all_None by done. apply get_prop_set_prop_eq.
    + by apply IH.
Qed.

Lemma get_prop_Some_elem k v ps :
  get_prop k ps = Some v → ∃ p, p ∈ ps ∧ pkey p = k ∧ pval p = v.
Proof.
  unfold get_prop. induction ps as [|p ps IH]; simpl; [done|].
  case_bool_decide as Hk; simpl.
  - intros [= <-]. exists p. split_and!; [left|done|done].
  - intros (q & Hq & ?)%IH. exists q. split; [by right|done].
Qed.

Lemma get_prop_None_keys k ps : get_prop k ps = None → k ∉ pkey <$> ps.
Proof.
  unfold get_prop. induction ps as [|p ps IH]; simpl; [intros _; apply not_elem_of_nil|].
  case_bool_decide as Hk; simpl; [done|].
  intros Hn. apply not_elem_of_cons. split; [congruence|by apply IH].
Qed.

(** * The copy of an object is an object *)

Lemma for_of_assign_object {A} r (f : A → San_M val) (key_of : A → string) es :
  ∀ st st' acc,
    s_heap st !! r = Some (OObj acc) →
    for_of (λ kv, v' ← f kv; assign_prop r (KStr (key_of kv)) v') es st
      = Some (tt, st') →
    ∃ acc', s_heap st' !! r = Some (OObj acc').
Proof.
  induction es as [|kv es IH]; intros st st' acc Hr Hrun; simpl in Hrun.
  - inversion Hrun; subst. eauto.
  - apply San_bind_inv in Hrun as (u & st1 & Hstep & Hrun).
    apply San_bind_inv in Hstep as (v' & sta & Hf & Hassign).
    unfold assign_prop in Hassign.
    destruct (s_heap sta !! r) as [[| | |ps]|]; try done.
    inversion Hassign; subst.
    eapply IH; [|done]. simpl. apply lookup_insert_eq.
Qed.

Lemma sanitizeObject_record (h : heap) l ps v' h' :
  h !! l = Some (OObj ps) → sanitizeObject h (VRef l) = Some (v', h') →
  ∃ r sps, v' = VRef r ∧ (r ∉ dom h) ∧ h' !! r = Some (OObj sps).
Proof.
  intros Hl. unfold sanitizeObject.
  rewrite (sanitizeValue_enter_object _ _ _ _ _ Hl) by set_solver.
  destruct (for_of _ _ _) as [[[] st']|] eqn:Hloop; [|done].
  intros [= <- <-].
  eapply (for_of_assign_object _ (λ kv, sanitizeValue _ kv.2) fst) in Hloop
    as [acc' Hacc]; [|simpl; apply lookup_insert_eq].
  exists (fresh (dom h)), acc'. split_and!; [done|apply is_fresh|done].
Qed.

(** The properties of a copy are enumerable, string-keyed and distinct. *)
Lemma repr_props_plain h ps tps ls :
  repr_props h ps tps ls → forallb plain_prop tps = true →
  Forall (λ p, penum p = true ∧ is_str_key (pkey p) = true) ps.
Proof.
  induction 1 as [|p ps t tps ls1 ls2 _ _ IH]; simpl; [constructor|].
  unfold plain_prop at 1; simpl.
  intros [[[Hk He]%andb_prop _]%andb_prop Hrest]%andb_prop.
  constructor; [done|by apply IH].
Qed.

Lemma own_enumerable_record (h : heap) r sps :
  h !! r = Some (OObj sps) → Forall (λ p, penum p = true ∧ is_str_key (pkey p) = true) sps →
  own_enumerable h (VRef r) = (λ p, (pkey p, pval p)) <$> sps.
Proof.
  intros Hr Hall. simpl. rewrite Hr. f_equal. clear Hr.
  induction Hall as [|p ps [He _] _ IH]; [done|].
  rewrite filter_cons_True by done. by rewrite IH.
Qed.

(** * The sanitizer: what the specification states *)







(** The same on an object with a symbol-keyed and a non-enumerable
    property: the copy has neither. *)
Example sanitizeObject_drops_hidden :
  let h := {[ 1 := OObj [Prop_ (KStr "visible") true (VStr "enum");
                         Prop_ (KStr "hidden") false (VStr "non-enum");
                         Prop_ (KSym 0) true (VStr "symbol value")] ]} in
  ∃ r h', sanitizeObject h (VRef 1) = Some (VRef r, h') ∧
          h' !! r = Some (OObj [Prop_ (KStr "visible") true (VStr "enum")]).
Proof. eexists _, _. split; vm_compute; reflexivity. Qed.

(** A callable becomes its text, an [Error] inside an object becomes a
    record, an array is copied element by element. *)
Example sanitizeObject_function_error_array :
  let h := {[ 1 := OObj [Prop_ (KStr "func") true (VRef 2);
                         Prop_ (KStr "error") true (VRef 3);
                         Prop_ (KStr "array") true (VRef 4)];
              2 := OFun "() => 'test function'";
              3 := OErr "Error" "Test error" (Some "Error: Test error at f (t.js:1:1)");
              4 := OArr [VNum 1; VNum 2; VRef 5];
              5 := OObj [Prop_ (KStr "nested") true (VStr "value")] ]} in
  ∃ r re ra rn h',
    sanitizeObject h (VRef 1) = Some (VRef r, h') ∧
    h' !! r = Some (OObj [Prop_ (KStr "func") true (VStr "() => 'test function'");
                          Prop_ (KStr "error") true (VRef re);
                          Prop_ (KStr "array") true (VRef ra)]) ∧
    h' !! re = Some (OObj [Prop_ (KStr "name") true (VStr "Error");
                           Prop_ (KStr "message") true (VStr "Test error");
                           Prop_ (KStr "stack") true
                             (VStr "Error: Test error at f (t.js:1:1)")]) ∧
    h' !! ra = Some (OArr [VNum 1; VNum 2; VRef rn]) ∧
    h' !! rn = Some (OObj [Prop_ (KStr "nested") true (VStr "value")]).
Proof. eexists _, _, _, _, _. split_and!; vm_compute; reflexivity. Qed.

(** C5. An object or array that is in [seen] comes back as the string
    ["[Circular]"], whether or not the reference closes a cycle, and [seen]
    is never made smaller: of two references to one object in
    [{a: s, b: s}] the first is copied and the second is replaced. *)
Theorem seen_objects_become_Circular :
  (∀ fuel st l o,
     s_heap st !! l = Some o → is_container o = true → l ∈ s_seen st →
     sanitizeValue (S fuel) (VRef l) st = Some (VStr Circular, st)) ∧
  (∀ fuel v st v' st',
     sanitizeValue fuel v st = Some (v', st') → s_seen st ⊆ s_seen st') ∧
  (∀ fuel st l o v' st',
     s_heap st !! l = Some o → is_container o = true →
     sanitizeValue fuel (VRef l) st = Some (v', st') → l ∈ s_seen st') ∧
  (∀ (h : heap) lx ls o,
     heap_wf h → lx ≠ ls →
     h !! lx = Some (OObj [Prop_ (KStr "a") true (VRef ls);
                           Prop_ (KStr "b") true (VRef ls)]) →
     h !! ls = Some o → is_container o = true →
     ∃ r ra h',
       sanitizeObject h (VRef lx) = Some (VRef r, h') ∧
       h' !! r = Some (OObj [Prop_ (KStr "a") true (VRef ra);
                             Prop_ (KStr "b") true (VStr Circular)])).
Proof.
  split_and!.
  - intros fuel st l o. apply sanitizeValue_seen.
  - apply sanitizeValue_seen_mono.
  - intros fuel st l o v' st' Hl Hc Hrun.
    destruct (decide (l ∈ s_seen st)) as [Hin|Hnin].
    + by apply (sanitizeValue_seen_mono _ _ _ _ _ Hrun).
    + by destruct (sanitizeValue_first_visit _ _ _ _ _ _ Hl Hc Hnin Hrun).
  - intros h lx ls o Hwf Hne Hx Hs Hc.
    unfold sanitizeObject.
    assert (lx ∈ dom h) as Hxdom by (apply elem_of_dom; eauto).
    set (r := fresh (dom h)).
    assert (r ∉ dom h) as Hr by apply is_fresh.
    set (st1 := San (<[r := OObj []]> h) ({[lx]} ∪ ∅)).
    assert (inv h st1) as Hinv1.
    { split; simpl; [|set_solver].
      apply insert_subseteq_r; [by apply not_elem_of_dom|done]. }
    assert (unvisited h st1 < size (dom h)) as Hfuel.
    { unfold unvisited. simpl. apply subset_size. set_solver. }
    assert (val_closed h (VRef ls)) as Hcl by (simpl; eauto).
    destruct (sanitizeValue_spec h Hwf _ _ _ Hinv1 Hcl Hfuel)
      as (va & st2 & Hrun_a & Hinv2 & Hf2 & Hs2 & _).
    assert (r ≠ ls) as Hrls.
    { intros ->. apply Hr. apply elem_of_dom. eauto. }
    assert (s_heap st1 !! ls = Some o) as Hs1.
    { simpl. by rewrite lookup_insert_ne. }
    assert (ls ∉ s_seen st1) as Hns1 by (simpl; set_solver).
    destruct (sanitizeValue_first_visit _ _ _ _ _ _ Hs1 Hc Hns1 Hrun_a)
      as (Hseen2 & ra & ->).
    assert (r ∈ dom (s_heap st1)) as Hrdom1.
    { simpl. rewrite dom_insert_L. set_solver. }
    assert (s_heap st2 !! r = Some (OObj [])) as Hr2.
    { rewrite Hf2 by done. simpl. apply lookup_insert_eq. }
    set (pa := Prop_ (KStr "a") true (VRef ra)).
    set (st3 := San (<[r := OObj [pa]]> (s_heap st2)) (s_seen st2)).
    assert (s_heap st3 !! ls = Some o) as Hs3.
    { simpl. rewrite lookup_insert_ne by done. rewrite Hf2; [done|].
      apply elem_of_dom. eauto. }
    destruct (size (dom h)) as [|n] eqn:Hn; [lia|].
    pose proof (sanitizeValue_seen n ls o st3 Hs3 Hc Hseen2) as Hrun_b.
    exists r, ra, (<[r := OObj [pa; Prop_ (KStr "b") true (VStr Circular)]]> (s_heap st3)).
    split; [|apply lookup_insert_eq].
    set (st4 := San (<[r := OObj [pa; Prop_ (KStr "b") true (VStr Circular)]]> (s_heap st3))
                    (s_seen st3)).
    assert (for_of (λ kv : string * val,
                     v' ← sanitizeValue (S n) kv.2; assign_prop r (KStr kv.1) v')
                  (Object_entries [Prop_ (KStr "a") true (VRef ls);
                                   Prop_ (KStr "b") true (VRef ls)]) st1
            = Some (tt, st4)) as Hloop.
    { simpl. rewrite (San_bind_Some _ _ st1 tt st3).
      - rewrite (San_bind_Some _ _ st3 tt st4); [done|].
        rewrite (San_bind_Some _ _ _ _ _ Hrun_b). unfold assign_prop. simpl.
        by rewrite lookup_insert_eq.
      - rewrite (San_bind_Some _ _ _ _ _ Hrun_a). unfold assign_prop. by rewrite Hr2. }
    rewrite (sanitizeValue_enter_object _ _ _ _ _ Hx) by set_solver.
    fold r. fold st1. by rewrite Hloop.
Qed.

Lemma seen_objects_become_Circular_witness :
  heap_wf h_dag ∧ h_dag !! 2 = Some (OObj []) ∧
  h_dag !! 1 = Some (OObj [Prop_ (KStr "a") true (VRef 2);
                           Prop_ (KStr "b") true (VRef 2)]) ∧
  ∃ r ra h',
    sanitizeObject h_dag (VRef 1) = Some (VRef r, h') ∧
    h' !! r = Some (OObj [Prop_ (KStr "a") true (VRef ra);
                          Prop_ (KStr "b") true (VStr Circular)]).
Proof.
  assert (heap_wf h_dag) as Hwf.
  { apply (bool_decide_unpack _). vm_compute. exact I. }
  split; [exact Hwf|]. split; [reflexivity|]. split; [reflexivity|].
  destruct seen_objects_become_Circular as (_ & _ & _ & Hdag).
  apply (Hdag h_dag 1 2 (OObj []) Hwf); [lia|reflexivity..].
Defined.

Lemma size_dom_pos (h : heap) l o : h !! l = Some o → ∃ n, size (dom h) = S n.
Proof.
  intros Hl. destruct (size (dom h)) as [|n] eqn:Hn; [|eauto].
  apply size_empty_iff in Hn. assert (l ∈ dom h) by (apply elem_of_dom; eauto).
  set_solver.
Qed.

(** C7. For an object [{a: 1, self: <the object itself>}], in whatever heap
    and at whatever address, [sanitizeObject] returns a new object
    [{a: 1, self: "[Circular]"}]; the object given is left as it was. *)
Theorem sanitizeObject_self_reference (h : heap) (l : loc) :
  h !! l = Some (OObj [Prop_ (KStr "a") true (VNum 1);
                       Prop_ (KStr "self") true (VRef l)]) →
  ∃ r h', sanitizeObject h (VRef l) = Some (VRef r, h') ∧
    h' !! r = Some (OObj [Prop_ (KStr "a") true (VNum 1);
                          Prop_ (KStr "self") true (VStr Circular)]) ∧
    r ≠ l ∧ h' !! l = h !! l.
Proof.
  intros Hl. unfold sanitizeObject.
  destruct (size_dom_pos h l _ Hl) as [n ->].
  set (r := fresh (dom h)).
  assert (r ≠ l) as Hrl.
  { intros Heq. pose proof (is_fresh (dom h)) as Hf. fold r in Hf. rewrite Heq in Hf.
    apply Hf. apply elem_of_dom. eauto. }
  set (pa := Prop_ (KStr "a") true (VNum 1)).
  set (st1 := San (<[r := OObj []]> h) ({[l]} ∪ ∅)).
  set (st2 := San (<[r := OObj [pa]]> (s_heap st1)) (s_seen st1)).
  set (st3 := San (<[r := OObj [pa; Prop_ (KStr "self") true (VStr Circular)]]> (s_heap st2))
                  (s_seen st2)).
  assert (s_heap st2 !! l = Some (OObj [pa; Prop_ (KStr "self") true (VRef l)])) as Hl2.
  { simpl. by rewrite !lookup_insert_ne. }
  assert (l ∈ s_seen st2) as Hseen by (simpl; set_solver).
  pose proof (sanitizeValue_seen n l _ st2 Hl2 eq_refl Hseen) as Hself.
  assert (for_of (λ kv : string * val,
                   v' ← sanitizeValue (S n) kv.2; assign_prop r (KStr kv.1) v')
                (Object_entries [pa; Prop_ (KStr "self") true (VRef l)]) st1
          = Some (tt, st3)) as Hloop.
  { simpl. rewrite (San_bind_Some _ _ st1 tt st2).
    - rewrite (San_bind_Some _ _ st2 tt st3); [done|].
      rewrite (San_bind_Some _ _ _ _ _ Hself). unfold assign_prop. simpl.
      by rewrite lookup_insert_eq.
    - unfold mbind, San_bind, mret, San_ret, assign_prop. simpl.
      by rewrite lookup_insert_eq. }
  rewrite (sanitizeValue_enter_object _ _ _ _ _ Hl) by set_solver.
  fold r. fold st1. unfold pa in Hloop. rewrite Hloop.
  exists r, (s_heap st3). split_and!; [done| |done|].
  - simpl. by rewrite lookup_insert_eq.
  - simpl. by rewrite !lookup_insert_ne.
Qed.

Lemma sanitizeObject_self_reference_witness :
  h_self !! 5 = Some (OObj [Prop_ (KStr "a") true (VNum 1);
                            Prop_ (KStr "self") true (VRef 5)]) ∧
  ∃ r h', sanitizeObject h_self (VRef 5) = Some (VRef r, h') ∧
    h' !! r = Some (OObj [Prop_ (KStr "a") true (VNum 1);
                          Prop_ (KStr "self") true (VStr Circular)]) ∧
    r ≠ 5 ∧ h' !! 5 = h_self !! 5.
Proof.
  split; [reflexivity|].
  apply (sanitizeObject_self_reference h_self 5). reflexivity.
Defined.

(** C10. An [Error] instance becomes a new object with the three
    properties [name], [message] and [stack] and the values read from it,
    [stack] as it is (so with every ["at "] it has).  The rule comes before
    the one for objects: [seen] is neither asked nor changed. *)
Theorem sanitize_native_error (h : heap) (l : loc) name message stack :
  h !! l = Some (OErr name message stack) →
  let record := OObj [Prop_ (KStr "name") true (VStr name);
                      Prop_ (KStr "message") true (VStr message);
                      Prop_ (KStr "stack") true (from_option VStr VUndef stack)] in
  sanitizeObject h (VRef l) = Some (VRef (fresh (dom h)), <[fresh (dom h) := record]> h) ∧
  (∀ fuel s,
     sanitizeValue (S fuel) (VRef l) (San h s)
     = Some (VRef (fresh (dom h)), San (<[fresh (dom h) := record]> h) s)) ∧
  (∀ trace, stack = Some trace → includes "at " trace = true →
     ∃ ps out, record = OObj ps ∧ get_prop (KStr "stack") ps = Some (VStr out) ∧
               out = trace ∧ includes "at " out = true).
Proof.
  intros Hl record.
  assert (∀ fuel s,
     sanitizeValue (S fuel) (VRef l) (San h s)
     = Some (VRef (fresh (dom h)), San (<[fresh (dom h) := record]> h) s)) as Hrule.
  { intros fuel s. simpl. unfold mbind at 1, San_bind at 1, deref. simpl.
    by rewrite Hl. }
  split_and!.
  - unfold sanitizeObject. by rewrite Hrule.
  - done.
  - intros trace -> Hat. eexists _, trace. split_and!; done.
Qed.

Lemma sanitize_native_error_witness :
  h_err !! 3 = Some (OErr "Error" "boom" (Some "Error: boom at f (x.js:1:1)")) ∧
  sanitizeObject h_err (VRef 3)
  = Some (VRef (fresh (dom h_err)),
          <[fresh (dom h_err) :=
              OObj [Prop_ (KStr "name") true (VStr "Error");
                    Prop_ (KStr "message") true (VStr "boom");
                    Prop_ (KStr "stack") true (VStr "Error: boom at f (x.js:1:1)")]]> h_err).
Proof.
  split; [reflexivity|].
  apply (sanitize_native_error h_err 3 "Error" "boom" (Some "Error: boom at f (x.js:1:1)")).
  reflexivity.
Defined.

(** * The Logger: what the specification states *)

Lemma level_le_ERROR level : level_le level ERROR = bool_decide (level = ERROR).
Proof. by destruct level. Qed.

Lemma level_ge_ERROR level : level_ge level ERROR = true.
Proof. by destruct level. Qed.

Section logger_properties.
Context `{Runtime}.

(** What [formatMessage] does with an object: two copies are made, the
    text of the first is the [message] of the envelope, the properties
    of the second are assigned over the envelope. *)
Lemma formatMessage_structured ms level (l : loc) ps (w : World) :
  heap_wf (w_heap w) → w_heap w !! l = Some (OObj ps) →
  ∃ sv h1,
    sanitizeObject (w_heap w) (VRef l) = Some (sv, h1) ∧
    ∀ text, JSON_stringify h1 sv = Some text →
      ∃ r h4 r' sps,
        formatMessage ms level (VRef l) w = Some (r, set_heap h4 w) ∧
        (∃ h2 h3, sanitizeObject h2 (VRef l) = Some (VRef r', h3) ∧
                  heap_wf h2 ∧
                  (∀ l', l' ∈ dom (w_heap w) → h2 !! l' = w_heap w !! l') ∧
                  h3 !! r' = Some (OObj sps) ∧
                  ∃ t ls1 ls2, repr h1 sv t ls1 ∧ repr h3 (VRef r') t ls2) ∧
        h4 !! r' = Some (OObj sps) ∧
        NoDup (pkey <$> sps) ∧
        h4 !! r = Some (OObj (assign_all (envelope ms level (text_val text) w)
                                         ((λ p, (pkey p, pval p)) <$> sps))).
Proof.
  intros Hwf Hl.
  assert (val_closed (w_heap w) (VRef l)) as Hcl by (simpl; eauto).
  destruct (sanitizeObject_total _ _ Hwf Hcl) as (sv & h1 & Hrun1 & Hf1 & _).
  destruct (sanitizeObject_wf _ _ _ _ Hwf Hcl Hrun1) as (Hwf1 & Hd1 & _).
  exists sv, h1. split; [done|]. intros text Htext.
  set (env := envelope ms level (text_val text) w).
  set (r := fresh (dom h1)).
  set (h2 := <[r := OObj env]> h1).
  assert (l ∈ dom (w_heap w)) as Hldom by (apply elem_of_dom; eauto).
  assert (r ∉ dom h1) as Hr1 by apply is_fresh.
  assert (∀ l', l' ∈ dom (w_heap w) → h2 !! l' = w_heap w !! l') as Hsame.
  { intros l' Hl'. unfold h2. rewrite lookup_insert_ne; [by apply Hf1|].
    intros <-. apply Hr1. by apply Hd1. }
  assert (h2 !! l = Some (OObj ps)) as Hl2 by (by rewrite Hsame).
  assert (heap_wf h2) as Hwf2.
  { apply heap_wf_insert; [done|]. split.
    - unfold env, envelope. repeat constructor. simpl. by destruct text.
    - apply (bool_decide_unpack _). by vm_compute. }
  assert (val_closed h2 (VRef l)) as Hcl2 by (simpl; eauto).
  destruct (sanitizeObject_total _ _ Hwf2 Hcl2)
    as (sv' & h3 & Hrun2 & Hf2 & t & ls & Hrepr & _ & Hplain).
  destruct (sanitizeObject_wf _ _ _ _ Hwf2 Hcl2 Hrun2) as (Hwf3 & Hd2 & _).
  destruct (sanitizeObject_record _ _ _ _ _ Hl2 Hrun2) as (r' & sps & -> & Hr'2 & Hr'3).
  assert (r ∈ dom h2) as Hrdom2 by (unfold h2; rewrite dom_insert_L; set_solver).
  assert (h3 !! r = Some (OObj env)) as Hr3.
  { rewrite Hf2 by done. unfold h2. apply lookup_insert_eq. }
  assert (r ≠ r') as Hne by (intros ->; done).
  assert (Forall (λ p, penum p = true ∧ is_str_key (pkey p) = true) sps) as Hall.
  { inversion Hrepr; subst; simplify_eq. simpl in Hplain.
    by eapply repr_props_plain. }
  pose proof (own_enumerable_record _ _ _ Hr'3 Hall) as Hown.
  set (h4 := <[r := OObj (assign_all env ((λ p, (pkey p, pval p)) <$> sps))]> h3).
  exists r, h4, r', sps. split_and!.
  - unfold formatMessage. simpl. rewrite Hrun1. simpl. rewrite Htext. simpl.
    fold r. fold env. fold h2. rewrite Hrun2. simpl.
    unfold Object_assign. rewrite Hr3. rewrite Hown. done.
  - exists h2, h3. split_and!; try done.
    eapply (sanitizeObject_same (w_heap w) h2); try done.
    apply map_subseteq_spec. intros l' o' Hl'. rewrite Hsame; [done|].
    apply elem_of_dom. eauto.
  - unfold h4. by rewrite lookup_insert_ne.
  - by destruct (Hwf3 _ _ Hr'3).
  - unfold h4. apply lookup_insert_eq.
Qed.

(** C3. An active method called with an object: the [message] of the
    record is the JSON text of a sanitized copy, every property of a
    sanitized copy (a second one, structurally equal to the first) is
    assigned to the record, over the envelope's own where the keys meet,
    and the line goes to [console.error] exactly when the severity is
    [ERROR]. *)
Theorem structured_input_is_merged ms level (l : loc) ps (w : World) :
  heap_wf (w_heap w) → w_heap w !! l = Some (OObj ps) →
  ∃ sv h1,
    sanitizeObject (w_heap w) (VRef l) = Some (sv, h1) ∧
    ∀ text, JSON_stringify h1 sv = Some text →
      ∃ r w1 rec sps,
        formatMessage ms (LogLevel_name level) (VRef l) w = Some (r, w1) ∧
        w_heap w1 !! r = Some (OObj rec) ∧
        (∃ h2 h3 r', sanitizeObject h2 (VRef l) = Some (VRef r', h3) ∧
                     (∀ l', l' ∈ dom (w_heap w) → h2 !! l' = w_heap w !! l') ∧
                     h3 !! r' = Some (OObj sps) ∧
                     ∃ t ls1 ls2, repr h1 sv t ls1 ∧ repr h3 (VRef r') t ls2) ∧
        (∀ k v, get_prop k sps = Some v → get_prop k rec = Some v) ∧
        (∀ k, get_prop k sps = None →
              get_prop k rec
              = get_prop k (envelope ms (LogLevel_name level) (text_val text) w)) ∧
        (get_prop (KStr "message") sps = None →
         get_prop (KStr "message") rec = Some (text_val text)) ∧
        createLogMethod ms level (VRef l) w =
          (output ← JSON_stringify (w_heap w1) (VRef r);
           Some (if bool_decide (level = ERROR)
                 then console_error (text_val output) w1
                 else console_log (text_val output) w1)).
Proof.
  intros Hwf Hl.
  destruct (formatMessage_structured ms (LogLevel_name level) l ps w Hwf Hl)
    as (sv & h1 & Hrun & Hrest).
  exists sv, h1. split; [done|]. intros text Htext.
  destruct (Hrest text Htext)
    as (r & h4 & r' & sps & Hfmt & (h2 & h3 & Hcopy & _ & Hsame & Hsps & Heq)
        & Hr' & Hnd & Hr).
  set (env := envelope ms (LogLevel_name level) (text_val text) w) in *.
  set (kvs := (λ p, (pkey p, pval p)) <$> sps) in *.
  assert (kvs.*1 = pkey <$> sps) as Hkeys.
  { unfold kvs. rewrite <- list_fmap_compose. done. }
  assert (∀ k, get_prop k sps = None → get_prop k (assign_all env kvs) = get_prop k env)
    as Hnone.
  { intros k Hk. apply get_prop_assign_all_None. rewrite Hkeys.
    by apply get_prop_None_keys. }
  exists r, (set_heap h4 w), (assign_all env kvs), sps. split_and!; try done.
  - by exists h2, h3, r'.
  - intros k v Hk. apply get_prop_assign_all_Some; [by rewrite Hkeys|].
    apply get_prop_Some_elem in Hk as (p & Hp & <- & <-).
    unfold kvs. by apply (list_elem_of_fmap_2 (λ p, (pkey p, pval p))).
  - intros Hk. by rewrite (Hnone _ Hk).
  - unfold createLogMethod. rewrite Hfmt. simpl. by rewrite level_le_ERROR.
Qed.

(** ** Level gating *)

Lemma createLogMethod_not_noOp ms level : createLogMethod ms level ≠ noOp.
Proof.
  intros Heq.
  apply (f_equal (λ m : LogMethod, m (VStr "") w_empty)) in Heq.
  unfold createLogMethod, noOp in Heq. simpl in Heq.
  destruct (JSON_stringify _ _) as [out|]; simpl in Heq; [|done].
  destruct (level_le level ERROR); by inversion Heq.
Qed.


(** C9. Whatever the environment holds, the threshold is at least
    [ERROR]: [error] is the emitting method, and [logComplexError] always
    goes on to call it. *)
Theorem error_level_always_active ms (w0 : World) :
  let this := constructor ms w0 in
  (∀ env, (rank ERROR ≤ rank (parseLogLevel env))%Z) ∧
  (rank ERROR ≤ rank (logLevel this))%Z ∧
  level_ge (logLevel this) ERROR = true ∧
  error this = createLogMethod ms ERROR ∧
  error this ≠ noOp ∧
  ∀ e w,
    logComplexError this e w =
    ('(errorMessage, w1) ← complexErrorText e w;
     createLogMethod ms ERROR
       (VRef (fresh (dom (w_heap w1))))
       (set_heap (<[fresh (dom (w_heap w1)) :=
                      OObj [Prop_ (KStr "complexError") true
                              (VStr (replace_newlines errorMessage))]]> (w_heap w1))
                 w1)).
Proof.
  intros this. subst this. unfold constructor. simpl. split_and!.
  - intros env. by destruct (parseLogLevel env).
  - by destruct (parseLogLevel _).
  - apply level_ge_ERROR.
  - by rewrite level_ge_ERROR.
  - rewrite level_ge_ERROR. apply createLogMethod_not_noOp.
  - intros e w. unfold logComplexError. simpl. rewrite !level_ge_ERROR.
    destruct (complexErrorText e w) as [[raw w1]|]; reflexivity.
Qed.

(** ** The environment is read at construction only *)

Local Opaque sanitizeObject.

Lemma formatMessage_env ms level message e w :
  formatMessage ms level message (set_LOG_LEVEL e w)
  = on_snd (set_LOG_LEVEL e) <$> formatMessage ms level message w.
Proof.
  unfold formatMessage. destruct message; simpl;
    try (destruct (sanitizeObject (w_heap w) _) as [[sv h1]|]; simpl; [|done];
         destruct (JSON_stringify h1 sv) as [text|]; simpl; [|done];
         destruct (sanitizeObject _ _) as [[sv' h3]|]; simpl; [|done];
         destruct (Object_assign _ _ _) as [h4|]; simpl; done);
    done.
Qed.

Local Transparent sanitizeObject.

Lemma createLogMethod_env ms level message e w :
  createLogMethod ms level message (set_LOG_LEVEL e w)
  = set_LOG_LEVEL e <$> createLogMethod ms level message w.
Proof.
  unfold createLogMethod. rewrite formatMessage_env.
  destruct (formatMessage ms _ message w) as [[r w1]|]; simpl; [|done].
  destruct (JSON_stringify _ _) as [out|]; simpl; [|done].
  by destruct (level_le level ERROR).
Qed.

Lemma stringify_sanitized_env e_ e w :
  stringify_sanitized e_ (set_LOG_LEVEL e w)
  = on_snd (set_LOG_LEVEL e) <$> stringify_sanitized e_ w.
Proof.
  unfold stringify_sanitized. simpl.
  destruct (sanitizeObject _ _) as [[sv h1]|]; simpl; [|done].
  destruct (JSON_stringify _ _) as [[s|]|]; simpl; done.
Qed.

Lemma complexErrorText_env e_ e w :
  complexErrorText e_ (set_LOG_LEVEL e w)
  = on_snd (set_LOG_LEVEL e) <$> complexErrorText e_ w.
Proof.
  unfold complexErrorText.
  destruct e_ as [| |b|n|s|n|id|l]; try apply stringify_sanitized_env.
  simpl. destruct (w_heap w !! l) as [[| | |]|]; try apply stringify_sanitized_env.
  done.
Qed.

Lemma method_for_constructor ms w0 S :
  method_for (constructor ms w0) S = createLogMethod ms S ∨
  method_for (constructor ms w0) S = noOp.
Proof.
  unfold constructor. destruct S; simpl;
    destruct (level_ge _ _); auto.
Qed.

(** C6. [parseLogLevel] compares the lower-cased value with the four
    names; no value, the empty string and every other string give
    [INFO]; it is a total function.  A logger keeps the threshold it was
    built with: setting the variable afterwards changes the outcome of
    no call. *)
Theorem parseLogLevel_default_and_fixed :
  (∀ s, parseLogLevel (Some s) = ERROR ↔ toLowerCase s = "error") ∧
  (∀ s, parseLogLevel (Some s) = WARN ↔ toLowerCase s = "warn") ∧
  (∀ s, parseLogLevel (Some s) = DEBUG ↔ toLowerCase s = "debug") ∧
  (∀ s, toLowerCase s = "info" → parseLogLevel (Some s) = INFO) ∧
  (∀ s, toLowerCase s ∉ ["error"; "warn"; "info"; "debug"] →
        parseLogLevel (Some s) = INFO) ∧
  parseLogLevel None = INFO ∧
  parseLogLevel (Some "") = INFO ∧
  (∀ s s', toLowerCase s = toLowerCase s' →
           parseLogLevel (Some s) = parseLogLevel (Some s')) ∧
  (∀ ms w0 e S message w,
     let this := constructor ms w0 in
     logLevel this = parseLogLevel (w_LOG_LEVEL w0) ∧
     method_for this S message (set_LOG_LEVEL e w)
     = set_LOG_LEVEL e <$> method_for this S message w ∧
     logComplexError this message (set_LOG_LEVEL e w)
     = set_LOG_LEVEL e <$> logComplexError this message w).
Proof.
  assert (∀ s, parseLogLevel (Some s) =
               if String.eqb (toLowerCase s) "error" then ERROR
               else if String.eqb (toLowerCase s) "warn" then WARN
               else if String.eqb (toLowerCase s) "info" then INFO
               else if String.eqb (toLowerCase s) "debug" then DEBUG
               else INFO) as Hdef by done.
  split_and!.
  - intros s. rewrite Hdef.
    destruct (String.eqb_spec (toLowerCase s) "error") as [->|]; [done|].
    repeat case_match; split; intros; done.
  - intros s. rewrite Hdef.
    destruct (String.eqb_spec (toLowerCase s) "warn") as [->|]; [done|].
    repeat case_match; split; intros; done.
  - intros s. rewrite Hdef.
    destruct (String.eqb_spec (toLowerCase s) "debug") as [->|]; [done|].
    repeat case_match; split; intros; done.
  - intros s Hs. rewrite Hdef, Hs. done.
  - intros s Hs. rewrite Hdef.
    destruct (String.eqb_spec (toLowerCase s) "error") as [Heq|_];
      [rewrite Heq in Hs; set_solver|].
    destruct (String.eqb_spec (toLowerCase s) "warn") as [Heq|_];
      [rewrite Heq in Hs; set_solver|].
    destruct (String.eqb_spec (toLowerCase s) "info") as [Heq|_]; [done|].
    destruct (String.eqb_spec (toLowerCase s) "debug") as [Heq|_];
      [rewrite Heq in Hs; set_solver|done].
  - done.
  - done.
  - intros s s' Heq. by rewrite !Hdef, Heq.
  - intros ms w0 e S message w this. split; [done|]. split.
    + destruct (method_for_constructor ms w0 S) as [Hm|Hm]; fold this in Hm;
        rewrite Hm; [apply createLogMethod_env|done].
    + unfold logComplexError. subst this. unfold constructor. simpl.
      rewrite !level_ge_ERROR. rewrite complexErrorText_env.
      destruct (complexErrorText message w) as [[raw w1]|]; simpl; [|done].
      unfold on_snd. simpl.
      apply (createLogMethod_env ms ERROR _ e (set_heap _ w1)).
Qed.

(** ** Records of primitives are copied as they are *)

Lemma repr_props_leaves h ps : ∀ sps ls,
  repr_props h sps ((λ p, (pkey p, penum p, TLeaf (pval p))) <$> ps) ls →
  sps = ps.
Proof.
  induction ps as [|p ps IH]; intros sps ls Hr; inversion Hr as [|q qs t tps l1 l2 Hq Hqs];
    subst; [done|].
  f_equal; [|by eapply IH].
  inversion Hq; subst. destruct p, q; simpl in *. congruence.
Qed.

Lemma plain_flat ps :
  flat ps → plain (TObj ((λ p, (pkey p, penum p, TLeaf (pval p))) <$> ps)) = true.
Proof.
  induction 1 as [|p ps (_ & He & Hk) _ IH]; [done|].
  simpl. rewrite Hk, He. simpl. exact IH.
Qed.

Lemma sanitizeObject_flat (h : heap) l ps v' h' :
  heap_wf h → h !! l = Some (OObj ps) → flat ps →
  sanitizeObject h (VRef l) = Some (v', h') →
  ∃ r, v' = VRef r ∧ h' !! r = Some (OObj ps).
Proof.
  intros Hwf Hl Hflat Hrun.
  set (t := TObj ((λ p, (pkey p, penum p, TLeaf (pval p))) <$> ps)).
  assert (repr h (VRef l) t [l]) as Hr.
  { eapply repr_obj; [done|]. apply repr_props_prims.
    eapply Forall_impl; [done|]. by intros p (? & _). }
  assert (plain t = true) as Hpl by (by apply plain_flat).
  assert (inv h (San h ∅)) as Hinv by (split; [done|simpl; set_solver]).
  assert (unvisited h (San h ∅) < S (size (dom h))) as Hfuel.
  { unfold unvisited. simpl. rewrite difference_empty_L. lia. }
  assert (Forall (λ l, l ∉ s_seen (San h ∅)) [l]) as Hns.
  { repeat constructor. simpl. set_solver. }
  assert (NoDup [l]) as Hnd by apply NoDup_singleton.
  destruct (sanitizeValue_tree h Hwf _ _ _ t [l] Hinv Hfuel Hr Hnd Hpl Hns)
    as (x' & st' & Hrun' & _ & _ & _ & ls' & Hr' & _).
  unfold sanitizeObject in Hrun. rewrite Hrun' in Hrun. inversion Hrun; subst.
  inversion Hr' as [| |r sps tps ls'' Hlr Hps]; subst.
  exists r. split; [done|]. by rewrite (repr_props_leaves _ _ _ _ Hps) in Hlr.
Qed.

Lemma complexErrorText_wf e w raw w1 :
  heap_wf (w_heap w) → val_closed (w_heap w) e →
  complexErrorText e w = Some (raw, w1) →
  ∃ h1, w1 = set_heap h1 w ∧ heap_wf h1.
Proof.
  intros Hwf Hcl.
  assert (stringify_sanitized e w = Some (raw, w1) →
          ∃ h1, w1 = set_heap h1 w ∧ heap_wf h1) as Hgen.
  { unfold stringify_sanitized.
    destruct (sanitizeObject (w_heap w) e) as [[sv h1]|] eqn:Hrun; simpl; [|done].
    destruct (JSON_stringify h1 sv) as [[s|]|]; simpl; try done.
    intros [= <- <-]. exists h1. split; [done|].
    by destruct (sanitizeObject_wf _ _ _ _ Hwf Hcl Hrun) as (? & _). }
  unfold complexErrorText. destruct e as [| |b|n|s|n|id|l]; try apply Hgen.
  destruct (w_heap w !! l) as [[| | |]|]; try apply Hgen.
  intros [= <- <-]. exists (w_heap w). split; [by destruct w|done].
Qed.

(** C8, as the code has it.  The string under [complexError] has no
    newline.  For an [Error] it comes from [name: message], a newline and
    the stack, so it holds the name and the message with their newlines
    turned into spaces (as they are when they have none) and holds
    ["at "] whenever the stack does.  The object [{complexError: ...}]
    goes to the [ERROR] method: the record has the envelope followed by
    [complexError], and its line goes to [console.error]. *)
Theorem logComplexError_single_line ms (w0 : World) (e : val) (w : World) raw w1 :
  let this := constructor ms w0 in
  heap_wf (w_heap w) → val_closed (w_heap w) e →
  complexErrorText e w = Some (raw, w1) →
  let text := replace_newlines raw in
  let r := fresh (dom (w_heap w1)) in
  let payload := [Prop_ (KStr "complexError") true (VStr text)] in
  let w2 := set_heap (<[r := OObj payload]> (w_heap w1)) w1 in
  (newline ∉ list_ascii_of_string text) ∧
  logComplexError this e w = createLogMethod ms ERROR (VRef r) w2 ∧
  (∀ l name message stack,
     e = VRef l → w_heap w !! l = Some (OErr name message stack) →
     raw = name +:+ ": " +:+ message +:+ String newline EmptyString
                +:+ default "undefined" stack ∧
     includes (replace_newlines name) text = true ∧
     includes (replace_newlines message) text = true ∧
     (newline ∉ list_ascii_of_string name → includes name text = true) ∧
     (newline ∉ list_ascii_of_string message → includes message text = true) ∧
     (∀ trace, stack = Some trace → includes "at " trace = true →
               includes "at " text = true)) ∧
  (∃ sv h1,
     sanitizeObject (w_heap w2) (VRef r) = Some (sv, h1) ∧
     ∀ line, JSON_stringify h1 sv = Some line →
       ∃ rr w3,
         formatMessage ms "ERROR" (VRef r) w2 = Some (rr, w3) ∧
         w_heap w3 !! rr
         = Some (OObj (envelope ms "ERROR" (text_val line) w ++ payload)) ∧
         logComplexError this e w =
           (output ← JSON_stringify (w_heap w3) (VRef rr);
            Some (console_error (text_val output) w3)) ∧
         w_stdout w3 = w_stdout w ∧ w_stderr w3 = w_stderr w).
Proof.
  intros this Hwf Hcl Htext text r payload w2.
  destruct (complexErrorText_wf _ _ _ _ Hwf Hcl Htext) as (hx & Hw1 & Hwf1).
  assert (heap_wf (w_heap w1)) as Hwf1' by (by rewrite Hw1).
  assert (logComplexError this e w = createLogMethod ms ERROR (VRef r) w2) as Hcall.
  { unfold logComplexError. subst this. unfold constructor. simpl.
    rewrite !level_ge_ERROR. by rewrite Htext. }
  split_and!.
  - apply replace_newlines_no_newline.
  - done.
  - intros l name message stack -> Hl. unfold complexErrorText in Htext.
    rewrite Hl in Htext. injection Htext as <- <-.
    assert (includes (replace_newlines name) text = true) as Hname.
    { unfold text. rewrite !replace_newlines_app. apply includes_refl_app. }
    assert (includes (replace_newlines message) text = true) as Hmsg.
    { unfold text. rewrite !replace_newlines_app.
      do 2 apply includes_app_r. apply includes_refl_app. }
    split_and!; try done.
    + intros Hn. by rewrite <- (replace_newlines_id name) at 1.
    + intros Hn. by rewrite <- (replace_newlines_id message) at 1.
    + intros trace -> Hat. apply (includes_replace "at ") in Hat.
      unfold text. rewrite !replace_newlines_app. by do 4 apply includes_app_r.
  - assert (heap_wf (w_heap w2)) as Hwf2.
    { simpl. apply heap_wf_insert; [done|]. split; [by repeat constructor|].
      apply NoDup_singleton. }
    assert (∀ m, envelope ms "ERROR" m w2 = envelope ms "ERROR" m w) as Henv.
    { intros m. unfold w2. by rewrite Hw1. }
    assert (w_heap w2 !! r = Some (OObj payload)) as Hr by (simpl; apply lookup_insert_eq).
    destruct (formatMessage_structured ms "ERROR" r payload w2 Hwf2 Hr)
      as (sv & h1 & Hrun & Hrest).
    exists sv, h1. split; [done|]. intros line Hline.
    destruct (Hrest line Hline)
      as (rr & h4 & r' & sps & Hfmt & (ha & hb & Hcopy & Hwfa & Hsame & Hrb & _)
          & Hr' & Hnd & Hrr).
    assert (ha !! r = Some (OObj payload)) as Hra.
    { rewrite Hsame; [done|]. apply elem_of_dom. eauto. }
    assert (flat payload) as Hflat by (by repeat constructor).
    destruct (sanitizeObject_flat _ _ _ _ _ Hwfa Hra Hflat Hcopy) as (r2 & [= <-] & Hps).
    assert (sps = payload) as -> by congruence.
    exists rr, (set_heap h4 w2). split_and!.
    + done.
    + simpl. rewrite Hrr, Henv. done.
    + etrans; [exact Hcall|]. unfold createLogMethod.
      change (LogLevel_name ERROR) with "ERROR". by rewrite Hfmt.
    + unfold w2. by rewrite Hw1.
    + unfold w2. by rewrite Hw1.
Qed.
End logger_properties.

(** * The Logger on examples, with the serializer above *)

Lemma structured_input_is_merged_witness :
  heap_wf (w_heap w_example) ∧
  w_heap w_example !! 1 = Some (OObj [Prop_ (KStr "code") true (VNum 42)]) ∧
  ∃ sv h1,
    sanitizeObject (w_heap w_example) (VRef 1) = Some (sv, h1) ∧
    ∀ text, JSON_stringify (Runtime := reference_runtime) h1 sv = Some text →
      ∃ r w1 rec sps,
        formatMessage (H := reference_runtime) "Svc" "ERROR" (VRef 1) w_example
          = Some (r, w1) ∧
        w_heap w1 !! r = Some (OObj rec) ∧
        (∀ k v, get_prop k sps = Some v → get_prop k rec = Some v).
Proof.
  assert (heap_wf (w_heap w_example)) as Hwf.
  { apply (bool_decide_unpack _). vm_compute. exact I. }
  split; [exact Hwf|]. split; [reflexivity|].
  destruct (structured_input_is_merged (H := reference_runtime) "Svc" ERROR 1
              [Prop_ (KStr "code") true (VNum 42)] w_example Hwf eq_refl)
    as (sv & h1 & Hrun & Hrest).
  exists sv, h1. split; [exact Hrun|]. intros text Htext.
  destruct (Hrest text Htext) as (r & w1 & rec & sps & Hfmt & Hr & _ & Hmerge & _).
  exists r, w1, rec, sps. split; [exact Hfmt|]. split; [exact Hr|exact Hmerge].
Defined.

(** The scenario of the specification: [.error({code: 42})] on a logger of
    threshold [INFO] writes one line to [console.error] and none to
    [console.log]; the line has [level] [ERROR], the text of the input as
    [message] and [code] at top level. *)
Example error_code_42 :
  let this := constructor (H := reference_runtime) "Svc" w_example in
  ∃ w' line,
    error this (VRef 1) w_example = Some w' ∧
    w_stderr w' = [VStr line] ∧ w_stdout w' = [] ∧
    includes (json_quote "level" +:+ ":" +:+ json_quote "ERROR") line = true ∧
    includes (json_quote "message" +:+ ":" +:+ json_quote ("{" +:+ json_quote "code" +:+ ":42}"))
             line = true ∧
    includes ("," +:+ json_quote "code" +:+ ":42}") line = true ∧
    includes (json_quote "microservice" +:+ ":" +:+ json_quote "Svc") line = true ∧
    includes (json_quote "caller" +:+ ":" +:+ json_quote "handleRequest") line = true ∧
    includes (String newline EmptyString) line = false.
Proof. eexists _, _. split_and!; vm_compute; reflexivity. Qed.

(** With threshold [INFO], [debug] writes nothing and [info] one line to
    [console.log]. *)
Example debug_silent_info_logged :
  let this := constructor (H := reference_runtime) "Svc" w_example in
  debug this (VStr "x") w_example = Some w_example ∧
  ∃ w' line,
    info this (VStr "y") w_example = Some w' ∧
    w_stdout w' = [VStr line] ∧ w_stderr w' = [] ∧
    includes (json_quote "level" +:+ ":" +:+ json_quote "INFO") line = true ∧
    includes (json_quote "message" +:+ ":" +:+ json_quote "y") line = true.
Proof. split; [reflexivity|]. eexists _, _. split_and!; vm_compute; reflexivity. Qed.

(** C8, as the specification words it, fails for an [Error] whose message
    has a newline: the string under [complexError] does not contain the
    message. *)
Lemma logComplexError_loses_multiline_message :
  let this := constructor (H := reference_runtime) "Svc" w_multiline in
  w_heap w_multiline !! 1
  = Some (OErr "Error" multiline_message
               (Some ("Error: " +:+ multiline_message
                      +:+ String newline "    at f (x.js:1:1)"))) ∧
  ∃ raw r,
    complexErrorText (H := reference_runtime) (VRef 1) w_multiline
      = Some (raw, w_multiline) ∧
    logComplexError (H := reference_runtime) this (VRef 1) w_multiline
    = error this (VRef r)
        (set_heap (<[r := OObj [Prop_ (KStr "complexError") true
                                  (VStr (replace_newlines raw))]]>
                     (w_heap w_multiline)) w_multiline) ∧
    includes multiline_message (replace_newlines raw) = false.
Proof.
  split; [reflexivity|]. eexists _, _. split_and!; [reflexivity|reflexivity|].
  vm_compute. reflexivity.
Qed.

Lemma logComplexError_single_line_witness :
  heap_wf (w_heap w_multiline) ∧ val_closed (w_heap w_multiline) (VRef 1) ∧
  ∃ raw,
    complexErrorText (H := reference_runtime) (VRef 1) w_multiline
      = Some (raw, w_multiline) ∧
    (newline ∉ list_ascii_of_string (replace_newlines raw)) ∧
    includes "Error" (replace_newlines raw) = true ∧
    includes (replace_newlines multiline_message) (replace_newlines raw) = true ∧
    includes "at " (replace_newlines raw) = true.
Proof.
  assert (heap_wf (w_heap w_multiline)) as Hwf.
  { apply (bool_decide_unpack _). vm_compute. exact I. }
  assert (val_closed (w_heap w_multiline) (VRef 1)) as Hcl.
  { apply (bool_decide_unpack _). vm_compute. exact I. }
  split; [exact Hwf|]. split; [exact Hcl|].
  eexists. split; [reflexivity|].
  destruct (logComplexError_single_line (H := reference_runtime) "Svc" w_multiline
              (VRef 1) w_multiline _ w_multiline Hwf Hcl eq_refl)
    as (Hnl & _ & Herr & _).
  split; [exact Hnl|].
  destruct (Herr 1 "Error" multiline_message _ eq_refl eq_refl)
    as (_ & _ & Hmsg & Hname & _ & Hat).
  split; [|split; [exact Hmsg|]].
  - apply Hname. apply (bool_decide_unpack _). vm_compute. exact I.
  - eapply Hat; [reflexivity|]. vm_compute. reflexivity.
Defined.


Lemma error_level_always_active_witness :
  let this :=
    constructor (H := reference_runtime) "Svc" (set_LOG_LEVEL (Some "error") w_example) in
  logLevel this = ERROR ∧
  error this = createLogMethod (H := reference_runtime) "Svc" ERROR ∧
  warn this = noOp ∧ error this ≠ noOp.
Proof.
  destruct (error_level_always_active (H := reference_runtime) "Svc"
              (set_LOG_LEVEL (Some "error") w_example))
    as (_ & _ & _ & Herr & Hne & _).
  split; [reflexivity|]. split; [exact Herr|]. split; [reflexivity|exact Hne].
Defined.

Lemma parseLogLevel_default_and_fixed_witness :
  parseLogLevel (Some "DeBuG") = DEBUG ∧
  parseLogLevel (Some "ERROR") = ERROR ∧
  parseLogLevel (Some "verbose") = INFO ∧
  parseLogLevel (Some " info ") = INFO.
Proof.
  destruct (parseLogLevel_default_and_fixed (H := reference_runtime))
    as (Herr & _ & Hdbg & _ & Hother & _).
  split_and!.
  - apply Hdbg. reflexivity.
  - apply Herr. reflexivity.
  - apply Hother. apply (bool_decide_unpack _). vm_compute. exact I.
  - apply Hother. apply (bool_decide_unpack _). vm_compute. exact I.
Defined.

(** [getCallerInfo] on a stack as the engine prints it: the fifth line
    names the caller, and only what follows the last dot is kept. *)
Example getCallerInfo_on_stack :
  getCallerInfo w_example = "handleRequest" ∧
  getCallerInfo w_empty = "unknown" ∧
  first_caller ["    at new Promise (<anonymous>)"; "    at run (a.js:1:1)"] = "new" ∧
  first_caller [""; "    at <anonymous>"; "    at Foo.bar.baz (a.js:1:1)"] = "baz".
Proof. split_and!; vm_compute; reflexivity. Qed.

(** * Further properties of the sanitizer *)

(** * The copy is a tree of new objects *)

Lemma Object_entries_closed h ps :
  Forall (λ p, val_closed h (pval p)) ps →
  Forall (λ kv : string * val, val_closed h kv.2) (Object_entries ps).
Proof.
  induction 1 as [|p ps Hp _ IH]; simpl; [constructor|].
  destruct (pkey p); [|done]. destruct (penum p); [|done]. by constructor.
Qed.

Lemma Object_entries_keys ps k :
  k ∈ (Object_entries ps).*1 → KStr k ∈ pkey <$> ps.
Proof.
  induction ps as [|p ps IH]; simpl; [intros Hin; by apply elem_of_nil in Hin|].
  destruct (pkey p) as [s|id] eqn:Hk.
  - destruct (penum p); simpl.
    + intros [->|Hin]%elem_of_cons; [by left|right; auto].
    + right; auto.
  - right; auto.
Qed.

Lemma Object_entries_NoDup ps :
  NoDup (pkey <$> ps) → NoDup (Object_entries ps).*1.
Proof.
  induction ps as [|p ps IH]; simpl; [constructor|].
  intros [Hnin Hnd]%NoDup_cons.
  destruct (pkey p) as [s|id] eqn:Hk; [|auto].
  destruct (penum p); [|auto]. simpl. apply NoDup_cons. split; [|auto].
  intros Hin. apply Hnin. by apply Object_entries_keys.
Qed.

Section fresh_tree.
Variable h0 : heap.
Hypothesis Hwf : heap_wf h0.

Section with_fuel.
Variable fuel : nat.
Hypothesis IH : ∀ v st,
  inv h0 st → val_closed h0 v → unvisited h0 st < fuel →
  ∃ v' st', sanitizeValue fuel v st = Some (v', st') ∧
    ∃ t ls, repr (s_heap st') v' t ls ∧ NoDup ls ∧
            Forall (λ l, l ∉ dom (s_heap st)) ls ∧ plain t = true.

Lemma Array_map_fresh vs : ∀ st,
  inv h0 st → Forall (val_closed h0) vs → unvisited h0 st < fuel →
  ∃ vs' st', Array_map (sanitizeValue fuel) vs st = Some (vs', st') ∧
    inv h0 st' ∧ frame st st' ∧ s_seen st ⊆ s_seen st' ∧
    ∃ ts ls, repr_list (s_heap st') vs' ts ls ∧ NoDup ls ∧
             Forall (λ l, l ∉ dom (s_heap st)) ls ∧ forallb plain ts = true.
Proof.
  induction vs as [|v vs IHvs]; intros st Hinv Hcl Hfuel.
  - exists [], st. split_and!; [done|done|apply frame_refl|done|].
    exists [], []. split_and!; [constructor|constructor|constructor|done].
  - inversion Hcl as [|?? Hv Hvs]; subst.
    destruct (IH v st Hinv Hv Hfuel) as (v' & st1 & Hrun & t & ls1 & Hr1 & Hnd1 & Hfr1 & Hp1).
    destruct (sanitizeValue_run_post h0 Hwf fuel v st v' st1 Hinv Hv Hfuel Hrun)
      as (Hinv1 & Hf1 & Hs1 & _).
    destruct (IHvs st1 Hinv1 Hvs)
      as (vs' & st2 & Hrun2 & Hinv2 & Hf2 & Hs2 & ts & ls2 & Hr2 & Hnd2 & Hfr2 & Hp2).
    { pose proof (unvisited_mono h0 _ _ Hs1). lia. }
    exists (v' :: vs'), st2. split_and!.
    + simpl. rewrite (San_bind_Some _ _ _ _ _ Hrun).
      by rewrite (San_bind_Some _ _ _ _ _ Hrun2).
    + done.
    + by eapply frame_trans.
    + set_solver.
    + exists (t :: ts), (ls1 ++ ls2). split_and!.
      * constructor; [|done]. eapply repr_frame; [done|].
        eapply Forall_impl; [by eapply repr_dom|]. intros l Hl. by apply Hf2.
      * apply NoDup_app. split_and!; [done| |done].
        intros l Hl1 Hl2. pose proof (repr_dom _ _ _ _ Hr1) as Hd.
        rewrite Forall_forall in Hd, Hfr2. by apply (Hfr2 l Hl2), Hd.
      * apply Forall_app. split; [done|].
        eapply Forall_impl; [done|]. intros l Hl Hin. apply Hl.
        by apply (frame_dom _ _ Hf1).
      * simpl. by rewrite Hp1, Hp2.
Qed.

Lemma entries_fresh r es : ∀ st acc tacc lacc,
  inv h0 st → Forall (λ kv : string * val, val_closed h0 kv.2) es →
  unvisited h0 st < fuel → r ∉ dom h0 →
  NoDup es.*1 → Forall (λ kv : string * val, KStr kv.1 ∉ pkey <$> acc) es →
  s_heap st !! r = Some (OObj acc) →
  repr_props (s_heap st) acc tacc lacc → r ∉ lacc → NoDup lacc →
  forallb plain_prop tacc = true →
  ∃ st' acc' tacc' lacc',
    for_of (λ kv, v' ← sanitizeValue fuel kv.2; assign_prop r (KStr kv.1) v')
          es st = Some (tt, st') ∧
    inv h0 st' ∧
    (∀ l, l ∈ dom (s_heap st) → l ≠ r → s_heap st' !! l = s_heap st !! l) ∧
    s_seen st ⊆ s_seen st' ∧
    s_heap st' !! r = Some (OObj acc') ∧
    repr_props (s_heap st') acc' tacc' lacc' ∧ NoDup lacc' ∧
    Forall (λ l, l ∈ lacc ∨ l ∉ dom (s_heap st)) lacc' ∧
    forallb plain_prop tacc' = true.
Proof.
  induction es as [|[k v] es IHes];
    intros st acc tacc lacc Hinv Hcl Hfuel Hr0 Hkeys Hnew Hacc Hracc Hrl Hndl Hpl.
  - exists st, acc, tacc, lacc. split_and!; try done.
    apply Forall_forall. auto.
  - inversion Hcl as [|?? Hv Hes]; subst. simpl in Hv.
    simpl in Hkeys. apply NoDup_cons in Hkeys as [Hk Hkeys].
    inversion Hnew as [|?? Hknew Hnew']; subst. simpl in Hknew.
    destruct (IH v st Hinv Hv Hfuel)
      as (v' & st1 & Hrun & t & lv & Hrv & Hndv & Hfrv & Hpv).
    destruct (sanitizeValue_run_post h0 Hwf fuel v st v' st1 Hinv Hv Hfuel Hrun)
      as (Hinv1 & Hf1 & Hs1 & _).
    assert (r ∈ dom (s_heap st)) as Hrdom by (apply elem_of_dom; eauto).
    assert (s_heap st1 !! r = Some (OObj acc)) as Hr1 by (by rewrite Hf1).
    assert (repr_props (s_heap st1) acc tacc lacc) as Hacc1.
    { eapply repr_props_frame; [done|].
      eapply Forall_impl; [by eapply repr_props_dom|]. intros l Hl. by apply Hf1. }
    pose proof (repr_props_snoc _ _ _ _ (Prop_ (KStr k) true v') _ _ Hacc1 Hrv)
      as Hsnoc. simpl in Hsnoc.
    assert (r ∉ lacc ++ lv) as Hrl2.
    { intros [?|Hin]%elem_of_app; [done|].
      rewrite Forall_forall in Hfrv. by apply (Hfrv _ Hin). }
    assert (NoDup (lacc ++ lv)) as Hnd2.
    { apply NoDup_app. split_and!; [done| |done].
      intros l Hl1 Hl2. pose proof (repr_props_dom _ _ _ _ Hracc) as Hd.
      rewrite Forall_forall in Hd, Hfrv. by apply (Hfrv l Hl2), Hd. }
    set (acc2 := acc ++ [Prop_ (KStr k) true v']).
    set (st2 := San (<[r := OObj acc2]> (s_heap st1)) (s_seen st1)).
    assert (inv h0 st2) as Hinv2.
    { destruct Hinv1 as [Hsub Hseen]. split; [|done]. simpl.
      apply insert_subseteq_r; [by apply not_elem_of_dom|done]. }
    destruct (IHes st2 acc2 (tacc ++ [(KStr k, true, t)]) (lacc ++ lv))
      as (st' & acc' & tacc' & lacc' & Hrun' & Hinv' & Hf' & Hs' & Hr' & Hps' & Hnd'
          & Hls' & Hpl'); try done.
    { pose proof (unvisited_mono h0 _ _ Hs1). unfold unvisited in *. simpl. lia. }
    { unfold acc2. rewrite Forall_forall in Hnew' |- *. intros q Hq.
      rewrite fmap_app. simpl. intros [Hin|Hin]%elem_of_app.
      - by apply (Hnew' q Hq).
      - apply list_elem_of_singleton in Hin. apply Hk. injection Hin as <-.
        by apply list_elem_of_fmap_2. }
    { simpl. apply lookup_insert_eq. }
    { simpl. eapply repr_props_frame; [done|].
      apply Forall_forall. intros l Hl. apply lookup_insert_ne. by intros <-. }
    { rewrite forallb_app, Hpl. simpl. unfold plain_prop. simpl. by rewrite Hpv. }
    exists st', acc', tacc', lacc'. split_and!; try done.
    + simpl. rewrite (San_bind_Some _ _ st tt st2); [done|].
      rewrite (San_bind_Some _ _ _ _ _ Hrun). unfold assign_prop. rewrite Hr1.
      by rewrite set_prop_new.
    + intros l Hl Hne. rewrite Hf'; [| |done].
      * simpl. rewrite lookup_insert_ne by done. by apply Hf1.
      * simpl. apply elem_of_dom. rewrite lookup_insert_ne by done.
        rewrite Hf1 by done. by apply elem_of_dom.
    + simpl in Hs'. set_solver.
    + eapply Forall_impl; [done|]. simpl. intros l [Hl|Hl].
      * apply elem_of_app in Hl as [?|Hl]; [by left|].
        right. rewrite Forall_forall in Hfrv. by apply Hfrv.
      * right. intros Hin. apply Hl. apply elem_of_dom.
        destruct (decide (r = l)) as [<-|Hne]; [by rewrite lookup_insert_eq|].
        rewrite lookup_insert_ne by done. rewrite Hf1 by done. by apply elem_of_dom.
Qed.
End with_fuel.

Lemma sanitizeValue_fresh fuel : ∀ v st,
  inv h0 st → val_closed h0 v → unvisited h0 st < fuel →
  ∃ v' st', sanitizeValue fuel v st = Some (v', st') ∧
    ∃ t ls, repr (s_heap st') v' t ls ∧ NoDup ls ∧
            Forall (λ l, l ∉ dom (s_heap st)) ls ∧ plain t = true.
Proof.
  induction fuel as [|fuel IH]; intros v st Hinv Hv Hfuel; [lia|].
  assert (∀ w : val, is_prim w = true →
            ∃ t ls, repr (s_heap st) w t ls ∧ NoDup ls ∧
                    Forall (λ l, l ∉ dom (s_heap st)) ls ∧ plain t = true) as Hprim.
  { intros w Hw. exists (TLeaf w), []. split_and!; [by constructor|constructor|constructor|done]. }
  destruct v as [| |b|n|s|n|id|l];
    try (eexists _, st; split; [reflexivity|by apply Hprim]).
  destruct Hv as [o Ho]. destruct st as [h s].
  assert (h !! l = Some o) as Hl by (eapply lookup_weaken; [done|apply Hinv]).
  assert (l ∈ dom h0) as Hldom by (apply elem_of_dom; eauto).
  pose proof (Hwf l o Ho) as Hwfo.
  simpl. unfold mbind at 1, San_bind at 1, deref. simpl. rewrite Hl.
  destruct o as [src|name message stack|elems|props].
  - eexists _, _. split; [reflexivity|]. by apply Hprim.
  - eexists _, _. split; [reflexivity|]. simpl.
    eexists _, [fresh (dom h)]. split_and!.
    + eapply repr_obj; [apply lookup_insert_eq|].
      apply repr_props_prims. repeat constructor. by destruct stack.
    + apply NoDup_singleton.
    + constructor; [|constructor]. simpl. apply is_fresh.
    + reflexivity.
  - unfold mbind at 1, San_bind at 1, seen_has. simpl.
    case_bool_decide as Hseen.
    { eexists _, _. split; [reflexivity|]. by apply Hprim. }
    unfold mbind at 1, San_bind at 1, seen_add. simpl.
    set (st1 := San h ({[l]} ∪ s)).
    assert (inv h0 st1) as Hinv1.
    { destruct Hinv as [? Hs]. split; [done|]. simpl in *. set_solver. }
    destruct (Array_map_fresh fuel IH elems st1)
      as (vs' & st2 & Hrun & Hinv2 & Hf2 & Hs2 & ts & ls & Hr & Hnd & Hfr & Hp);
      [done|done| |].
    { pose proof (unvisited_visit h0 h s l Hldom Hseen). fold st1 in H. lia. }
    rewrite (San_bind_Some _ _ _ _ _ Hrun).
    eexists _, _. split; [reflexivity|]. simpl.
    destruct st2 as [h2 s2]. simpl in *.
    exists (TArr ts), (fresh (dom h2) :: ls). split_and!.
    + eapply repr_arr; [apply lookup_insert_eq|].
      eapply repr_list_frame; [done|].
      eapply Forall_impl; [by eapply repr_list_dom|]. simpl.
      intros l' Hl'. apply lookup_insert_ne. intros <-. by apply is_fresh in Hl'.
    + apply NoDup_cons. split; [|done]. intros Hin.
      pose proof (repr_list_dom _ _ _ _ Hr) as Hd. rewrite Forall_forall in Hd.
      by apply (is_fresh (dom h2)), Hd.
    + constructor; [|done]. intros Hin.
      apply (is_fresh (dom h2)). by apply (frame_dom _ _ Hf2).
    + done.
  - destruct Hwfo as [Hcl Hnd].
    unfold mbind at 1, San_bind at 1, seen_has. simpl.
    case_bool_decide as Hseen.
    { eexists _, _. split; [reflexivity|]. by apply Hprim. }
    unfold mbind at 1, San_bind at 1, seen_add. simpl.
    unfold mbind at 1, San_bind at 1, alloc. simpl.
    set (r := fresh (dom h)).
    set (st1 := San (<[r := OObj []]> h) ({[l]} ∪ s)).
    assert (r ∉ dom h) as Hrh by apply is_fresh.
    assert (r ∉ dom h0) as Hr0.
    { intros Hin. apply Hrh. eapply subseteq_dom; [apply Hinv|done]. }
    assert (inv h0 st1) as Hinv1.
    { destruct Hinv as [? Hs]. split; simpl in *; [|set_solver].
      apply insert_subseteq_r; [by apply not_elem_of_dom|done]. }
    destruct (entries_fresh fuel IH r (Object_entries props) st1 [] [] [])
      as (st2 & ps' & tps' & ls' & Hrun & Hinv2 & Hf2 & Hs2 & Hr2 & Hps2 & Hnd2
          & Hls2 & Hpl2); try done.
    { by apply Object_entries_closed. }
    { pose proof (unvisited_visit h0 (<[r := OObj []]> h) s l Hldom Hseen).
      unfold unvisited in *. simpl in *. lia. }
    { by apply Object_entries_NoDup. }
    { apply Forall_forall. intros kv _. simpl. apply not_elem_of_nil. }
    { simpl. apply lookup_insert_eq. }
    { constructor. }
    { apply not_elem_of_nil. }
    { constructor. }
    rewrite (San_bind_Some _ _ _ _ _ Hrun).
    eexists _, _. split; [reflexivity|].
    assert (Forall (λ l', l' ∉ dom (<[r := OObj []]> h)) ls') as Hls3.
    { eapply Forall_impl; [done|]. simpl.
      intros l' [Hl'|Hl']; [by apply elem_of_nil in Hl'|done]. }
    exists (TObj tps'), (r :: ls'). split_and!.
    + by eapply repr_obj.
    + apply NoDup_cons. split; [|done]. intros Hin.
      rewrite Forall_forall in Hls3. apply (Hls3 _ Hin).
      rewrite dom_insert_L. set_solver.
    + constructor; [done|]. eapply Forall_impl; [done|]. simpl.
      intros l' Hl' Hin. apply Hl'. rewrite dom_insert_L. set_solver.
    + done.
Qed.
End fresh_tree.

(** * What can be reached is listed in the unfolding *)

Lemma repr_list_elem_sub h vs ts ls v :
  repr_list h vs ts ls → v ∈ vs → ∃ t ls', repr h v t ls' ∧ ls' ⊆ ls.
Proof.
  induction 1 as [|v0 vs t ts ls1 ls2 Hv _ IH]; intros Hin.
  - by apply elem_of_nil in Hin.
  - apply elem_of_cons in Hin as [->|Hin].
    + exists t, ls1. split; [done|]. set_solver.
    + destruct (IH Hin) as (t' & ls' & Hr & Hsub). exists t', ls'.
      split; [done|]. set_solver.
Qed.

Lemma repr_props_elem_sub h ps tps ls p :
  repr_props h ps tps ls → p ∈ ps → ∃ t ls', repr h (pval p) t ls' ∧ ls' ⊆ ls.
Proof.
  induction 1 as [|p0 ps t tps ls1 ls2 Hv _ IH]; intros Hin.
  - by apply elem_of_nil in Hin.
  - apply elem_of_cons in Hin as [->|Hin].
    + exists t, ls1. split; [done|]. set_solver.
    + destruct (IH Hin) as (t' & ls' & Hr & Hsub). exists t', ls'.
      split; [done|]. set_solver.
Qed.

Lemma repr_step_sub h l t ls l' :
  repr h (VRef l) t ls → points_to h l l' →
  ∃ t' ls', repr h (VRef l') t' ls' ∧ ls' ⊆ ls.
Proof.
  intros Hr (o & Ho & Hin). inversion Hr; subst; simplify_eq; simpl in Hin.
  - apply list_elem_of_omap in Hin as (v & Hv & ->%val_loc_Some).
    destruct (repr_list_elem_sub _ _ _ _ _ H1 Hv) as (t' & ls' & Hr' & Hsub).
    exists t', ls'. split; [done|]. set_solver.
  - apply list_elem_of_omap in Hin as (p & Hp & Hloc%val_loc_Some).
    destruct (repr_props_elem_sub _ _ _ _ _ H1 Hp) as (t' & ls' & Hr' & Hsub).
    rewrite Hloc in Hr'. exists t', ls'. split; [done|]. set_solver.
Qed.

Lemma repr_reachable_listed h v t ls l :
  repr h v t ls → reachable h v l → l ∈ ls.
Proof.
  intros Hr (l0 & -> & Hrtc). revert t ls Hr.
  induction Hrtc as [x|x y z Hxy _ IH]; intros t ls Hr.
  - inversion Hr; subst; [done|left..].
  - destruct (repr_step_sub _ _ _ _ _ Hr Hxy) as (t' & ls' & Hr' & Hsub).
    apply Hsub. by eapply IH.
Qed.

(** * The copy is made of new objects, each used once *)

Lemma sanitizeObject_fresh_tree h v :
  heap_wf h → val_closed h v →
  ∃ v' h', sanitizeObject h v = Some (v', h') ∧
    (∀ l, l ∈ dom h → h' !! l = h !! l) ∧ heap_wf h' ∧
    ∃ t ls, repr h' v' t ls ∧ NoDup ls ∧ Forall (λ l, l ∉ dom h) ls ∧
            plain t = true.
Proof.
  intros Hwf Hv.
  assert (inv h (San h ∅)) as Hinv by (split; [done|simpl; set_solver]).
  assert (unvisited h (San h ∅) < S (size (dom h))) as Hfuel.
  { unfold unvisited. simpl. rewrite difference_empty_L. lia. }
  destruct (sanitizeValue_fresh h Hwf _ v _ Hinv Hv Hfuel)
    as (v' & st' & Hrun & Htree).
  destruct (sanitizeValue_run_post h Hwf _ _ _ _ _ Hinv Hv Hfuel Hrun)
    as (_ & Hf & _).
  assert (sanitizeObject h v = Some (v', s_heap st')) as Hrun'.
  { unfold sanitizeObject. by rewrite Hrun. }
  destruct (sanitizeObject_wf _ _ _ _ Hwf Hv Hrun') as (Hwf' & _).
  exists v', (s_heap st'). split_and!; done.
Qed.

(** * One level of the copy *)

Lemma copied_frame h self h1 h2 v v' :
  copied h self h1 v v' →
  (∀ r, v' = VRef r → r ∈ dom h1 → h2 !! r = h1 !! r) →
  copied h self h2 v v'.
Proof.
  intros Hc Hsame. destruct v as [| |b|n|s|n|id|l]; simpl in *; try done.
  destruct (h !! l) as [[src|name message stack|vs|ps]|]; try done.
  destruct Hc as (r & -> & Hr & Hrec). exists r. split_and!; [done|done|].
  rewrite Hsame; [done|done|]. apply elem_of_dom. eauto.
Qed.

Lemma sanitizeValue_enter_array fuel l elems h s :
  h !! l = Some (OArr elems) → l ∉ s →
  sanitizeValue (S fuel) (VRef l) (San h s) =
  match Array_map (sanitizeValue fuel) elems (San h ({[l]} ∪ s)) with
  | Some (elems', st') =>
      Some (VRef (fresh (dom (s_heap st'))),
            San (<[fresh (dom (s_heap st')) := OArr elems']> (s_heap st')) (s_seen st'))
  | None => None
  end.
Proof.
  intros Hl Hs. simpl. unfold mbind at 1, San_bind at 1, deref. simpl. rewrite Hl.
  unfold mbind at 1, San_bind at 1, seen_has. simpl.
  rewrite bool_decide_eq_false_2 by done.
  unfold mbind at 1, San_bind at 1, seen_add. simpl.
  unfold mbind at 1, San_bind at 1.
  by destruct (Array_map _ _ _) as [[elems' st']|].
Qed.

Section one_level.
Variable h0 : heap.
Hypothesis Hwf : heap_wf h0.
Variable self : loc.

Lemma sanitizeValue_copied fuel v st v' st' :
  inv h0 st → val_closed h0 v → unvisited h0 st < fuel → self ∈ s_seen st →
  sanitizeValue fuel v st = Some (v', st') →
  copied h0 self (s_heap st') v v' ∧
  ∀ r, v' = VRef r → (r ∉ dom (s_heap st)) ∧ r ∈ dom (s_heap st').
Proof.
  intros Hinv Hv Hfuel Hself Hrun.
  pose proof (sanitizeValue_run_post h0 Hwf _ _ _ _ _ Hinv Hv Hfuel Hrun)
    as (Hinv' & Hf & Hs & t & ls & Hrepr & Hfresh & _).
  assert (∀ r, v' = VRef r → (r ∉ dom (s_heap st)) ∧ r ∈ dom (s_heap st')) as Hnew.
  { intros r ->. inversion Hrepr; subst; [done| |]; inversion Hfresh; subst;
      (split; [done|apply elem_of_dom; eauto]). }
  split; [|done].
  destruct fuel as [|fuel']; [done|].
  destruct v as [| |b|n|s|n|id|l];
    try (simpl in Hrun; injection Hrun as <- <-; reflexivity).
  destruct Hv as [o Ho].
  assert (s_heap st !! l = Some o) as Hl by (eapply lookup_weaken; [done|apply Hinv]).
  assert (∀ r, r ∉ dom (s_heap st) → r ∉ dom h0) as Hold.
  { intros r Hr Hin. apply Hr. eapply subseteq_dom; [apply Hinv|done]. }
  simpl. rewrite Ho.
  destruct o as [src|name message stack|elems|props].
  - simpl in Hrun. unfold mbind at 1, San_bind at 1, deref in Hrun.
    rewrite Hl in Hrun. simpl in Hrun. by injection Hrun as <- <-.
  - simpl in Hrun. unfold mbind at 1, San_bind at 1, deref in Hrun.
    rewrite Hl in Hrun. simpl in Hrun. injection Hrun as <- <-.
    exists (fresh (dom (s_heap st))). split_and!; [done| |].
    + apply Hold, is_fresh.
    + simpl. apply lookup_insert_eq.
  - destruct (decide (l ∈ s_seen st)) as [Hin|Hnin].
    + rewrite (sanitizeValue_seen _ _ _ _ Hl eq_refl Hin) in Hrun.
      injection Hrun as <- <-. destruct (decide (l = self)); [done|by left].
    + destruct (sanitizeValue_first_visit _ _ _ _ _ _ Hl eq_refl Hnin Hrun)
        as (_ & r & ->).
      destruct (decide (l = self)) as [->|_]; [done|].
      right. exists r. split; [done|]. by apply Hold, Hnew.
  - destruct (decide (l ∈ s_seen st)) as [Hin|Hnin].
    + rewrite (sanitizeValue_seen _ _ _ _ Hl eq_refl Hin) in Hrun.
      injection Hrun as <- <-. destruct (decide (l = self)); [done|by left].
    + destruct (sanitizeValue_first_visit _ _ _ _ _ _ Hl eq_refl Hnin Hrun)
        as (_ & r & ->).
      destruct (decide (l = self)) as [->|_]; [done|].
      right. exists r. split; [done|]. by apply Hold, Hnew.
Qed.

Lemma Array_map_copied fuel vs : ∀ st vs' st',
  inv h0 st → Forall (val_closed h0) vs → unvisited h0 st < fuel →
  self ∈ s_seen st →
  Array_map (sanitizeValue fuel) vs st = Some (vs', st') →
  frame st st' ∧ Forall2 (copied h0 self (s_heap st')) vs vs'.
Proof.
  induction vs as [|v vs IHvs]; intros st vs' st' Hinv Hcl Hfuel Hself Hrun;
    simpl in Hrun.
  - injection Hrun as <- <-. split; [apply frame_refl|constructor].
  - inversion Hcl as [|?? Hv Hvs]; subst.
    apply San_bind_inv in Hrun as (y & st1 & Hrun1 & Hrun).
    apply San_bind_inv in Hrun as (ys & st2 & Hrun2 & Hret).
    injection Hret as <- <-.
    pose proof (sanitizeValue_run_post h0 Hwf _ _ _ _ _ Hinv Hv Hfuel Hrun1)
      as (Hinv1 & Hf1 & Hs1 & _).
    destruct (sanitizeValue_copied _ _ _ _ _ Hinv Hv Hfuel Hself Hrun1) as [Hc Hnew].
    destruct (IHvs st1 ys st2) as [Hf2 Hall]; try done.
    { pose proof (unvisited_mono h0 _ _ Hs1). lia. }
    { by apply Hs1. }
    split; [by eapply frame_trans|]. constructor; [|done].
    eapply copied_frame; [done|]. intros r Hr _. apply Hf2. by apply Hnew.
Qed.

End one_level.

Lemma sanitizeObject_array_shape (h : heap) l vs :
  heap_wf h → h !! l = Some (OArr vs) →
  ∃ r vs' h', sanitizeObject h (VRef l) = Some (VRef r, h') ∧
    (r ∉ dom h) ∧ h' !! r = Some (OArr vs') ∧
    Forall2 (copied h l h') vs vs'.
Proof.
  intros Hwf Hl.
  assert (l ∈ dom h) as Hldom by (apply elem_of_dom; eauto).
  unfold sanitizeObject.
  rewrite (sanitizeValue_enter_array _ _ _ _ _ Hl) by set_solver.
  set (st1 := San h ({[l]} ∪ ∅)).
  assert (inv h st1) as Hinv1 by (split; simpl; [done|set_solver]).
  assert (unvisited h st1 < size (dom h)) as Hfuel.
  { pose proof (unvisited_visit h h ∅ l Hldom) as Hlt. fold st1 in Hlt.
    unfold unvisited in Hlt at 2. simpl in Hlt. rewrite difference_empty_L in Hlt.
    apply Hlt. set_solver. }
  destruct (Array_map_spec h Hwf (size (dom h)) (sanitizeValue_spec h Hwf _) vs st1)
    as (vs' & st2 & Hrun & _); [done|by apply (Hwf l _ Hl)|done|].
  rewrite Hrun.
  destruct (Array_map_copied h Hwf l (size (dom h)) vs st1 vs' st2) as [Hf Hall]; try done.
  { by apply (Hwf l _ Hl). }
  { simpl. set_solver. }
  set (r := fresh (dom (s_heap st2))).
  assert (r ∉ dom (s_heap st2)) as Hr by apply is_fresh.
  exists r, vs', (<[r := OArr vs']> (s_heap st2)). split_and!; [done| | |].
  - intros Hin. apply Hr. by apply (frame_dom _ _ Hf).
  - apply lookup_insert_eq.
  - eapply Forall2_impl; [done|]. intros v v' Hc. eapply copied_frame; [done|].
    intros r' _ Hin. apply lookup_insert_ne. by intros <-.
Qed.


(** X1. [sanitizeObject] writes to no object it was given, and what it
    returns reaches new objects only, each along one path: it is a tree,
    whose objects have enumerable string-keyed properties only.  The heap
    stays well-formed. *)
Theorem sanitizeObject_result_is_new_tree (h : heap) (value : val) :
  heap_wf h → val_closed h value →
  ∃ v' h', sanitizeObject h value = Some (v', h') ∧
    (∀ l, l ∈ dom h → h' !! l = h !! l) ∧
    (∀ l, reachable h' v' l → l ∉ dom h) ∧
    heap_wf h' ∧
    ∃ t ls, repr h' v' t ls ∧ NoDup ls ∧ plain t = true.
Proof.
  intros Hwf Hv.
  destruct (sanitizeObject_fresh_tree h value Hwf Hv)
    as (v' & h' & Hrun & Hframe & Hwf' & t & ls & Hr & Hnd & Hfresh & Hpl).
  exists v', h'. split_and!; try done.
  - intros l Hl. rewrite Forall_forall in Hfresh. apply Hfresh.
    by eapply repr_reachable_listed.
  - by exists t, ls.
Qed.

(** X2. Sanitizing what [sanitizeObject] returned gives a structurally
    equal value: both unfold to the same tree. *)
Theorem sanitizeObject_idempotent (h : heap) (value : val) :
  heap_wf h → val_closed h value →
  ∃ v1 h1 v2 h2 t ls1 ls2,
    sanitizeObject h value = Some (v1, h1) ∧
    sanitizeObject h1 v1 = Some (v2, h2) ∧
    repr h1 v1 t ls1 ∧ repr h2 v2 t ls2.
Proof.
  intros Hwf Hv.
  destruct (sanitizeObject_fresh_tree h value Hwf Hv)
    as (v1 & h1 & Hrun & _ & Hwf1 & t & ls & Hr & Hnd & _ & Hpl).
  assert (inv h1 (San h1 ∅)) as Hinv by (split; [done|simpl; set_solver]).
  assert (unvisited h1 (San h1 ∅) < S (size (dom h1))) as Hfuel.
  { unfold unvisited. simpl. rewrite difference_empty_L. lia. }
  assert (Forall (λ l, l ∉ s_seen (San h1 ∅)) ls) as Hns.
  { apply Forall_forall. intros l _. simpl. set_solver. }
  destruct (sanitizeValue_tree h1 Hwf1 _ v1 _ t ls Hinv Hfuel Hr Hnd Hpl Hns)
    as (v2 & st2 & Hrun2 & _ & _ & _ & ls2 & Hr2 & _).
  exists v1, h1, v2, (s_heap st2), t, ls, ls2. split_and!; try done.
  unfold sanitizeObject. by rewrite Hrun2.
Qed.


(** X4. The copy of an array has as many elements, and each is what the
    sanitizer makes of the element at its place. *)
Theorem sanitizeObject_maps_array (h : heap) (l : loc) vs :
  heap_wf h → h !! l = Some (OArr vs) →
  ∃ r vs' h', sanitizeObject h (VRef l) = Some (VRef r, h') ∧
    (r ∉ dom h) ∧ h' !! r = Some (OArr vs') ∧
    length vs' = length vs ∧
    Forall2 (copied h l h') vs vs'.
Proof.
  intros Hwf Hl.
  destruct (sanitizeObject_array_shape h l vs Hwf Hl)
    as (r & vs' & h' & Hrun & Hr & Hr' & Hall).
  exists r, vs', h'. split_and!; try done.
  symmetry. by eapply Forall2_length.
Qed.

(** * Further properties of the Logger *)

(** * [getCallerInfo] *)

Lemma string_app_nil_r (s : string) : s +:+ "" = s.
Proof.
  induction s as [|c s IH]; [done|].
  change (String c s +:+ "") with (String c (s +:+ "")). by rewrite IH.
Qed.

Lemma string_app_assoc (a b c : string) : a +:+ b +:+ c = (a +:+ b) +:+ c.
Proof.
  induction a as [|x a IH]; [done|].
  change (String x a +:+ b +:+ c) with (String x (a +:+ b +:+ c)).
  change ((String x a +:+ b) +:+ c) with (String x ((a +:+ b) +:+ c)).
  by rewrite IH.
Qed.

Lemma all_chars_app P a b :
  all_chars P (a +:+ b) = all_chars P a && all_chars P b.
Proof.
  unfold all_chars. induction a as [|c a IH]; simpl; [done|].
  by rewrite IH, andb_assoc.
Qed.

Lemma all_chars_cons P c s :
  all_chars P (String c s) = P c && all_chars P s.
Proof. reflexivity. Qed.

Lemma match_at_cons c s :
  match_at (String c s) =
  if starts_with "at " (String c s) then
    match take_name (drop3 (String c s)) with
    | EmptyString => match_at s
    | name => Some name
    end
  else match_at s.
Proof. reflexivity. Qed.

Lemma take_name_chars s : all_chars is_name_char (take_name s) = true.
Proof.
  unfold all_chars. induction s as [|c s IH]; simpl; [done|].
  destruct (is_name_char c) eqn:Hc; simpl; [by rewrite Hc|done].
Qed.

Lemma match_at_chars s name :
  match_at s = Some name → all_chars is_name_char name = true ∧ name ≠ "".
Proof.
  induction s as [|c s IH]; [done|]. rewrite match_at_cons.
  destruct (starts_with "at " (String c s)); [|done].
  destruct (take_name (drop3 (String c s))) as [|d n] eqn:Hn; [done|].
  intros [= <-]. split; [|done]. rewrite <- Hn. apply take_name_chars.
Qed.

Lemma last_part_from_chars s : ∀ acc,
  all_chars is_word_char acc = true → all_chars is_name_char s = true →
  all_chars is_word_char (last_part_from acc s) = true.
Proof.
  induction s as [|c s IH]; intros acc Hacc Hs; simpl; [done|].
  unfold all_chars in Hs. simpl in Hs. apply andb_prop in Hs as [Hc Hs].
  destruct (Ascii.eqb c ".") eqn:Hdot.
  - by apply IH.
  - apply IH; [|done]. rewrite all_chars_app, Hacc. unfold all_chars. simpl.
    unfold is_word_char. by rewrite Hc, Hdot.
Qed.

Lemma first_caller_chars frames :
  all_chars is_word_char (first_caller frames) = true.
Proof.
  induction frames as [|caller rest IH]; [by vm_compute|].
  simpl. destruct caller as [|c s]; [done|].
  destruct (match_at (String c s)) as [fullName|] eqn:Hm; [|done].
  apply match_at_chars in Hm as [Hm _]. by apply last_part_from_chars.
Qed.

Lemma includes_cons n c s :
  includes n (String c s) = starts_with n (String c s) || includes n s.
Proof. reflexivity. Qed.

Lemma match_at_None s : includes "at " s = false → match_at s = None.
Proof.
  induction s as [|c s IH]; [done|]. rewrite includes_cons, match_at_cons.
  intros [-> Hi]%orb_false_elim. by apply IH.
Qed.

Lemma first_caller_unknown frames :
  (∀ line, line ∈ frames → includes "at " line = false) →
  first_caller frames = "unknown".
Proof.
  induction frames as [|caller rest IH]; intros Hall; [done|].
  assert (first_caller rest = "unknown") as Hrest.
  { apply IH. intros line Hin. apply Hall. by right. }
  simpl. destruct caller as [|c s]; [done|].
  rewrite (match_at_None (String c s)); [done|]. apply Hall. by left.
Qed.

Lemma match_at_indent indent s :
  all_chars (Ascii.eqb " ") indent = true →
  match_at (indent +:+ s) = match_at s.
Proof.
  induction indent as [|c indent IH]; [done|].
  rewrite all_chars_cons. intros [Hc Hi]%andb_prop.
  apply Ascii.eqb_eq in Hc as <-.
  change (String " " indent +:+ s) with (String " " (indent +:+ s)).
  rewrite match_at_cons. simpl. by apply IH.
Qed.

Lemma take_name_app full rest :
  all_chars is_name_char full = true →
  take_name (full +:+ rest) = full +:+ take_name rest.
Proof.
  unfold all_chars. induction full as [|c full IH]; simpl; [done|].
  intros [-> Hf]%andb_prop. by rewrite IH.
Qed.

Lemma match_at_here full tail :
  all_chars is_name_char full = true → full ≠ "" →
  match_at ("at " +:+ full +:+ " " +:+ tail) = Some full.
Proof.
  intros Hf Hne.
  change ("at " +:+ full +:+ " " +:+ tail)
    with (String "a" (String "t" (String " " (full +:+ " " +:+ tail)))).
  rewrite match_at_cons.
  change (drop3 (String "a" (String "t" (String " " (full +:+ " " +:+ tail)))))
    with (full +:+ " " +:+ tail).
  change (starts_with "at " (String "a" (String "t" (String " " (full +:+ " " +:+ tail)))))
    with true.
  rewrite take_name_app by done.
  change (take_name (" " +:+ tail)) with "".
  rewrite string_app_nil_r.
  by destruct full.
Qed.

Lemma last_part_from_plain name : ∀ acc,
  all_chars is_word_char name = true → last_part_from acc name = acc +:+ name.
Proof.
  induction name as [|c name IH]; intros acc; simpl.
  - intros _. by rewrite string_app_nil_r.
  - unfold all_chars; simpl. intros [Hc Hn]%andb_prop.
    unfold is_word_char in Hc. apply andb_prop in Hc as [_ Hdot].
    apply negb_true_iff in Hdot. rewrite Hdot. rewrite IH by done.
    by rewrite <- string_app_assoc.
Qed.

Lemma last_part_from_dot q s : ∀ acc,
  last_part_from acc (q +:+ String "." s) = last_part_from "" s.
Proof.
  induction q as [|c q IH]; intros acc; simpl; [done|].
  destruct (Ascii.eqb c "."); apply IH.
Qed.

(** X5. Whatever the stack, the caller [getCallerInfo] gives is made of
    the characters of [\w] only: letters, digits and the underscore.  It
    has no dot, no blank and no newline. *)
Theorem getCallerInfo_word_chars (w : World) :
  all_chars is_word_char (getCallerInfo w) = true.
Proof.
  unfold getCallerInfo. destruct (w_stack w) as [stack|]; [|by vm_compute].
  apply first_caller_chars.
Qed.

(** X6. The caller is ["unknown"] when there is no stack, when the stack
    has at most four lines, and when no line from the fifth on contains
    ["at "]. *)
Theorem getCallerInfo_unknown (w : World) :
  (∀ stack, w_stack w = Some stack →
     length (split_lines stack) ≤ 4 ∨
     ∀ line, line ∈ drop 4 (split_lines stack) → includes "at " line = false) →
  getCallerInfo w = "unknown".
Proof.
  intros Hall. unfold getCallerInfo. destruct (w_stack w) as [stack|]; [|done].
  destruct (Hall stack eq_refl) as [Hlen|Hno].
  - by rewrite drop_ge.
  - by apply first_caller_unknown.
Qed.

(** X7. When the fifth line of the stack is an indented frame
    [at qualifier.name ...], the caller is [name], without the
    qualifier. *)
Theorem getCallerInfo_names_caller (w : World) stack f0 f1 f2 f3 rest
    indent qual name tail :
  w_stack w = Some stack →
  split_lines stack
  = f0 :: f1 :: f2 :: f3 :: (indent +:+ "at " +:+ qual +:+ name +:+ " " +:+ tail) :: rest →
  all_chars (Ascii.eqb " ") indent = true →
  (qual = "" ∨ ∃ q, qual = q +:+ "." ∧ all_chars is_name_char q = true) →
  all_chars is_word_char name = true → name ≠ "" →
  getCallerInfo w = name.
Proof.
  intros Hstack Hsplit Hindent Hqual Hname Hne.
  assert (all_chars is_name_char name = true) as Hname'.
  { unfold all_chars in *. rewrite forallb_forall in Hname |- *.
    intros c Hc. specialize (Hname c Hc). unfold is_word_char in Hname.
    by apply andb_prop in Hname as [? _]. }
  assert (all_chars is_name_char (qual +:+ name) = true) as Hfull.
  { rewrite all_chars_app, Hname'. destruct Hqual as [->|(q & -> & Hq)]; [done|].
    by rewrite all_chars_app, Hq. }
  assert (qual +:+ name ≠ "") as Hfne.
  { destruct qual; [done|discriminate]. }
  unfold getCallerInfo. rewrite Hstack, Hsplit. simpl drop.
  set (frame := indent +:+ "at " +:+ qual +:+ name +:+ " " +:+ tail).
  assert (match_at frame = Some (qual +:+ name)) as Hm.
  { unfold frame. rewrite match_at_indent by done.
    rewrite <- (match_at_here (qual +:+ name) tail Hfull Hfne).
    by rewrite (string_app_assoc qual). }
  assert (first_caller (frame :: rest) = last_part (qual +:+ name)) as ->.
  { simpl. rewrite Hm. by destruct frame. }
  unfold last_part. destruct Hqual as [->|(q & -> & Hq)].
  - by rewrite last_part_from_plain.
  - rewrite <- string_app_assoc. change (q +:+ "." +:+ name) with (q +:+ String "." name).
    rewrite last_part_from_dot. by rewrite last_part_from_plain.
Qed.

(** * Keys and attributes under [Object.assign] *)

Lemma set_prop_keys_app k v ps :
  pkey <$> set_prop k v ps
  = (pkey <$> ps) ++ (if decide (k ∈ pkey <$> ps) then [] else [k]).
Proof.
  induction ps as [|p ps IH].
  - done.
  - rewrite fmap_cons. simpl set_prop.
    destruct (decide (pkey p = k)) as [<-|Hne].
    + rewrite fmap_cons. simpl pkey. rewrite decide_True by left.
      by rewrite app_nil_r.
    + rewrite fmap_cons, IH. simpl. f_equal. f_equal.
      destruct (decide (k ∈ pkey <$> ps)) as [Hin|Hnin].
      * rewrite decide_True; [done|by right].
      * rewrite decide_False; [done|]. intros [?|?]%elem_of_cons; done.
Qed.


Lemma assign_all_cons ps k v kvs :
  assign_all ps ((k, v) :: kvs) = assign_all (set_prop k v ps) kvs.
Proof. reflexivity. Qed.


Lemma assign_all_keys_prefix kvs : ∀ ps,
  ∃ extra, pkey <$> assign_all ps kvs = (pkey <$> ps) ++ extra.
Proof.
  induction kvs as [|[k v] kvs IH]; intros ps.
  - exists []. simpl. by rewrite app_nil_r.
  - rewrite assign_all_cons. destruct (IH (set_prop k v ps)) as [extra ->].
    rewrite set_prop_keys_app, <- app_assoc. by eexists.
Qed.



Lemma assign_all_wf h kvs : ∀ ps,
  Forall (λ p, val_closed h (pval p)) ps → NoDup (pkey <$> ps) →
  Forall (λ kv : key * val, val_closed h kv.2) kvs →
  obj_wf h (OObj (assign_all ps kvs)).
Proof.
  induction kvs as [|[k v] kvs IH]; intros ps Hcl Hnd Hkvs; simpl; [done|].
  inversion Hkvs as [|?? Hv Hkvs']; subst. simpl in Hv.
  apply IH; [|by apply set_prop_NoDup|done].
  by apply (set_prop_Forall (val_closed h)).
Qed.

Lemma own_enumerable_closed (h : heap) v :
  heap_wf h → Forall (λ kv : key * val, val_closed h kv.2) (own_enumerable h v).
Proof.
  intros Hwf. destruct v as [| |b|n|s|n|id|l]; simpl; try constructor.
  - apply Forall_forall. intros kv Hin.
    apply elem_of_lookup_imap in Hin as (i & c & -> & _). done.
  - destruct (h !! l) as [[src|name message stack|vs|ps]|] eqn:Hl; try constructor.
    + pose proof (Hwf l _ Hl) as Hcl. simpl in Hcl.
      apply Forall_forall. intros kv Hin.
      apply elem_of_lookup_imap in Hin as (i & v & -> & Hv). simpl.
      rewrite Forall_forall in Hcl. apply Hcl. by eapply list_elem_of_lookup_2.
    + destruct (Hwf l _ Hl) as [Hcl _].
      apply Forall_fmap. apply Forall_forall. intros p Hin.
      apply list_elem_of_filter in Hin as [_ Hin]. simpl.
      rewrite Forall_forall in Hcl. by apply Hcl.
Qed.

(** * What a call does to the world *)

Lemma sanitizeObject_frame_wf h v v' h' :
  heap_wf h → val_closed h v → sanitizeObject h v = Some (v', h') →
  heap_wf h' ∧ dom h ⊆ dom h' ∧ (∀ l, l ∈ dom h → h' !! l = h !! l).
Proof.
  intros Hwf Hv Hrun.
  destruct (sanitizeObject_wf _ _ _ _ Hwf Hv Hrun) as (Hwf' & Hdom & _).
  destruct (sanitizeObject_total _ _ Hwf Hv) as (v0 & h0 & Hrun0 & Hf & _).
  rewrite Hrun in Hrun0. injection Hrun0 as <- <-. done.
Qed.

Section logger_effects.
Context `{Runtime}.

Lemma envelope_wf ms level text w (h : heap) :
  obj_wf h (OObj (envelope ms level (text_val text) w)).
Proof.
  split.
  - unfold envelope. repeat constructor. simpl. by destruct text.
  - apply (bool_decide_unpack _). by vm_compute.
Qed.

Lemma formatMessage_not_string ms level m w :
  (∀ s, m ≠ VStr s) →
  formatMessage ms level m w =
  ('(sv, h1) ← sanitizeObject (w_heap w) m;
   text ← JSON_stringify h1 sv;
   let '(r, h2) :=
     heap_alloc h1 (OObj (envelope ms level (text_val text) w)) in
   '(sv', h3) ← sanitizeObject h2 m;
   h4 ← Object_assign h3 r sv';
   Some (r, set_heap h4 w)).
Proof. intros Hns. destruct m; try reflexivity. by destruct (Hns s). Qed.

Local Opaque sanitizeObject.

Lemma formatMessage_steps ms level m w r w1 :
  heap_wf (w_heap w) → val_closed (w_heap w) m → (∀ s, m ≠ VStr s) →
  formatMessage ms level m w = Some (r, w1) →
  ∃ sv h1 text sv' h3,
    sanitizeObject (w_heap w) m = Some (sv, h1) ∧
    JSON_stringify h1 sv = Some text ∧
    r = fresh (dom h1) ∧
    sanitizeObject (<[r := OObj (envelope ms level (text_val text) w)]> h1) m
      = Some (sv', h3) ∧
    w1 = set_heap (<[r := OObj (assign_all (envelope ms level (text_val text) w)
                                           (own_enumerable h3 sv'))]> h3) w ∧
    heap_wf h3 ∧ r ∈ dom h3 ∧
    (∀ l, l ∈ dom (w_heap w) → l ≠ r ∧ h3 !! l = w_heap w !! l).
Proof.
  intros Hwf Hv Hns Hrun. rewrite formatMessage_not_string in Hrun by done.
  destruct (sanitizeObject (w_heap w) m) as [[sv h1]|] eqn:Hrun1; simpl in Hrun; [|done].
  destruct (JSON_stringify h1 sv) as [text|] eqn:Htext; simpl in Hrun; [|done].
  destruct (sanitizeObject_frame_wf _ _ _ _ Hwf Hv Hrun1) as (Hwf1 & Hd1 & Hf1).
  set (env := envelope ms level (text_val text) w) in *.
  set (r0 := fresh (dom h1)) in *.
  set (h2 := <[r0 := OObj env]> h1) in *.
  assert (r0 ∉ dom h1) as Hr0 by apply is_fresh.
  assert (heap_wf h2) as Hwf2 by (apply heap_wf_insert; [done|apply envelope_wf]).
  assert (dom h1 ⊆ dom h2) as Hd12 by (unfold h2; rewrite dom_insert_L; set_solver).
  assert (val_closed h2 m) as Hv2.
  { eapply val_closed_mono; [|done]. set_solver. }
  destruct (sanitizeObject h2 m) as [[sv' h3]|] eqn:Hrun2; simpl in Hrun; [|done].
  destruct (sanitizeObject_frame_wf _ _ _ _ Hwf2 Hv2 Hrun2) as (Hwf3 & Hd3 & Hf3).
  assert (r0 ∈ dom h2) as Hr2 by (unfold h2; rewrite dom_insert_L; set_solver).
  assert (h3 !! r0 = Some (OObj env)) as Hr3.
  { rewrite Hf3 by done. unfold h2. apply lookup_insert_eq. }
  unfold Object_assign in Hrun. rewrite Hr3 in Hrun. simpl in Hrun.
  injection Hrun as <- <-.
  exists sv, h1, text, sv', h3. split_and!; try done.
  - by apply Hd3.
  - intros l Hl. assert (l ≠ r0) as Hne by (intros ->; by apply Hr0, Hd1).
    split; [done|]. rewrite Hf3 by (by apply Hd12, Hd1).
    unfold h2. rewrite lookup_insert_ne by done. by apply Hf1.
Qed.

Lemma formatMessage_world ms level m w r w1 :
  formatMessage ms level m w = Some (r, w1) → ∃ h, w1 = set_heap h w.
Proof.
  intros Hfmt.
  assert ((∃ s, m = VStr s) ∨ ∀ s, m ≠ VStr s) as [[s ->]|Hns].
  { destruct m; try (by right); left; by eexists. }
  - injection Hfmt as <- <-. by eexists.
  - rewrite formatMessage_not_string in Hfmt by done.
    destruct (sanitizeObject _ _) as [[sv h1]|]; simpl in Hfmt; [|done].
    destruct (JSON_stringify h1 sv) as [text|]; simpl in Hfmt; [|done].
    destruct (sanitizeObject _ _) as [[sv' h3]|]; simpl in Hfmt; [|done].
    destruct (Object_assign _ _ _) as [h4|]; simpl in Hfmt; [|done].
    injection Hfmt as <- <-. by eexists.
Qed.

Local Transparent sanitizeObject.

(** The record [formatMessage] builds, and the heap it leaves. *)
Lemma formatMessage_heap ms level m w r w1 :
  heap_wf (w_heap w) → val_closed (w_heap w) m →
  formatMessage ms level m w = Some (r, w1) →
  (r ∉ dom (w_heap w)) ∧
  (∀ l, l ∈ dom (w_heap w) → w_heap w1 !! l = w_heap w !! l) ∧
  heap_wf (w_heap w1).
Proof.
  intros Hwf Hv Hrun.
  assert ((∃ s, m = VStr s) ∨ ∀ s, m ≠ VStr s) as [[s ->]|Hns'].
  { destruct m; try (by right); left; by eexists. }
  - injection Hrun as <- <-. simpl.
    pose proof (is_fresh (dom (w_heap w))) as Hr. split_and!.
    + done.
    + intros l Hl. apply lookup_insert_ne. by intros <-.
    + apply heap_wf_insert; [done|]. apply (envelope_wf ms level (Some s) w).
  - destruct (formatMessage_steps _ _ _ _ _ _ Hwf Hv Hns' Hrun)
      as (sv & h1 & text & sv' & h3 & _ & _ & _ & _ & -> & Hwf3 & Hr3 & Hf).
    simpl. split_and!.
    + intros Hin. by destruct (Hf r Hin).
    + intros l Hl. destruct (Hf l Hl) as [Hne Heq].
      by rewrite lookup_insert_ne.
    + apply heap_wf_insert; [done|]. apply assign_all_wf.
      * apply (envelope_wf ms level text w h3).
      * apply (envelope_wf ms level text w h3).
      * by apply own_enumerable_closed.
Qed.

Lemma createLogMethod_effect ms level m w w' :
  createLogMethod ms level m w = Some w' →
  ∃ out, if bool_decide (level = ERROR) then wrote_stderr w w' out
         else wrote_stdout w w' out.
Proof.
  unfold createLogMethod.
  destruct (formatMessage ms (LogLevel_name level) m w) as [[r w1]|] eqn:Hfmt;
    simpl; [|done].
  destruct (formatMessage_world _ _ _ _ _ _ Hfmt) as [h ->].
  destruct (JSON_stringify _ _) as [output|]; simpl; [|done].
  intros [= <-]. exists (text_val output). rewrite level_le_ERROR.
  by case_bool_decide.
Qed.

Lemma complexErrorText_world e w raw w1 :
  complexErrorText e w = Some (raw, w1) → ∃ h, w1 = set_heap h w.
Proof.
  assert (stringify_sanitized e w = Some (raw, w1) → ∃ h, w1 = set_heap h w) as Hgen.
  { unfold stringify_sanitized.
    destruct (sanitizeObject (w_heap w) e) as [[sv h1]|]; simpl; [|done].
    destruct (JSON_stringify h1 sv) as [[s|]|]; simpl; try done.
    intros [= <- <-]. by eexists. }
  unfold complexErrorText. destruct e as [| |b|n|s|n|id|l]; try apply Hgen.
  destruct (w_heap w !! l) as [[| | |]|]; try apply Hgen.
  intros [= <- <-]. exists (w_heap w). by destruct w.
Qed.

Lemma complexErrorText_frame e w raw w1 :
  heap_wf (w_heap w) → val_closed (w_heap w) e →
  complexErrorText e w = Some (raw, w1) →
  heap_wf (w_heap w1) ∧ ∀ l, l ∈ dom (w_heap w) → w_heap w1 !! l = w_heap w !! l.
Proof.
  intros Hwf Hcl.
  assert (stringify_sanitized e w = Some (raw, w1) →
          heap_wf (w_heap w1) ∧
          ∀ l, l ∈ dom (w_heap w) → w_heap w1 !! l = w_heap w !! l) as Hgen.
  { unfold stringify_sanitized.
    destruct (sanitizeObject (w_heap w) e) as [[sv h1]|] eqn:Hrun; simpl; [|done].
    destruct (JSON_stringify h1 sv) as [[s|]|]; simpl; try done.
    intros [= <- <-]. simpl.
    by destruct (sanitizeObject_frame_wf _ _ _ _ Hwf Hcl Hrun) as (? & _ & ?). }
  unfold complexErrorText. destruct e as [| |b|n|s|n|id|l]; try apply Hgen.
  destruct (w_heap w !! l) as [[| | |]|]; try apply Hgen.
  by intros [= <- <-].
Qed.

Lemma createLogMethod_heap ms level m w w' :
  heap_wf (w_heap w) → val_closed (w_heap w) m →
  createLogMethod ms level m w = Some w' →
  heap_wf (w_heap w') ∧ ∀ l, l ∈ dom (w_heap w) → w_heap w' !! l = w_heap w !! l.
Proof.
  intros Hwf Hcl. unfold createLogMethod.
  destruct (formatMessage ms (LogLevel_name level) m w) as [[r w1]|] eqn:Hfmt;
    simpl; [|done].
  destruct (formatMessage_heap _ _ _ _ _ _ Hwf Hcl Hfmt) as (_ & Hf & Hwf1).
  destruct (JSON_stringify _ _) as [output|]; simpl; [|done].
  intros [= <-]. by destruct (level_le level ERROR).
Qed.

(** X8. A call of a log method of a logger either does nothing (the
    severity is above the threshold) or writes one argument to one stream:
    to [console.error] for [error], to [console.log] for the others,
    whatever the message holds.  The other stream, the environment and
    the clock are as before. *)
Theorem log_call_effect ms (w0 : World) (S : LogLevel) (message : val) (w w' : World) :
  let this := constructor ms w0 in
  method_for this S message w = Some w' →
  ((rank (logLevel this) < rank S)%Z → w' = w) ∧
  ((rank S ≤ rank (logLevel this))%Z →
     ∃ out, if bool_decide (S = ERROR) then wrote_stderr w w' out
            else wrote_stdout w w' out).
Proof.
  intros this. subst this. unfold constructor. simpl.
  destruct (parseLogLevel (w_LOG_LEVEL w0)), S; simpl; intros Hrun;
    (split; [intros Hlt; first [lia | by injection Hrun as <-]
            |intros Hle; first [lia | by apply createLogMethod_effect in Hrun]]).
Qed.

(** X9. A call of a log method writes to no object that was in the heap:
    the message, and all it refers to, is as it was.  The heap stays
    well-formed, so the next call finds what this one found. *)
Theorem log_call_keeps_heap ms (w0 : World) (S : LogLevel) (message : val)
    (w w' : World) :
  heap_wf (w_heap w) → val_closed (w_heap w) message →
  method_for (constructor ms w0) S message w = Some w' →
  (∀ l, l ∈ dom (w_heap w) → w_heap w' !! l = w_heap w !! l) ∧
  heap_wf (w_heap w') ∧ val_closed (w_heap w') message.
Proof.
  intros Hwf Hcl Hrun.
  assert (heap_wf (w_heap w') ∧
          ∀ l, l ∈ dom (w_heap w) → w_heap w' !! l = w_heap w !! l) as [Hwf' Hf].
  { destruct (method_for_constructor ms w0 S) as [Hm|Hm]; rewrite Hm in Hrun.
    - by eapply createLogMethod_heap.
    - by injection Hrun as <-. }
  split_and!; [done|done|].
  destruct message as [| |b|n|s|n|id|l]; try done. simpl in *.
  rewrite Hf; [done|]. by apply elem_of_dom.
Qed.



(** X12. [logComplexError] writes one argument to [console.error] and
    nothing to [console.log], whatever the threshold and whatever it is
    given; the environment and the clock are as before. *)
Theorem logComplexError_effect ms (w0 : World) (e : val) (w w' : World) :
  logComplexError (constructor ms w0) e w = Some w' →
  ∃ out, wrote_stderr w w' out.
Proof.
  unfold logComplexError, constructor. simpl. rewrite !level_ge_ERROR.
  destruct (complexErrorText e w) as [[raw w1]|] eqn:Htext; simpl; [|done].
  destruct (complexErrorText_world _ _ _ _ Htext) as [h ->].
  intros Hrun. apply createLogMethod_effect in Hrun as [out Hout].
  exists out. exact Hout.
Qed.

(** X13. [logComplexError] writes to no object that was in the heap, and
    the heap stays well-formed. *)
Theorem logComplexError_keeps_heap ms (w0 : World) (e : val) (w w' : World) :
  heap_wf (w_heap w) → val_closed (w_heap w) e →
  logComplexError (constructor ms w0) e w = Some w' →
  (∀ l, l ∈ dom (w_heap w) → w_heap w' !! l = w_heap w !! l) ∧
  heap_wf (w_heap w').
Proof.
  intros Hwf Hcl. unfold logComplexError, constructor. simpl.
  rewrite !level_ge_ERROR.
  destruct (complexErrorText e w) as [[raw w1]|] eqn:Htext; simpl; [|done].
  destruct (complexErrorText_frame _ _ _ _ Hwf Hcl Htext) as [Hwf1 Hf1].
  set (r := fresh (dom (w_heap w1))).
  set (payload := OObj [Prop_ (KStr "complexError") true (VStr (replace_newlines raw))]).
  intros Hrun.
  assert (r ∉ dom (w_heap w1)) as Hr by apply is_fresh.
  assert (heap_wf (<[r := payload]> (w_heap w1))) as Hwf2.
  { apply heap_wf_insert; [done|]. split; [by repeat constructor|].
    apply NoDup_singleton. }
  apply createLogMethod_heap in Hrun as [Hwf' Hf']; [|done|].
  - split; [|done]. intros l Hl.
    assert (l ∈ dom (w_heap w1)) as Hl1.
    { apply elem_of_dom. rewrite Hf1 by done. by apply elem_of_dom. }
    rewrite Hf'.
    + simpl. rewrite lookup_insert_ne by (by intros <-). by apply Hf1.
    + simpl. rewrite dom_insert_L. set_solver.
  - simpl. exists payload. apply lookup_insert_eq.
Qed.
End logger_effects.

(** * An [Error] as the message *)

Lemma sanitizeObject_error (h : heap) l name message stack :
  h !! l = Some (OErr name message stack) →
  sanitizeObject h (VRef l)
  = Some (VRef (fresh (dom h)),
          <[fresh (dom h) :=
              OObj [Prop_ (KStr "name") true (VStr name);
                    Prop_ (KStr "message") true (VStr message);
                    Prop_ (KStr "stack") true (from_option VStr VUndef stack)]]> h).
Proof.
  intros Hl. unfold sanitizeObject. simpl.
  unfold mbind at 1, San_bind at 1, deref. simpl. by rewrite Hl.
Qed.

Section error_message.
Context `{Runtime}.

(** X14. An [Error] given as the message: the record has the five fields
    of the envelope followed by [name] and [stack], and its [message] is
    the message of the error, in place of the JSON text. *)
Theorem error_as_message_record ms level (l : loc) name message stack
    (w : World) r w1 :
  w_heap w !! l = Some (OErr name message stack) →
  formatMessage ms level (VRef l) w = Some (r, w1) →
  (r ∉ dom (w_heap w)) ∧
  w_heap w1 !! l = w_heap w !! l ∧
  w_heap w1 !! r
  = Some (OObj [Prop_ (KStr "timestamp") true (VStr (w_now w));
                Prop_ (KStr "level") true (VStr level);
                Prop_ (KStr "message") true (VStr message);
                Prop_ (KStr "microservice") true (VStr ms);
                Prop_ (KStr "caller") true (VStr (getCallerInfo w));
                Prop_ (KStr "name") true (VStr name);
                Prop_ (KStr "stack") true (from_option VStr VUndef stack)]).
Proof.
  intros Hl. unfold formatMessage.
  rewrite (sanitizeObject_error _ _ _ _ _ Hl). simpl.
  set (r1 := fresh (dom (w_heap w))).
  set (record := OObj [Prop_ (KStr "name") true (VStr name);
                       Prop_ (KStr "message") true (VStr message);
                       Prop_ (KStr "stack") true (from_option VStr VUndef stack)]).
  set (h1 := <[r1 := record]> (w_heap w)).
  destruct (JSON_stringify h1 (VRef r1)) as [text|]; simpl; [|done].
  set (env := envelope ms level (text_val text) w).
  set (r2 := fresh (dom h1)).
  set (h2 := <[r2 := OObj env]> h1).
  assert (l ∈ dom (w_heap w)) as Hldom by (apply elem_of_dom; eauto).
  assert (r1 ∉ dom (w_heap w)) as Hr1 by apply is_fresh.
  assert (r2 ∉ dom h1) as Hr2 by apply is_fresh.
  assert (dom h1 = {[r1]} ∪ dom (w_heap w)) as Hd1 by (unfold h1; by rewrite dom_insert_L).
  assert (l ≠ r1) as Hl1 by (by intros ->).
  assert (l ≠ r2) as Hl2 by (intros ->; apply Hr2; rewrite Hd1; set_solver).
  assert (h2 !! l = Some (OErr name message stack)) as Hlh2.
  { unfold h2, h1. by rewrite !lookup_insert_ne. }
  rewrite (sanitizeObject_error _ _ _ _ _ Hlh2). simpl.
  set (r3 := fresh (dom h2)).
  assert (r3 ∉ dom h2) as Hr3 by apply is_fresh.
  assert (dom h2 = {[r2]} ∪ dom h1) as Hd2 by (unfold h2; by rewrite dom_insert_L).
  assert (r2 ≠ r3) as Hr23 by (intros Heq; apply Hr3; rewrite <- Heq, Hd2; set_solver).
  assert (l ≠ r3) as Hl3 by (intros ->; apply Hr3; rewrite Hd2, Hd1; set_solver).
  unfold Object_assign. fold record.
  rewrite lookup_insert_ne by done. unfold h2 at 1. rewrite lookup_insert_eq.
  simpl. rewrite lookup_insert_eq. simpl.
  intros [= <- <-]. simpl. split_and!.
  - intros Hin. apply Hr2. rewrite Hd1. set_solver.
  - rewrite !lookup_insert_ne by done. unfold h2, h1.
    by rewrite !lookup_insert_ne.
  - rewrite lookup_insert_eq. reflexivity.
Qed.
End error_message.

(** * The properties above on examples *)

Lemma h_mixed_wf : heap_wf h_mixed.
Proof. apply (bool_decide_unpack _). vm_compute. exact I. Defined.

Lemma sanitizeObject_result_is_new_tree_witness :
  heap_wf h_mixed ∧ val_closed h_mixed (VRef 1) ∧
  ∃ v' h', sanitizeObject h_mixed (VRef 1) = Some (v', h') ∧
    (∀ l, l ∈ dom h_mixed → h' !! l = h_mixed !! l) ∧
    (∀ l, reachable h' v' l → l ∉ dom h_mixed) ∧
    heap_wf h' ∧
    ∃ t ls, repr h' v' t ls ∧ NoDup ls ∧ plain t = true.
Proof.
  assert (val_closed h_mixed (VRef 1)) as Hcl.
  { apply (bool_decide_unpack _). vm_compute. exact I. }
  split; [exact h_mixed_wf|]. split; [exact Hcl|].
  exact (sanitizeObject_result_is_new_tree h_mixed (VRef 1) h_mixed_wf Hcl).
Defined.

Lemma sanitizeObject_idempotent_witness :
  heap_wf h_mixed ∧ val_closed h_mixed (VRef 1) ∧
  ∃ v1 h1 v2 h2 t ls1 ls2,
    sanitizeObject h_mixed (VRef 1) = Some (v1, h1) ∧
    sanitizeObject h1 v1 = Some (v2, h2) ∧
    repr h1 v1 t ls1 ∧ repr h2 v2 t ls2.
Proof.
  assert (val_closed h_mixed (VRef 1)) as Hcl.
  { apply (bool_decide_unpack _). vm_compute. exact I. }
  split; [exact h_mixed_wf|]. split; [exact Hcl|].
  exact (sanitizeObject_idempotent h_mixed (VRef 1) h_mixed_wf Hcl).
Defined.


Lemma sanitizeObject_maps_array_witness :
  heap_wf h_mixed ∧ h_mixed !! 4 = Some (OArr [VRef 1; VNull]) ∧
  ∃ r vs' h', sanitizeObject h_mixed (VRef 4) = Some (VRef r, h') ∧
    h' !! r = Some (OArr vs') ∧ length vs' = 2.
Proof.
  split; [exact h_mixed_wf|]. split; [reflexivity|].
  destruct (sanitizeObject_maps_array h_mixed 4 _ h_mixed_wf eq_refl)
    as (r & vs' & h' & Hrun & _ & Hr & Hlen & _).
  exists r, vs', h'. split; [exact Hrun|]. split; [exact Hr|exact Hlen].
Defined.

Lemma getCallerInfo_unknown_witness :
  length (split_lines (default "" (w_stack w_short_stack))) ≤ 4 ∧
  getCallerInfo w_short_stack = "unknown".
Proof.
  split; [vm_compute; lia|].
  apply getCallerInfo_unknown. intros stack [= <-]. left. vm_compute. lia.
Defined.

Lemma getCallerInfo_names_caller_witness :
  getCallerInfo w_example = "handleRequest".
Proof.
  eapply (getCallerInfo_names_caller w_example _ "Error"
            "    at getCallerInfo (logger.js:51:19)"
            "    at formatMessage (logger.js:74:20)"
            "    at Logger.error (logger.js:119:31)"
            ["    at main (app.js:20:1)"]
            "    " "Object." "handleRequest" "(app.js:10:5)").
  - reflexivity.
  - vm_compute. reflexivity.
  - reflexivity.
  - right. exists "Object". split; reflexivity.
  - reflexivity.
  - discriminate.
Defined.

Lemma log_call_effect_witness :
  ∃ w' out,
    info (constructor (H := reference_runtime) "Svc" w_example) (VStr "y") w_example
      = Some w' ∧
    wrote_stdout w_example w' out.
Proof.
  destruct (info (constructor (H := reference_runtime) "Svc" w_example) (VStr "y")
              w_example) as [w'|] eqn:Hrun; [|by vm_compute in Hrun].
  destruct (log_call_effect (H := reference_runtime) "Svc" w_example INFO (VStr "y")
              w_example w' Hrun) as [_ Hact].
  destruct Hact as [out Hout]; [vm_compute; discriminate|].
  exists w', out. split; [reflexivity|exact Hout].
Defined.

Lemma log_call_keeps_heap_witness :
  heap_wf (w_heap w_example) ∧ val_closed (w_heap w_example) (VRef 1) ∧
  ∃ w',
    error (constructor (H := reference_runtime) "Svc" w_example) (VRef 1) w_example
      = Some w' ∧
    w_heap w' !! 1 = w_heap w_example !! 1 ∧ heap_wf (w_heap w').
Proof.
  assert (heap_wf (w_heap w_example)) as Hwf.
  { apply (bool_decide_unpack _). vm_compute. exact I. }
  assert (val_closed (w_heap w_example) (VRef 1)) as Hcl.
  { apply (bool_decide_unpack _). vm_compute. exact I. }
  split; [exact Hwf|]. split; [exact Hcl|].
  destruct (error (constructor (H := reference_runtime) "Svc" w_example) (VRef 1)
              w_example) as [w'|] eqn:Hrun; [|by vm_compute in Hrun].
  destruct (log_call_keeps_heap (H := reference_runtime) "Svc" w_example ERROR (VRef 1)
              w_example w' Hwf Hcl Hrun) as (Hf & Hwf' & _).
  exists w'. split; [reflexivity|]. split; [|exact Hwf'].
  apply Hf. apply (bool_decide_unpack _). vm_compute. exact I.
Defined.


Lemma logComplexError_effect_witness :
  ∃ w' out,
    logComplexError (H := reference_runtime) (constructor (H := reference_runtime) "Svc" w_multiline) (VRef 1)
      w_multiline = Some w' ∧
    wrote_stderr w_multiline w' out.
Proof.
  destruct (logComplexError (H := reference_runtime) (constructor (H := reference_runtime) "Svc" w_multiline)
              (VRef 1) w_multiline) as [w'|] eqn:Hrun; [|by vm_compute in Hrun].
  destruct (logComplexError_effect (H := reference_runtime) "Svc" w_multiline (VRef 1)
              w_multiline w' Hrun) as [out Hout].
  exists w', out. split; [reflexivity|exact Hout].
Defined.

Lemma logComplexError_keeps_heap_witness :
  heap_wf (w_heap w_multiline) ∧ val_closed (w_heap w_multiline) (VRef 1) ∧
  ∃ w',
    logComplexError (H := reference_runtime) (constructor (H := reference_runtime) "Svc" w_multiline) (VRef 1)
      w_multiline = Some w' ∧
    w_heap w' !! 1 = w_heap w_multiline !! 1 ∧ heap_wf (w_heap w').
Proof.
  assert (heap_wf (w_heap w_multiline)) as Hwf.
  { apply (bool_decide_unpack _). vm_compute. exact I. }
  assert (val_closed (w_heap w_multiline) (VRef 1)) as Hcl.
  { apply (bool_decide_unpack _). vm_compute. exact I. }
  split; [exact Hwf|]. split; [exact Hcl|].
  destruct (logComplexError (H := reference_runtime) (constructor (H := reference_runtime) "Svc" w_multiline)
              (VRef 1) w_multiline) as [w'|] eqn:Hrun; [|by vm_compute in Hrun].
  destruct (logComplexError_keeps_heap (H := reference_runtime) "Svc" w_multiline
              (VRef 1) w_multiline w' Hwf Hcl Hrun) as (Hf & Hwf').
  exists w'. split; [reflexivity|]. split; [|exact Hwf'].
  apply Hf. apply (bool_decide_unpack _). vm_compute. exact I.
Defined.

Lemma error_as_message_record_witness :
  w_heap w_multiline !! 1
  = Some (OErr "Error" multiline_message
               (Some ("Error: " +:+ multiline_message
                      +:+ String newline "    at f (x.js:1:1)"))) ∧
  ∃ r w1 rec,
    formatMessage (H := reference_runtime) "Svc" "ERROR" (VRef 1) w_multiline
      = Some (r, w1) ∧
    w_heap w1 !! r = Some (OObj rec) ∧
    get_prop (KStr "message") rec = Some (VStr multiline_message) ∧
    pkey <$> rec = envelope_keys ++ [KStr "name"; KStr "stack"].
Proof.
  split; [reflexivity|].
  destruct (formatMessage (H := reference_runtime) "Svc" "ERROR" (VRef 1) w_multiline)
    as [[r w1]|] eqn:Hrun; [|by vm_compute in Hrun].
  destruct (error_as_message_record (H := reference_runtime) "Svc" "ERROR" 1 _ _ _
              w_multiline r w1 eq_refl Hrun) as (_ & _ & Hr).
  eexists r, w1, _. split; [reflexivity|]. split; [exact Hr|]. split; reflexivity.
Defined.
